(** * Peloton core: priority queue, worker pool, goal-state engine and
      the Mesos plugin of the host manager

    A shallow embedding of the Go sources

    - [resmgr/queue/priority.go]              (module [Queue])
    - [common/async/pool.go]                  (module [Async])
    - [pkg/hostmgr/p2k/plugins/mesos/mesos.go] (module [Mesos])
    - [hostmgr/util/util.go]                  (module [Util])
    - the job runtime updater of the job manager's goal state
                                              (module [JobRuntime])

    and of the goal-state engine exercised by the engine tests (module
    [Goalstate]).  Maps are stdpp [gmap]s, Go integers are [Z], mutexes
    are rendered by making every critical section one atomic step of a
    step function, and goroutines are interleaved by an explicit
    schedule. *)

From Stdlib Require Import ZArith Lia Ascii.
From stdpp Require Import gmap strings list fin_maps sorting.

(* ===================================================================== *)
(** * resmgr/queue: the priority queue                                    *)
(* ===================================================================== *)

Module Queue.

Local Open Scope Z_scope.

(** [TaskItem]: a priority and an opaque payload, here the task id. *)
Record TaskItem := mkTaskItem { Priority : Z; TaskID : string }.

(** [&TaskItem{}], the zero value returned on every failing path. *)
Definition emptyTaskItem : TaskItem := mkTaskItem 0 EmptyString.

Inductive error :=
| QueueLimitReached   (* errors.New("Queue Limit is reached") *)
| EmptyLevel.         (* the error of MultiLevelList.Pop *)

#[global] Instance TaskItem_eq_dec : EqDecision TaskItem.
Proof. solve_decision. Defined.
#[global] Instance error_eq_dec : EqDecision error.
Proof. solve_decision. Defined.

(** ** MultiLevelList *)

(** Modelled from the spec: the multi-level list ([MultiLevelList], whose
    file is not among the sources).  A mapping from priority to the
    ordered sequence of items of that level; a level that becomes empty
    is deregistered, so an empty level carries no entry. *)
Abbreviation MultiLevelList := (gmap Z (list TaskItem)).

Definition NewMultiLevelList : MultiLevelList := ∅.

(** Modelled from the spec: the sentinel [GetHighestLevel] reports on an
    empty list, taken as the least 64-bit integer. *)
Definition emptySentinel : Z := - 2 ^ 63.

(** Modelled from the spec: [Push] appends to the sequence of the level
    and registers the level if it was empty. *)
Definition Push (p : Z) (x : TaskItem) (m : MultiLevelList) : MultiLevelList :=
  <[p := default [] (m !! p) ++ [x]]> m.

(** Modelled from the spec: [Pop] removes and returns the head of the
    level, deregistering the level when it becomes empty; [None] is the
    Empty error. *)
Definition Pop (p : Z) (m : MultiLevelList) : option (TaskItem * MultiLevelList) :=
  match m !! p with
  | Some (x :: rest) =>
      Some (x, match rest with [] => delete p m | _ => <[p := rest]> m end)
  | _ => None
  end.

Definition maxLevel (m : MultiLevelList) : option Z :=
  map_fold (λ k _ acc, Some (from_option (Z.max k) k acc)) None m.

(** Modelled from the spec: [GetHighestLevel] is the maximum priority
    with a non-empty sequence, or the sentinel. *)
Definition GetHighestLevel (m : MultiLevelList) : Z :=
  default emptySentinel (maxLevel m).

(** Modelled from the spec: [Len] is the length of the level, 0 if absent. *)
Definition Len (p : Z) (m : MultiLevelList) : nat :=
  length (default [] (m !! p)).

(** The sum of the lengths of all levels. *)
Definition sumLen (m : MultiLevelList) : nat :=
  map_fold (λ _ l n, (length l + n)%nat) 0%nat m.

(** The registered priorities, and the sum of [Len p] over them ([Len] is
    0 at every other priority). *)
Definition levels (m : MultiLevelList) : list Z := (map_to_list m).*1.

Definition totalLen (m : MultiLevelList) : nat :=
  sum_list_with (λ p, Len p m) (levels m).

(** ** PriorityQueue *)

(** The 64-bit signed integers of [limit] and [count]: the value an
    [int64] holds after an operation whose exact result is [z]. *)
Definition int64 (z : Z) : Z := (z + 2 ^ 63) mod 2 ^ 64 - 2 ^ 63.

Definition maxInt64 : Z := 2 ^ 63 - 1.

Record PriorityQueue := mkPQ {
  pq_list  : MultiLevelList;   (* list  *MultiLevelList *)
  pq_limit : Z;                (* limit int64 *)
  pq_count : Z                 (* count int64 *)
}.

Definition NewPriorityQueue (limit : Z) : PriorityQueue :=
  {| pq_list := NewMultiLevelList; pq_limit := limit; pq_count := 0 |}.

(** [Enqueue] holds the queue lock from entry to exit: one atomic step. *)
Definition Enqueue (ti : TaskItem) (f : PriorityQueue) : PriorityQueue * option error :=
  if bool_decide (pq_count f >= pq_limit f) then (f, Some QueueLimitReached)
  else ({| pq_list := Push (Priority ti) ti (pq_list f);
           pq_limit := pq_limit f;
           pq_count := int64 (pq_count f + 1) |}, None).

(** [Dequeue] takes the queue lock only for [count--]; its calls into the
    multi-level list are separate critical sections of the list's own
    lock.  Each program point below is one such atomic step, so that
    other goroutines can run in between.  (The [item == nil] test of the
    source is dead: [Enqueue] dereferences the item it pushes.) *)
Inductive dq_state :=
| DqPeek                              (* highestPriority := f.list.GetHighestLevel() *)
| DqPop (hp : Z)                      (* item, err := f.list.Pop(highestPriority) *)
| DqLoopCond (hp : Z) (err : error)   (* for highestPriority != f.list.GetHighestLevel() *)
| DqRePeek (err : error)              (* highestPriority = f.list.GetHighestLevel() *)
| DqRePop (hp : Z)                    (* item, err = f.list.Pop(highestPriority) *)
| DqCount (item : TaskItem)           (* f.Lock(); f.count--; return res, nil *)
| DqRet (res : TaskItem) (err : option error).

#[global] Instance dq_state_eq_dec : EqDecision dq_state.
Proof. solve_decision. Defined.

Definition with_list (f : PriorityQueue) (m : MultiLevelList) : PriorityQueue :=
  {| pq_list := m; pq_limit := pq_limit f; pq_count := pq_count f |}.

Definition dq_step (s : dq_state) (f : PriorityQueue) : dq_state * PriorityQueue :=
  match s with
  | DqPeek => (DqPop (GetHighestLevel (pq_list f)), f)
  | DqPop hp =>
      match Pop hp (pq_list f) with
      | Some (x, m') => (DqCount x, with_list f m')
      | None => (DqLoopCond hp EmptyLevel, f)
      end
  | DqLoopCond hp err =>
      if bool_decide (hp ≠ GetHighestLevel (pq_list f))
      then (DqRePeek err, f)
      else (DqRet emptyTaskItem (Some err), f)
  | DqRePeek _ => (DqRePop (GetHighestLevel (pq_list f)), f)
  | DqRePop hp =>
      match Pop hp (pq_list f) with
      | Some (_, m') => (DqRet emptyTaskItem None, with_list f m')   (* err == nil: break *)
      | None => (DqLoopCond hp EmptyLevel, f)
      end
  | DqCount x =>
      (DqRet x None,
       {| pq_list := pq_list f; pq_limit := pq_limit f; pq_count := int64 (pq_count f - 1) |})
  | DqRet x e => (DqRet x e, f)
  end.

(** Running one [Dequeue] with no other goroutine in between. *)
Fixpoint dq_run (fuel : nat) (s : dq_state) (f : PriorityQueue)
  : option (TaskItem * option error * PriorityQueue) :=
  match s with
  | DqRet x e => Some (x, e, f)
  | _ => match fuel with
         | O => None
         | S n => let '(s', f') := dq_step s f in dq_run n s' f'
         end
  end.

(** [PriorityQueue.Len]: the length of the queue for the priority. *)
Definition PriorityQueue_Len (priority : Z) (f : PriorityQueue) : nat :=
  Len priority (pq_list f).

(** [Dequeue] run alone: four steps always suffice ([Dequeue_alone]). *)
Definition Dequeue (f : PriorityQueue) : TaskItem * option error * PriorityQueue :=
  default (emptyTaskItem, None, f) (dq_run 4 DqPeek f).

(** Several goroutines calling [Dequeue] on one queue. *)
Record system := mkSys { shared : PriorityQueue; threads : list dq_state }.

Definition sys_step (s : system) (i : nat) : system :=
  match threads s !! i with
  | Some t => let '(t', f') := dq_step t (shared s) in
              {| shared := f'; threads := <[i := t']> (threads s) |}
  | None => s
  end.

Definition run_sched (sched : list nat) (s : system) : system :=
  foldl sys_step s sched.

(** Operations run one at a time. *)
Inductive op := OpEnqueue (ti : TaskItem) | OpDequeue.

Definition apply_op (f : PriorityQueue) (o : op) : PriorityQueue :=
  match o with
  | OpEnqueue ti => (Enqueue ti f).1
  | OpDequeue => (Dequeue f).2
  end.

Definition run_ops (ops : list op) (f : PriorityQueue) : PriorityQueue :=
  foldl apply_op f ops.

(** No level is registered with an empty sequence. *)
Definition mll_wf (m : MultiLevelList) : Prop :=
  ∀ p l, m !! p = Some l → l ≠ [].

(** The invariant of a queue between operations: no empty level,
    [count] is the number of items, and both integers fit their type. *)
Definition pq_inv (f : PriorityQueue) : Prop :=
  mll_wf (pq_list f) ∧ pq_count f = Z.of_nat (sumLen (pq_list f))
  ∧ pq_count f ≤ maxInt64 ∧ pq_limit f ≤ maxInt64.

(** ** Concrete queues *)

Definition a2 : TaskItem := mkTaskItem 2 "a".
Definition b1 : TaskItem := mkTaskItem 1 "b".

(** Limit 10, holding [a] at priority 2 and [b] at priority 1. *)
Definition q2 : PriorityQueue := run_ops [OpEnqueue a2; OpEnqueue b1] (NewPriorityQueue 10).

(** Limit 1, holding [a]: a full queue. *)
Definition qfull : PriorityQueue := run_ops [OpEnqueue a2] (NewPriorityQueue 1).

(** ** Draining a queue *)

(** Every item is filed under its own priority ([Enqueue] pushes [ti] at
    [ti.Priority]). *)
Definition filed (m : MultiLevelList) : Prop :=
  ∀ p l, m !! p = Some l → Forall (λ x, Priority x = p) l.

(** The order in which items leave: higher priority first. *)
Definition higher_first (a b : TaskItem) : Prop := Priority b ≤ Priority a.

(** [n] calls of [Dequeue] in a row, stopping at the first error: the
    items returned and the queue left. *)
Fixpoint drain (n : nat) (f : PriorityQueue) : list TaskItem * PriorityQueue :=
  match n with
  | O => ([], f)
  | S n' =>
      match Dequeue f with
      | (x, None, f') => let '(xs, f'') := drain n' f' in (x :: xs, f'')
      | (_, Some _, f') => ([], f')
      end
  end.

(** ** [Enqueue] and [Dequeue] calls running together *)

(** Where a call of [Enqueue] stands.  From [EqCheck] to [EqInc] the
    call holds the queue lock. *)
Inductive eq_state :=
| EqLock (ti : TaskItem)    (* f.Lock() *)
| EqCheck (ti : TaskItem)   (* if f.count >= f.limit { return err } *)
| EqPush (ti : TaskItem)    (* f.list.Push(ti.Priority, ti) *)
| EqInc                     (* f.count++; return nil, with the deferred Unlock *)
| EqRet (err : option error).

Inductive call :=
| CallEnqueue (s : eq_state)
| CallDequeue (s : dq_state).

Definition holds_lock (c : call) : bool :=
  match c with
  | CallEnqueue (EqCheck _) | CallEnqueue (EqPush _) | CallEnqueue EqInc => true
  | _ => false
  end.

Definition locked (cs : list call) : bool := existsb holds_lock cs.

(** One step of a call among the calls [cs].  [f.Lock()] waits while the
    lock is held, in [Enqueue] as in the [count--] of [Dequeue]. *)
Definition call_step (cs : list call) (c : call) (f : PriorityQueue)
  : call * PriorityQueue :=
  match c with
  | CallEnqueue (EqLock ti) =>
      if locked cs then (c, f) else (CallEnqueue (EqCheck ti), f)
  | CallEnqueue (EqCheck ti) =>
      if bool_decide (pq_count f >= pq_limit f)
      then (CallEnqueue (EqRet (Some QueueLimitReached)), f)
      else (CallEnqueue (EqPush ti), f)
  | CallEnqueue (EqPush ti) =>
      (CallEnqueue EqInc, with_list f (Push (Priority ti) ti (pq_list f)))
  | CallEnqueue EqInc =>
      (CallEnqueue (EqRet None),
       {| pq_list := pq_list f; pq_limit := pq_limit f;
          pq_count := int64 (pq_count f + 1) |})
  | CallEnqueue (EqRet _) => (c, f)
  | CallDequeue (DqCount x) =>
      if locked cs then (c, f)
      else let '(s', f') := dq_step (DqCount x) f in (CallDequeue s', f')
  | CallDequeue s => let '(s', f') := dq_step s f in (CallDequeue s', f')
  end.

Record concurrent := mkConcurrent {
  conc_queue : PriorityQueue;
  conc_calls : list call
}.

Inductive event :=
| EvEnqueue (ti : TaskItem)   (* a goroutine calls Enqueue(ti) *)
| EvDequeue                   (* a goroutine calls Dequeue() *)
| EvStep (i : nat).           (* call i takes its next step *)

Definition conc_step (s : concurrent) (e : event) : concurrent :=
  match e with
  | EvEnqueue ti =>
      mkConcurrent (conc_queue s) (conc_calls s ++ [CallEnqueue (EqLock ti)])
  | EvDequeue =>
      mkConcurrent (conc_queue s) (conc_calls s ++ [CallDequeue DqPeek])
  | EvStep i =>
      match conc_calls s !! i with
      | Some c =>
          let '(c', f') := call_step (conc_calls s) c (conc_queue s) in
          mkConcurrent f' (<[i := c']> (conc_calls s))
      | None => s
      end
  end.

Definition conc_run (evs : list event) (limit : Z) : concurrent :=
  foldl conc_step (mkConcurrent (NewPriorityQueue limit) []) evs.

(** Counting the calls at a program point. *)
Definition at_hold (c : call) : nat :=
  match c with
  | CallEnqueue (EqCheck _) | CallEnqueue (EqPush _) | CallEnqueue EqInc => 1%nat
  | _ => 0%nat
  end.
Definition at_push (c : call) : nat :=
  match c with CallEnqueue (EqPush _) => 1%nat | _ => 0%nat end.
Definition at_inc (c : call) : nat :=
  match c with CallEnqueue EqInc => 1%nat | _ => 0%nat end.
Definition at_count (c : call) : nat :=
  match c with CallDequeue (DqCount _) => 1%nat | _ => 0%nat end.

(** What every interleaving keeps: one call at most holds the lock; the
    items of the list and the dequeued items not yet counted are covered
    by [count], up to the item of the [Enqueue] that has pushed and not
    yet counted; and an [Enqueue] past its test runs under
    [count < limit]. *)
Definition conc_inv (limit : Z) (s : concurrent) : Prop :=
  let f := conc_queue s in
  let cs := conc_calls s in
  pq_limit f = limit ∧
  (sum_list_with at_hold cs ≤ 1)%nat ∧
  Z.of_nat (sumLen (pq_list f) + sum_list_with at_count cs)
    ≤ pq_count f + Z.of_nat (sum_list_with at_inc cs) ∧
  ((0 < sum_list_with at_push cs + sum_list_with at_inc cs)%nat → pq_count f < limit) ∧
  0 ≤ pq_count f ≤ limit.

End Queue.

(* ===================================================================== *)
(** * common/async: the worker pool                                       *)
(* ===================================================================== *)

Module Async.

Local Open Scope Z_scope.

(** A job is opaque; it is identified by a number and running it is
    recorded in the pool's [ran] trace. *)
Definition Job := nat.

Definition DefaultMaxWorkers : Z := 4.

(** Where a worker goroutine stands in [runWorker]. *)
Inductive worker :=
| WLoop               (* top of the for loop: about to call shouldWorkerStop *)
| WRecv               (* job := <-p.queue.DequeueChannel() *)
| WRun (job : Job)    (* has the job: job.Run(context.TODO()), then p.jobs.Done() *)
| WExit.              (* returned *)

#[global] Instance worker_eq_dec : EqDecision worker.
Proof. solve_decision. Defined.

(** Where a goroutine that called [SetMaxWorkers] or [Enqueue] stands
    once it is past the first part of the call. *)
Inductive caller :=
| CSpawn (i num : Z)  (* SetMaxWorkers, past p.lock.Unlock(): at the test
                         [i < num] of the loop that starts the workers *)
| CQueue (job : Job)  (* Enqueue, past p.jobs.Add(1): about to
                         p.queue.Enqueue(job) *)
| CReturned.

#[global] Instance caller_eq_dec : EqDecision caller.
Proof. solve_decision. Defined.

Record Pool := mkPool {
  MaxWorkers : Z;          (* options.MaxWorkers *)
  numWorkers : Z;
  queue      : list Job;   (* the unbounded FIFO behind Enqueue / DequeueChannel *)
  jobs       : Z;          (* the WaitGroup counter *)
  workers    : list worker;
  ran        : list Job;   (* the jobs run and marked Done, in that order *)
  callers    : list caller (* the goroutines inside SetMaxWorkers or Enqueue *)
}.

Definition spawn (n : Z) (ws : list worker) : list worker :=
  ws ++ replicate (Z.to_nat n) WLoop.

Definition NewPool (o_MaxWorkers : Z) : Pool :=
  let mw := if bool_decide (o_MaxWorkers <= 0) then DefaultMaxWorkers else o_MaxWorkers in
  {| MaxWorkers := mw; numWorkers := mw; queue := []; jobs := 0;
     workers := spawn mw []; ran := []; callers := [] |}.

Definition set_caller (c : nat) (st : caller) (p : Pool) : Pool :=
  {| MaxWorkers := MaxWorkers p; numWorkers := numWorkers p; queue := queue p;
     jobs := jobs p; workers := workers p; ran := ran p;
     callers := <[c := st]> (callers p) |}.

(** [SetMaxWorkers] up to [p.lock.Unlock()] (lines 53 to 60): under the
    lock [numWorkers] is read into [oldNum] and assigned; the caller
    goes on to the loop with [i = oldNum].  Only [numWorkers] is
    assigned: [options.MaxWorkers] keeps the value [NewPool] gave it. *)
Definition SetMaxWorkers_locked (num : Z) (p : Pool) : Pool :=
  let num := if bool_decide (num <= 0) then DefaultMaxWorkers else num in
  let oldNum := numWorkers p in
  {| MaxWorkers := MaxWorkers p; numWorkers := num; queue := queue p; jobs := jobs p;
     workers := workers p; ran := ran p;
     callers := callers p ++ [CSpawn oldNum num] |}.

(** The first statement of [Enqueue], [p.jobs.Add(1)]. *)
Definition Enqueue_Add (job : Job) (p : Pool) : Pool :=
  {| MaxWorkers := MaxWorkers p; numWorkers := numWorkers p; queue := queue p;
     jobs := jobs p + 1; workers := workers p; ran := ran p;
     callers := callers p ++ [CQueue job] |}.

(** The next step of caller [c]: one turn of
    [for i := oldNum; i < num; i++ { go p.runWorker() }], which starts
    one worker or leaves the loop, or [p.queue.Enqueue(job)].  The lock
    is not held in either. *)
Definition caller_step (c : nat) (p : Pool) : Pool :=
  match callers p !! c with
  | Some (CSpawn i num) =>
      if bool_decide (i < num)
      then set_caller c (CSpawn (i + 1) num)
             {| MaxWorkers := MaxWorkers p; numWorkers := numWorkers p; queue := queue p;
                jobs := jobs p; workers := workers p ++ [WLoop]; ran := ran p;
                callers := callers p |}
      else set_caller c CReturned p
  | Some (CQueue job) =>
      set_caller c CReturned
        {| MaxWorkers := MaxWorkers p; numWorkers := numWorkers p;
           queue := queue p ++ [job]; jobs := jobs p; workers := workers p;
           ran := ran p; callers := callers p |}
  | Some CReturned | None => p
  end.

(** A call of [SetMaxWorkers] that runs to its return with no other
    goroutine in between: the part under the lock, then the turns of the
    loop, [num - oldNum] that start a worker when that is positive, and
    the one that leaves it. *)
Definition SetMaxWorkers (num : Z) (p : Pool) : Pool :=
  let p' := SetMaxWorkers_locked num p in
  Nat.iter (S (Z.to_nat (numWorkers p' - numWorkers p)))
           (caller_step (length (callers p))) p'.

(** A call of [Enqueue] that runs to its return with no other goroutine
    in between. *)
Definition Enqueue (job : Job) (p : Pool) : Pool :=
  caller_step (length (callers p)) (Enqueue_Add job p).

(** [WaitUntilProcessed] returns once the WaitGroup counter is zero. *)
Definition WaitUntilProcessed_returns (p : Pool) : bool := bool_decide (jobs p = 0).

(** [numWorkers--] runs only above [options.MaxWorkers], so it does not
    leave the range of [int]. *)
Definition shouldWorkerStop (p : Pool) : bool * Pool :=
  if bool_decide (numWorkers p > MaxWorkers p)
  then (true, {| MaxWorkers := MaxWorkers p; numWorkers := numWorkers p - 1;
                 queue := queue p; jobs := jobs p; workers := workers p; ran := ran p;
                 callers := callers p |})
  else (false, p).

Definition set_worker (i : nat) (w : worker) (p : Pool) : Pool :=
  {| MaxWorkers := MaxWorkers p; numWorkers := numWorkers p; queue := queue p;
     jobs := jobs p; workers := <[i := w]> (workers p); ran := ran p;
     callers := callers p |}.

(** One step of worker [i] in [runWorker]; a worker blocked on an empty
    queue, or one that has returned, does not move. *)
Definition worker_step (i : nat) (p : Pool) : Pool :=
  match workers p !! i with
  | Some WLoop =>
      let '(stop, p') := shouldWorkerStop p in
      set_worker i (if stop then WExit else WRecv) p'
  | Some WRecv =>
      match queue p with
      | job :: rest =>
          set_worker i (WRun job)
            {| MaxWorkers := MaxWorkers p; numWorkers := numWorkers p; queue := rest;
               jobs := jobs p; workers := workers p; ran := ran p;
               callers := callers p |}
      | [] => p
      end
  | Some (WRun job) =>
      set_worker i WLoop
        {| MaxWorkers := MaxWorkers p; numWorkers := numWorkers p; queue := queue p;
           jobs := jobs p - 1; workers := workers p; ran := ran p ++ [job];
           callers := callers p |}
  | Some WExit | None => p
  end.

(** What the goroutines around a pool do, one step at a time.
    [ACallSetMaxWorkers] and [ACallEnqueue] are a goroutine entering the
    call and running its first part, [ACaller c] is the next step of the
    caller [c], and [AWorker i] the next step of worker [i];
    [ASetMaxWorkers] and [AEnqueue] are a whole call with no other
    goroutine in between, which is the first part followed by the steps
    of that caller. *)
Inductive action :=
| ASetMaxWorkers (num : Z)
| AEnqueue (job : Job)
| AWorker (i : nat)
| ACallSetMaxWorkers (num : Z)
| ACallEnqueue (job : Job)
| ACaller (c : nat).

Definition step (p : Pool) (a : action) : Pool :=
  match a with
  | ASetMaxWorkers num => SetMaxWorkers num p
  | AEnqueue job => Enqueue job p
  | AWorker i => worker_step i p
  | ACallSetMaxWorkers num => SetMaxWorkers_locked num p
  | ACallEnqueue job => Enqueue_Add job p
  | ACaller c => caller_step c p
  end.

Definition run (acts : list action) (p : Pool) : Pool := foldl step p acts.

Definition is_live (w : worker) : bool :=
  match w with WExit => false | _ => true end.

Definition b2n (b : bool) : nat := if b then 1%nat else 0%nat.

Definition count_live (ws : list worker) : nat :=
  length (filter (λ w, is_live w = true) ws).

(** The number of worker goroutines that have not returned. *)
Definition live (p : Pool) : nat := count_live (workers p).

(** The workers that the calls of [SetMaxWorkers] under way have still
    to start. *)
Definition to_spawn (c : caller) : Z :=
  match c with CSpawn i num => Z.max 0 (num - i) | _ => 0 end.

Definition to_spawn_all (cs : list caller) : Z :=
  foldr (λ c n, to_spawn c + n) 0 cs.

Definition spawning (p : Pool) : Z := to_spawn_all (callers p).

(** The live workers and those still to be started are together at least
    [options.MaxWorkers] and at least [numWorkers]. *)
Definition pool_inv (p : Pool) : Prop :=
  MaxWorkers p ≤ Z.of_nat (live p) + spawning p ∧
  numWorkers p ≤ Z.of_nat (live p) + spawning p.

(** The jobs the workers have taken and not yet marked [Done], the jobs
    of the calls of [Enqueue] that have counted their job and not yet
    queued it, and the jobs [Enqueue] was called with, in the order of
    the calls. *)
Definition running_job (w : worker) : option Job :=
  match w with WRun job => Some job | _ => None end.

Definition running (p : Pool) : list Job := omap running_job (workers p).

Definition adding_job (c : caller) : option Job :=
  match c with CQueue job => Some job | _ => None end.

Definition adding (p : Pool) : list Job := omap adding_job (callers p).

Definition enqueued (acts : list action) : list Job :=
  omap (λ a, match a with
             | AEnqueue job | ACallEnqueue job => Some job
             | _ => None
             end) acts.

(** What the pool keeps about its jobs: the WaitGroup counts the jobs
    that are being added, queued or run, and every job [Enqueue] was
    called with is in one place: run, running, queued or being added. *)
Definition jobs_inv (called : list Job) (p : Pool) : Prop :=
  jobs p = Z.of_nat (length (adding p) + length (queue p) + length (running p)) ∧
  called ≡ₚ ran p ++ running p ++ queue p ++ adding p.

(** What the pool keeps about its numbers, built from [NewPool(o)]. *)
Definition workers_inv (o : Z) (p : Pool) : Prop :=
  MaxWorkers p = (if bool_decide (o <= 0) then DefaultMaxWorkers else o) ∧
  1 ≤ numWorkers p.

End Async.

(* ===================================================================== *)
(** * common/goalstate: the goal-state engine                             *)
(* ===================================================================== *)

Module Goalstate.

Local Open Scope Z_scope.

(** An action is a function [(ctx, entity) → error] with effects on the
    world [W] around the engine; [true] stands for a non-nil error. *)
Definition Action (W E : Type) : Type := E → W → W * bool.

(** The capabilities of an entity. *)
Class Entity (W V E : Type) := {
  GetID : E → string;
  GetState : E → V;
  GetGoalState : E → V;
  GetActionList : E → V → V → list (Action W E)
}.

Section Engine.
Context {W V E : Type} `{Entity W V E}.

(** Modelled from the spec: the engine's entity-map item (the engine
    source is not among the sources, only its tests are).  The handle
    into the deadline queue is the entity id. *)
Record entityMapItem := mkItem {
  entity : E;
  delay  : Z      (* time.Duration *)
}.

(** Modelled from the spec: the engine, with its deadline queue as the
    map from the ids resident in the queue to their deadlines. *)
Record engine := mkEngine {
  queue             : gmap string Z;
  entityMap         : gmap string entityMapItem;
  failureRetryDelay : Z;
  maxRetryDelay     : Z
}.

(** Modelled from the spec: [Schedule] of the deadline queue inserts the
    id or, if it is resident, repositions it to the new deadline. *)
Definition Schedule (id : string) (deadline : Z) (q : gmap string Z) : gmap string Z :=
  <[id := deadline]> q.

(** Modelled from the spec: [Cancel] removes the id if present. *)
Definition Cancel (id : string) (q : gmap string Z) : gmap string Z := delete id q.

(** Modelled from the spec: the resident item with the earliest
    deadline, if that deadline has passed. *)
Definition earliest (q : gmap string Z) : option (string * Z) :=
  map_fold (λ id d acc,
              match acc with
              | Some (id', d') => if bool_decide (d < d') then Some (id, d) else acc
              | None => Some (id, d)
              end) None q.

Definition popDue (now : Z) (q : gmap string Z) : option (string * gmap string Z) :=
  match earliest q with
  | Some (id, d) => if bool_decide (d <= now) then Some (id, Cancel id q) else None
  | None => None
  end.

Definition with_queue (q : gmap string Z) (e : engine) : engine :=
  {| queue := q; entityMap := entityMap e;
     failureRetryDelay := failureRetryDelay e; maxRetryDelay := maxRetryDelay e |}.

Definition with_entityMap (m : gmap string entityMapItem) (e : engine) : engine :=
  {| queue := queue e; entityMap := m;
     failureRetryDelay := failureRetryDelay e; maxRetryDelay := maxRetryDelay e |}.

(** Modelled from the spec: [Enqueue] registers the entity if unknown
    and schedules it no later than [deadline]: an earlier deadline
    already in the queue is kept, a later one is tightened. *)
Definition Enqueue (ent : E) (deadline : Z) (e : engine) : engine :=
  let id := GetID ent in
  let m := match entityMap e !! id with
           | Some _ => entityMap e
           | None => <[id := mkItem ent 0]> (entityMap e)
           end in
  let q := match queue e !! id with
           | Some d => if bool_decide (d <= deadline) then queue e
                       else Schedule id deadline (queue e)
           | None => Schedule id deadline (queue e)
           end in
  with_queue q (with_entityMap m e).

(** Modelled from the spec: [IsScheduled] holds iff the entity is
    resident in the deadline queue. *)
Definition IsScheduled (ent : E) (e : engine) : bool :=
  bool_decide (is_Some (queue e !! GetID ent)).

(** Modelled from the spec: [Delete] removes the entity from the
    registry and from any scheduling. *)
Definition Delete (ent : E) (e : engine) : engine :=
  with_queue (Cancel (GetID ent) (queue e))
             (with_entityMap (delete (GetID ent) (entityMap e)) e).

(** Modelled from the spec: the actions run in sequence and stop at the
    first error. *)
Fixpoint execute (actions : list (Action W E)) (ent : E) (w : W) : W * bool :=
  match actions with
  | [] => (w, false)
  | a :: rest =>
      let '(w', err) := a ent w in
      if err then (w', true) else execute rest ent w'
  end.

(** Modelled from the spec: the delay after a failed run. *)
Definition backoff (e : engine) (d : Z) : Z :=
  Z.min (Z.max (d * 2) (failureRetryDelay e)) (maxRetryDelay e).

Definition setDelay (id : string) (d : Z) (e : engine) : engine :=
  with_entityMap (alter (λ it, mkItem (entity it) d) id (entityMap e)) e.

(** Modelled from the spec: the job the dispatcher hands to the worker
    pool for a popped item.  With no action the delay is reset and
    nothing is rescheduled; at the first error the delay is backed off
    and the entity rescheduled at [now + delay]; when all actions
    succeed the delay is reset. *)
Definition runActions (id : string) (now : Z) (e : engine) (w : W) : engine * W :=
  match entityMap e !! id with
  | None => (e, w)
  | Some item =>
      let ent := entity item in
      match GetActionList ent (GetState ent) (GetGoalState ent) with
      | [] => (setDelay id 0 e, w)
      | actions =>
          let '(w', failed) := execute actions ent w in
          if failed
          then let d := backoff e (delay item) in
               let e' := setDelay id d e in
               (with_queue (Schedule id (now + d) (queue e')) e', w')
          else (setDelay id 0 e, w')
      end
  end.

(** Modelled from the spec: one turn of the dispatcher at time [now]. *)
Definition processItem (now : Z) (e : engine) (w : W) : engine * W :=
  match popDue now (queue e) with
  | Some (id, q) => runActions id now (with_queue q e) w
  | None => (e, w)
  end.

Fixpoint processItems (times : list Z) (e : engine) (w : W) : engine * W :=
  match times with
  | [] => (e, w)
  | now :: rest => let '(e', w') := processItem now e w in processItems rest e' w'
  end.

End Engine.

Arguments entityMapItem : clear implicits.
Arguments engine : clear implicits.

(** ** The entities of the engine tests *)

(** [idList] and [failCount], the globals of the tests. *)
Record testWorld := mkWorld { idList : list string; failCount : Z }.

Record testEntity := newTestEntity {
  te_id : string; te_state : string; te_goalstate : string
}.

Definition testAction_id (te : testEntity) : string := te_id te.

Definition testAction : Action testWorld testEntity :=
  λ te w, (mkWorld (idList w ++ [testAction_id te]) (failCount w), false).

(** Fails thrice before succeeding. *)
Definition testActionFailure : Action testWorld testEntity :=
  λ te w,
    if bool_decide (failCount w < 3)
    then (mkWorld (idList w ++ [testAction_id te]) (failCount w + 1), true)
    else (mkWorld (idList w ++ [testAction_id te]) 0, false).

Definition stateValue : string := "init".
Definition goalStateValue : string := "success".
Definition stateValueMulti : string := "multi".
Definition goalStateValueFail : string := "fail".

Definition testGetActionList (state goalstate : string)
  : list (Action testWorld testEntity) :=
  if bool_decide (state = stateValue ∧ goalstate = goalStateValue) then [testAction]
  else if bool_decide (state = stateValue ∧ goalstate = goalStateValueFail)
       then [testActionFailure]
  else if bool_decide (state = stateValueMulti ∧ goalstate = goalStateValue)
       then [testAction; testActionFailure]
  else [].

#[global] Instance testEntity_Entity : Entity testWorld string testEntity := {
  GetID := te_id;
  GetState := te_state;
  GetGoalState := te_goalstate;
  GetActionList := λ _ s g, testGetActionList s g
}.

(** The engine of [TestEngineEnqueueDequeueFailure], in milliseconds. *)
Definition testEngine : engine testEntity :=
  {| queue := ∅; entityMap := ∅; failureRetryDelay := 100; maxRetryDelay := 200 |}.

Definition failing0 : testEntity := newTestEntity "0" stateValue goalStateValueFail.

End Goalstate.

(* ===================================================================== *)
(** * pkg/hostmgr/p2k/plugins/mesos: the Mesos plugin                     *)
(* ===================================================================== *)

Module Mesos.

Local Open Scope Z_scope.

Definition mesosTaskUpdateAckChanSize : nat := 1000.

Inductive error :=
| NoOfferFound (hostname : string)
    (* yarpcerrors.InternalErrorf("no offer found to launch pods on %s", hostname) *)
| Failure (what : string).   (* an error returned by a collaborator *)

(** ** Messages *)

Record Resource := mkResource { res_name : string; res_scalar : Z }.

(** A Mesos offer; a nil agent id is [None]. *)
Record Offer := mkOffer {
  Id        : string;          (* GetId().GetValue() *)
  Hostname  : string;
  AgentId   : option string;   (* GetAgentId() *)
  Resources : list Resource
}.

(** [pbpod.PodEvent] and the [scalar.PodEvent] around it. *)
Record pbPodEvent := mkPbPodEvent {
  pe_PodId       : string;
  pe_ActualState : string;
  pe_Timestamp   : string;
  pe_AgentId     : string;
  pe_Hostname    : string;
  pe_Message     : string;
  pe_Reason      : string;
  pe_Healthy     : string
}.

Inductive EventType := UpdatePod.

Record PodEvent := mkPodEvent {
  Event     : pbPodEvent;
  EventType_ : EventType;
  EventID   : string
}.

(** A task info as far as the plugin looks into it: the builder's output
    with the agent id the plugin assigns. *)
Record TaskInfo (TaskConfig : Type) := mkTaskInfo {
  ti_TaskId  : string;
  ti_AgentId : option string;
  ti_Config  : TaskConfig
}.
Arguments mkTaskInfo {_}.
Arguments ti_TaskId {_}.
Arguments ti_AgentId {_}.
Arguments ti_Config {_}.

(** [sched.Call], by type. *)
Inductive Call (TaskConfig : Type) :=
| Call_ACCEPT (FrameworkId : string) (OfferIds : list string)
              (Launches : list (list (TaskInfo TaskConfig)))
    (* Operations: one Offer_Operation of type LAUNCH per element *)
| Call_KILL (FrameworkId : string) (TaskId : string)
| Call_ACKNOWLEDGE (FrameworkId : string) (AgentId TaskId Uuid : string).
Arguments Call_ACCEPT {_}.
Arguments Call_KILL {_}.
Arguments Call_ACKNOWLEDGE {_}.

(** ** The offer manager *)

(** Modelled from the spec: the offer manager (its file is not among the
    sources): per host, the bucket of offers by offer id. *)
Record offerManager := mkOfferManager {
  buckets       : gmap string (gmap string Offer);
  offerHoldTime : Z
}.

Definition newOfferManager (holdTime : Z) : offerManager :=
  {| buckets := ∅; offerHoldTime := holdTime |}.

(** Modelled from the spec: [GetOffers] returns the current mapping for
    a host. *)
Definition GetOffers (hostname : string) (om : offerManager) : gmap string Offer :=
  default ∅ (buckets om !! hostname).

(** Modelled from the spec: [RemoveOfferForHost] removes the entire
    bucket. *)
Definition RemoveOfferForHost (hostname : string) (om : offerManager) : offerManager :=
  {| buckets := delete hostname (buckets om); offerHoldTime := offerHoldTime om |}.

(** Modelled from the spec: [AddOffers] files each offer under its host
    and its id, a later offer with the same id winning. *)
Definition AddOffer (om : offerManager) (o : Offer) : offerManager :=
  {| buckets := <[Hostname o := <[Id o := o]> (GetOffers (Hostname o) om)]> (buckets om);
     offerHoldTime := offerHoldTime om |}.

Definition AddOffers (offers : list Offer) (om : offerManager) : offerManager :=
  foldl AddOffer om offers.

(** Modelled from the spec: [Clear] drops all state. *)
Definition Clear (om : offerManager) : offerManager :=
  {| buckets := ∅; offerHoldTime := offerHoldTime om |}.

(** ** The manager *)

Record metrics := mkMetrics {
  LaunchPod           : Z;
  LaunchPodFail       : Z;
  KillPod             : Z;
  KillPodFail         : Z;
  TaskUpdateCounter   : Z;
  TaskUpdateAck       : Z;
  TaskUpdateAckDeDupe : Z
}.

Definition newMetrics : metrics := mkMetrics 0 0 0 0 0 0 0.

(** Where an ack worker stands in [ackPodEventWorker]. *)
Inductive ackWorker :=
| AwRecv                   (* for pe := range m.ackChannel; an empty pe.EventID: continue *)
| AwLoad (pe : PodEvent)   (* m.ackStatusMap.Load(pe.EventID) *)
| AwStore (pe : PodEvent)  (* m.ackStatusMap.Store(pe.EventID, struct{}{}) *)
| AwCall (pe : PodEvent)   (* acknowledgeTaskUpdate: the ACKNOWLEDGE call is sent *)
| AwInFlight (pe : PodEvent)   (* ... and returns; a failure is only logged *)
| AwDelete (pe : PodEvent).    (* m.ackStatusMap.Delete(pe.EventID) *)

Section Manager.
Context {TaskConfig : Type}.

Record MesosManager := mkManager {
  offers_              : offerManager;             (* offerManager *)
  updateAckConcurrency : Z;
  ackChannel           : list PodEvent;            (* capacity mesosTaskUpdateAckChanSize *)
  ackStatusMap         : gset string;
  metrics_             : metrics;
  podEventCh           : list PodEvent;            (* what was sent up stream *)
  sent                 : list (Call TaskConfig);   (* what schedulerClient.Call was given *)
  ackWorkers           : list ackWorker
}.

(** [NewMesosManager]: the struct literal names neither
    [updateAckConcurrency] nor [ackStatusMap], which keep their zero
    values. *)
Definition NewMesosManager (offerHoldTime : Z) : MesosManager :=
  {| offers_ := newOfferManager offerHoldTime;
     updateAckConcurrency := 0;
     ackChannel := [];
     ackStatusMap := ∅;
     metrics_ := newMetrics;
     podEventCh := [];
     sent := [];
     ackWorkers := [] |}.

Definition with_offers (om : offerManager) (m : MesosManager) : MesosManager :=
  mkManager om (updateAckConcurrency m) (ackChannel m) (ackStatusMap m) (metrics_ m)
            (podEventCh m) (sent m) (ackWorkers m).
Definition with_ackChannel (ch : list PodEvent) (m : MesosManager) : MesosManager :=
  mkManager (offers_ m) (updateAckConcurrency m) ch (ackStatusMap m) (metrics_ m)
            (podEventCh m) (sent m) (ackWorkers m).
Definition with_ackStatusMap (st : gset string) (m : MesosManager) : MesosManager :=
  mkManager (offers_ m) (updateAckConcurrency m) (ackChannel m) st (metrics_ m)
            (podEventCh m) (sent m) (ackWorkers m).
Definition with_metrics (mt : metrics) (m : MesosManager) : MesosManager :=
  mkManager (offers_ m) (updateAckConcurrency m) (ackChannel m) (ackStatusMap m) mt
            (podEventCh m) (sent m) (ackWorkers m).
Definition with_podEventCh (ch : list PodEvent) (m : MesosManager) : MesosManager :=
  mkManager (offers_ m) (updateAckConcurrency m) (ackChannel m) (ackStatusMap m) (metrics_ m)
            ch (sent m) (ackWorkers m).
Definition with_sent (cs : list (Call TaskConfig)) (m : MesosManager) : MesosManager :=
  mkManager (offers_ m) (updateAckConcurrency m) (ackChannel m) (ackStatusMap m) (metrics_ m)
            (podEventCh m) cs (ackWorkers m).
Definition with_ackWorkers (ws : list ackWorker) (m : MesosManager) : MesosManager :=
  mkManager (offers_ m) (updateAckConcurrency m) (ackChannel m) (ackStatusMap m) (metrics_ m)
            (podEventCh m) (sent m) ws.

(** *** Acknowledgements *)

(** [AckPodEvent]: [m.ackChannel <- event].  On a full channel the
    sender blocks: the event is not in the channel and [None] is
    returned for "has not returned". *)
Definition AckPodEvent (event : PodEvent) (m : MesosManager) : option MesosManager :=
  if bool_decide (length (ackChannel m) < mesosTaskUpdateAckChanSize)%nat
  then Some (with_ackChannel (ackChannel m ++ [event]) m)
  else None.

(** [startAsyncProcessTaskUpdates]:
    [for i := 0; i < m.updateAckConcurrency; i++ { go m.ackPodEventWorker() }]. *)
Definition startAsyncProcessTaskUpdates (m : MesosManager) : MesosManager :=
  with_ackWorkers (ackWorkers m ++ replicate (Z.to_nat (updateAckConcurrency m)) AwRecv) m.

(** [Start]: the registration of the procedures and the agent syncer
    are outside this model. *)
Definition Start (m : MesosManager) : MesosManager := startAsyncProcessTaskUpdates m.

(** [Stop]: the agent syncer is outside this model. *)
Definition Stop (m : MesosManager) : MesosManager := with_offers (Clear (offers_ m)) m.

(** The driver that [acknowledgeTaskUpdate] asks for the framework id. *)
Variable driverFrameworkID : string.

Definition acknowledgeCall (e : PodEvent) : Call TaskConfig :=
  Call_ACKNOWLEDGE driverFrameworkID (pe_AgentId (Event e)) (pe_PodId (Event e)) (EventID e).

Definition inc_TaskUpdateAck (mt : metrics) : metrics :=
  mkMetrics (LaunchPod mt) (LaunchPodFail mt) (KillPod mt) (KillPodFail mt)
            (TaskUpdateCounter mt) (TaskUpdateAck mt + 1) (TaskUpdateAckDeDupe mt).
Definition inc_TaskUpdateAckDeDupe (mt : metrics) : metrics :=
  mkMetrics (LaunchPod mt) (LaunchPodFail mt) (KillPod mt) (KillPodFail mt)
            (TaskUpdateCounter mt) (TaskUpdateAck mt) (TaskUpdateAckDeDupe mt + 1).
Definition inc_TaskUpdateCounter (mt : metrics) : metrics :=
  mkMetrics (LaunchPod mt) (LaunchPodFail mt) (KillPod mt) (KillPodFail mt)
            (TaskUpdateCounter mt + 1) (TaskUpdateAck mt) (TaskUpdateAckDeDupe mt).
Definition inc_LaunchPod (mt : metrics) : metrics :=
  mkMetrics (LaunchPod mt + 1) (LaunchPodFail mt) (KillPod mt) (KillPodFail mt)
            (TaskUpdateCounter mt) (TaskUpdateAck mt) (TaskUpdateAckDeDupe mt).
Definition inc_LaunchPodFail (mt : metrics) : metrics :=
  mkMetrics (LaunchPod mt) (LaunchPodFail mt + 1) (KillPod mt) (KillPodFail mt)
            (TaskUpdateCounter mt) (TaskUpdateAck mt) (TaskUpdateAckDeDupe mt).

(** One step of one ack worker.  The operations of the [sync.Map] and
    the call are separate steps: other workers may run between them.
    A worker at [AwRecv] with an empty channel is blocked. *)
Definition ack_step (w : ackWorker) (m : MesosManager) : ackWorker * MesosManager :=
  match w with
  | AwRecv =>
      match ackChannel m with
      | [] => (AwRecv, m)
      | pe :: rest =>
          let m' := with_ackChannel rest m in
          if bool_decide (EventID pe = EmptyString) then (AwRecv, m') else (AwLoad pe, m')
      end
  | AwLoad pe =>
      if bool_decide (EventID pe ∈ ackStatusMap m)
      then (AwRecv, with_metrics (inc_TaskUpdateAckDeDupe (metrics_ m)) m)
      else (AwStore pe, m)
  | AwStore pe => (AwCall pe, with_ackStatusMap ({[EventID pe]} ∪ ackStatusMap m) m)
  | AwCall pe =>
      (AwInFlight pe,
       with_sent (sent m ++ [acknowledgeCall pe])
                 (with_metrics (inc_TaskUpdateAck (metrics_ m)) m))
  | AwInFlight pe => (AwDelete pe, m)
  | AwDelete pe => (AwRecv, with_ackStatusMap (ackStatusMap m ∖ {[EventID pe]}) m)
  end.

Definition worker_step (i : nat) (m : MesosManager) : MesosManager :=
  match ackWorkers m !! i with
  | Some w => let '(w', m') := ack_step w m in
              with_ackWorkers (<[i := w']> (ackWorkers m')) m'
  | None => m
  end.

Inductive action :=
| AStart
| AAckPodEvent (event : PodEvent)
| AWorker (i : nat).

Definition step (m : MesosManager) (a : action) : MesosManager :=
  match a with
  | AStart => Start m
  | AAckPodEvent event => default m (AckPodEvent event m)
  | AWorker i => worker_step i m
  end.

Definition run (acts : list action) (m : MesosManager) : MesosManager := foldl step m acts.

(** The events [AckPodEvent] was called with, in order. *)
Definition pushed (acts : list action) : list PodEvent :=
  omap (λ a, match a with AAckPodEvent event => Some event | _ => None end) acts.

(** The workers whose ACKNOWLEDGE call for [id] is in flight. *)
Definition isInFlight (id : string) (w : ackWorker) : bool :=
  match w with AwInFlight pe => bool_decide (EventID pe = id) | _ => false end.

Definition inFlight (id : string) (m : MesosManager) : list ackWorker :=
  filter (λ w, isInFlight id w = true) (ackWorkers m).

End Manager.

Arguments MesosManager : clear implicits.

(** ** Launching pods *)

Section Launch.
Context {PodSpec TaskConfig Builder : Type}.

Record LaunchablePod := mkPod { PodId : string; Spec : PodSpec }.

(** [hostsvc.LaunchableTask]. *)
Record LaunchableTask := mkLaunchableTask {
  lt_TaskId : string;
  lt_Config : TaskConfig;
  lt_Id     : string
}.

(** What [LaunchPods] calls outside the plugin.  [rangeOffers] is the
    order in which [for _, offer := range offers] visits the map: some
    enumeration of its entries. *)
Record collaborators := mkCollaborators {
  ConvertPodSpecToTaskConfig : PodSpec → error + TaskConfig;
  GetPodName     : PodSpec → string;
  NewBuilder     : list Resource → Builder;                       (* task.NewBuilder *)
  Build          : Builder → LaunchableTask → (error + TaskInfo TaskConfig) * Builder;
  GetFrameworkID : string;
  schedulerCall  : Call TaskConfig → option error;                (* schedulerClient.Call *)
  rangeOffers    : gmap string Offer → list (string * Offer);
  rangeOffers_perm : ∀ m, rangeOffers m ≡ₚ map_to_list m
}.

Variable c : collaborators.

Definition convertPodSpecToLaunchableTask (id : string) (spec : PodSpec)
  : error + LaunchableTask :=
  match ConvertPodSpecToTaskConfig c spec with
  | inl err => inl err
  | inr config => inr (mkLaunchableTask id config (GetPodName c spec))
  end.

(** The loop over the pods: the first failing conversion or build ends
    it with that error; every built task is given [agentID]. *)
Fixpoint buildTasks (builder : Builder) (agentID : option string) (pods : list LaunchablePod)
  : error + list (TaskInfo TaskConfig) :=
  match pods with
  | [] => inr []
  | pod :: rest =>
      match convertPodSpecToLaunchableTask (PodId pod) (Spec pod) with
      | inl err => inl err
      | inr launchableTask =>
          match Build c builder launchableTask with
          | (inl err, _) => inl err
          | (inr mesosTask, builder') =>
              let mesosTask := mkTaskInfo (ti_TaskId mesosTask) agentID (ti_Config mesosTask) in
              match buildTasks builder' agentID rest with
              | inl err => inl err
              | inr mesosTasks => inr (mesosTask :: mesosTasks)
              end
          end
      end
  end.

Definition LaunchPods (pods : list LaunchablePod) (hostname : string)
    (m : MesosManager TaskConfig)
  : (error + list LaunchablePod) * MesosManager TaskConfig :=
  let offers := GetOffers hostname (offers_ m) in
  let visited := (rangeOffers c offers).*2 in
  let offerIds := Id <$> visited in
  let mesosResources := visited ≫= Resources in
  match offerIds with
  | [] => (inl (NoOfferFound hostname), m)
  | first :: _ =>
      let builder := NewBuilder c mesosResources in
      (* assume only one agent on a host *)
      let agentID := offers !! first ≫= AgentId in
      match buildTasks builder agentID pods with
      | inl err => (inl err, m)
      | inr mesosTasks =>
          let msg := Call_ACCEPT (GetFrameworkID c) offerIds [mesosTasks] in
          let m' := with_sent (sent m ++ [msg]) m in
          match schedulerCall c msg with
          | Some err => (inl err, with_metrics (inc_LaunchPodFail (metrics_ m')) m')
          | None =>
              (inr pods,
               with_metrics (inc_LaunchPod (metrics_ m'))
                 (with_offers (RemoveOfferForHost hostname (offers_ m')) m'))
          end
      end
  end.

End Launch.

Arguments LaunchablePod : clear implicits.
Arguments LaunchableTask : clear implicits.
Arguments collaborators : clear implicits.

(** ** Status updates *)

(** Modelled from the spec: the two health states a pod event carries
    ([pod.proto] is not among the sources); [String] is the name of the
    enum value. *)
Inductive HealthState := HEALTH_STATE_HEALTHY | HEALTH_STATE_UNHEALTHY.

Definition HealthState_String (h : HealthState) : string :=
  match h with
  | HEALTH_STATE_HEALTHY => "HEALTH_STATE_HEALTHY"
  | HEALTH_STATE_UNHEALTHY => "HEALTH_STATE_UNHEALTHY"
  end.

Section Update.
Context {TaskConfig MState Reason Timestamp : Type}.

(** [mesos.TaskStatus]; an unset optional field is [None] and its getter
    returns the zero value. *)
Record TaskStatus := mkTaskStatus {
  ts_TaskId    : option string;
  ts_State     : option MState;
  ts_Message   : option string;
  ts_Reason    : option Reason;
  ts_AgentId   : option string;
  ts_Timestamp : option Timestamp;
  ts_Uuid      : string;
  ts_Healthy   : option bool
}.

Record Event_Update := mkEventUpdate { Status : option TaskStatus }.

(** The conversions of [util] and [api] the builder of the pod event
    calls, and the zero values of the types they read. *)
Record codecs := mkCodecs {
  zeroState     : MState;
  zeroReason    : Reason;
  zeroTimestamp : Timestamp;
  PodStateOf    : MState → string;
      (* api.ConvertTaskStateToPodState(util.MesosStateToPelotonState(s)).String() *)
  Reason_String : Reason → string;
  FormatTime    : Timestamp → string        (* util.FormatTime(t, time.RFC3339Nano) *)
}.

Variable k : codecs.

Definition GetTaskId (evt : Event_Update) : string :=
  default EmptyString (Status evt ≫= ts_TaskId).
Definition GetState (evt : Event_Update) : MState :=
  default (zeroState k) (Status evt ≫= ts_State).
Definition GetMessage (evt : Event_Update) : string :=
  default EmptyString (Status evt ≫= ts_Message).
Definition GetReason (evt : Event_Update) : Reason :=
  default (zeroReason k) (Status evt ≫= ts_Reason).
Definition GetAgentId (evt : Event_Update) : string :=
  default EmptyString (Status evt ≫= ts_AgentId).
Definition GetTimestamp (evt : Event_Update) : Timestamp :=
  default (zeroTimestamp k) (Status evt ≫= ts_Timestamp).
Definition GetUuid (evt : Event_Update) : string := default EmptyString (ts_Uuid <$> Status evt).
Definition GetHealthy (evt : Event_Update) : bool := default false (Status evt ≫= ts_Healthy).

Definition buildPodEventFromMesosTaskStatus (evt : Event_Update) : PodEvent :=
  let healthy :=
    if GetHealthy evt then HealthState_String HEALTH_STATE_HEALTHY
    else HealthState_String HEALTH_STATE_UNHEALTHY in
  {| Event := {| pe_PodId := GetTaskId evt;
                 pe_ActualState := PodStateOf k (GetState evt);
                 pe_Timestamp := FormatTime k (GetTimestamp evt);
                 pe_AgentId := GetAgentId evt;
                 pe_Hostname := GetAgentId evt;
                 pe_Message := GetMessage evt;
                 pe_Reason := Reason_String k (GetReason evt);
                 pe_Healthy := healthy |};
     EventType_ := UpdatePod;
     EventID := GetUuid evt |}.

(** [Update]: the pod event goes up stream and the update is counted
    (the per-state counter of the metrics scope is left out). *)
Definition Update (evt : Event_Update) (m : MesosManager TaskConfig) : MesosManager TaskConfig :=
  with_metrics (inc_TaskUpdateCounter (metrics_ m))
    (with_podEventCh (podEventCh m ++ [buildPodEventFromMesosTaskStatus evt]) m).

End Update.

Arguments TaskStatus : clear implicits.
Arguments Event_Update : clear implicits.
Arguments codecs : clear implicits.

(** ** Concrete collaborators and managers *)

(** A pod spec is its pod name and a task config is a string; the spec
    named [bad] does not convert; the builder accepts every task; the
    scheduler client accepts every call. *)
Definition plainCollaborators : collaborators string string (list Resource) :=
  {| ConvertPodSpecToTaskConfig :=
       λ spec, if bool_decide (spec = "bad") then inl (Failure "invalid pod spec")
               else inr spec;
     GetPodName := λ spec, spec;
     NewBuilder := λ rs, rs;
     Build := λ b lt, (inr (mkTaskInfo (lt_TaskId lt) None (lt_Config lt)), b);
     GetFrameworkID := "framework";
     schedulerCall := λ _, None;
     rangeOffers := map_to_list;
     rangeOffers_perm := λ m, Permutation_refl (map_to_list m) |}.

Definition offer1 : Offer := mkOffer "o1" "host1" (Some "agent1") [mkResource "cpus" 4].
Definition offer2 : Offer := mkOffer "o2" "host1" (Some "agent1") [mkResource "mem" 8].

(** A manager holding two offers of [host1]. *)
Definition managerWithOffers : MesosManager string :=
  with_offers (AddOffers [offer1; offer2] (newOfferManager 60)) (NewMesosManager 60).

(** A manager as a test in the package would build it, with two ack
    workers. *)
Definition managerWithTwoAckWorkers : MesosManager string :=
  mkManager (newOfferManager 60) 2 [] ∅ newMetrics [] [] [].

(** A status update event acknowledged twice, as when the cluster
    manager resends it. *)
Definition updateEvent : PodEvent :=
  mkPodEvent (mkPbPodEvent "pod-1" "POD_STATE_RUNNING" "t" "agent1" "agent1"
                           "started" "REASON" "HEALTH_STATE_HEALTHY")
             UpdatePod "uuid-1".

Definition plainCodecs : codecs string string Z :=
  {| zeroState := "TASK_STAGING"; zeroReason := "REASON_NONE"; zeroTimestamp := 0%Z;
     PodStateOf := λ s, s; Reason_String := λ r, r; FormatTime := λ _, "1970-01-01T00:00:00Z" |}.

(** ** Killing pods *)

Definition inc_KillPod (mt : metrics) : metrics :=
  mkMetrics (LaunchPod mt) (LaunchPodFail mt) (KillPod mt + 1) (KillPodFail mt)
            (TaskUpdateCounter mt) (TaskUpdateAck mt) (TaskUpdateAckDeDupe mt).
Definition inc_KillPodFail (mt : metrics) : metrics :=
  mkMetrics (LaunchPod mt) (LaunchPodFail mt) (KillPod mt) (KillPodFail mt + 1)
            (TaskUpdateCounter mt) (TaskUpdateAck mt) (TaskUpdateAckDeDupe mt).

Section Plugin.
Context {PodSpec TaskConfig Builder MState Reason Timestamp : Type}.
Variable c : collaborators PodSpec TaskConfig Builder.
Variable k : codecs MState Reason Timestamp.
Variable driverFrameworkID : string.

(** [MesosManager.KillPod] (the name [KillPod] is the counter of the
    metrics): one KILL call for the pod; its outcome is counted and
    returned. *)
Definition KillPod_ (podID : string) (m : MesosManager TaskConfig)
  : option error * MesosManager TaskConfig :=
  let msg := Call_KILL (GetFrameworkID c) podID in
  let m' := with_sent (sent m ++ [msg]) m in
  match schedulerCall c msg with
  | Some err => (Some err, with_metrics (inc_KillPodFail (metrics_ m')) m')
  | None => (None, with_metrics (inc_KillPod (metrics_ m')) m')
  end.

(** What can be asked of the plugin, and what happens inside it. *)
Inductive request :=
| ReqLaunchPods (pods : list (LaunchablePod PodSpec)) (hostname : string)
| ReqKillPod (podID : string)
| ReqUpdate (evt : Event_Update MState Reason Timestamp)
| ReqAckPodEvent (event : PodEvent)
| ReqStart
| ReqStop
| ReqWorker (i : nat).

Definition serve (m : MesosManager TaskConfig) (r : request) : MesosManager TaskConfig :=
  match r with
  | ReqLaunchPods pods hostname => (LaunchPods c pods hostname m).2
  | ReqKillPod podID => (KillPod_ podID m).2
  | ReqUpdate evt => Update k evt m
  | ReqAckPodEvent event => default m (AckPodEvent event m)
  | ReqStart => Start m
  | ReqStop => Stop m
  | ReqWorker i => worker_step driverFrameworkID i m
  end.

Definition serve_all (rs : list request) (m : MesosManager TaskConfig)
  : MesosManager TaskConfig := foldl serve m rs.

End Plugin.

Arguments request : clear implicits.

(** Counting the calls of a type among those sent. *)
Definition is_ACCEPT {T} (msg : Call T) : bool :=
  match msg with Call_ACCEPT _ _ _ => true | _ => false end.
Definition is_KILL {T} (msg : Call T) : bool :=
  match msg with Call_KILL _ _ => true | _ => false end.
Definition is_ACKNOWLEDGE {T} (msg : Call T) : bool :=
  match msg with Call_ACKNOWLEDGE _ _ _ _ => true | _ => false end.

Definition count_calls {T} (which : Call T → bool) (msgs : list (Call T)) : Z :=
  Z.of_nat (length (filter (λ msg, which msg = true) msgs)).

(** The event of a worker that has received it and has not yet sent its
    acknowledgement. *)
Definition before_call (w : ackWorker) : option PodEvent :=
  match w with
  | AwLoad pe | AwStore pe | AwCall pe => Some pe
  | _ => None
  end.

(** A manager with [n] as its [updateAckConcurrency], as a test in the
    package would build it. *)
Definition managerWithAckWorkers {T} (n holdTime : Z) : MesosManager T :=
  mkManager (newOfferManager holdTime) n [] ∅ newMetrics [] [] [].




(** What the counters of the metrics have counted beyond what was sent:
    launches beyond ACCEPT calls, kills beyond KILL calls, acks beyond
    ACKNOWLEDGE calls, updates beyond pod events sent up stream. *)
Definition unaccounted {T} (m : MesosManager T) : Z * Z * Z * Z :=
  (LaunchPod (metrics_ m) + LaunchPodFail (metrics_ m) - count_calls is_ACCEPT (sent m),
   KillPod (metrics_ m) + KillPodFail (metrics_ m) - count_calls is_KILL (sent m),
   TaskUpdateAck (metrics_ m) - count_calls is_ACKNOWLEDGE (sent m),
   TaskUpdateCounter (metrics_ m) - Z.of_nat (length (podEventCh m))).

(** The events the ack workers hold before their call is sent. *)
Definition held {T} (m : MesosManager T) : list PodEvent :=
  omap before_call (ackWorkers m).

(** The events with an event id. *)
Definition with_id (events : list PodEvent) : list PodEvent :=
  filter (λ pe, EventID pe ≠ EmptyString) events.

(** What every schedule of the ack workers keeps: the events the workers
    hold have an id, and the calls sent, together with the
    acknowledgements still to come for the held and the buffered events,
    are covered by the events pushed. *)
Definition ack_inv {T} (driverFrameworkID : string) (acts : list action)
    (m : MesosManager T) : Prop :=
  Forall (λ pe, EventID pe ≠ EmptyString) (held m) ∧
  sent m ++ (acknowledgeCall driverFrameworkID <$> (held m ++ with_id (ackChannel m)))
    ⊆+ acknowledgeCall driverFrameworkID <$> with_id (pushed acts).

End Mesos.

(* ===================================================================== *)
(** * hostmgr/util: helpers of the host manager                           *)
(* ===================================================================== *)

Module Util.

(** ** Strings *)

(** Go's [strings.ToUpper] and [strings.ToLower] on strings of ASCII
    characters, where they map byte by byte; strings with other bytes
    are outside this model, and the theorems ask for [isASCII]. *)
Definition isASCII_byte (c : ascii) : bool := bool_decide (nat_of_ascii c < 128).

Definition upper_byte (c : ascii) : ascii :=
  let n := nat_of_ascii c in
  if bool_decide (97 ≤ n ≤ 122) then ascii_of_nat (n - 32) else c.

Definition lower_byte (c : ascii) : ascii :=
  let n := nat_of_ascii c in
  if bool_decide (65 ≤ n ≤ 90) then ascii_of_nat (n + 32) else c.

Fixpoint isASCII (s : string) : bool :=
  match s with
  | EmptyString => true
  | String c s' => isASCII_byte c && isASCII s'
  end.

Fixpoint ToUpper (s : string) : string :=
  match s with
  | EmptyString => EmptyString
  | String c s' => String (upper_byte c) (ToUpper s')
  end.

Fixpoint ToLower (s : string) : string :=
  match s with
  | EmptyString => EmptyString
  | String c s' => String (lower_byte c) (ToLower s')
  end.

(** [strings.Replace(s, old, new, 1)] for [old] and [new] of one byte:
    the first [old] becomes [new]. *)
Fixpoint ReplaceFirst (old new : ascii) (s : string) : string :=
  match s with
  | EmptyString => EmptyString
  | String c s' =>
      if decide (c = old) then String new s' else String c (ReplaceFirst old new s')
  end.

Fixpoint has_byte (b : ascii) (s : string) : bool :=
  match s with
  | EmptyString => false
  | String c s' => bool_decide (c = b) || has_byte b s'
  end.

Definition dot : ascii := "."%char.
Definition underscore : ascii := "_"%char.

Definition LabelKeyToEnvVarName (labelKey : string) : string :=
  ToUpper (ReplaceFirst dot underscore labelKey).

Fixpoint IsSlackResourceType (resourceType : string) (slackResourceTypes : list string)
  : bool :=
  match slackResourceTypes with
  | [] => false
  | rType :: rest =>
      if decide (ToLower rType = ToLower resourceType) then true
      else IsSlackResourceType resourceType rest
  end.

(** ** Offers by host *)

Section HostOffers.
Context {Resource Attribute : Type}.

(** A Mesos offer as far as [MesosOffersToHostOffers] reads it. *)
Record Offer := mkOffer {
  AgentId    : option string;
  Resources  : list Resource;
  Attributes : list Attribute
}.

Record HostOffer := mkHostOffer {
  ho_Hostname   : string;
  ho_AgentId    : option string;
  ho_Attributes : list Attribute;
  ho_Resources  : list Resource
}.

(** The body of the loop for one entry of the map: nothing for an empty
    slice of offers. *)
Definition hostOfferOf (entry : string * list Offer) : option HostOffer :=
  match entry.2 with
  | [] => None
  | first :: _ =>
      Some {| ho_Hostname := entry.1;
              ho_AgentId := AgentId first;
              ho_Attributes := entry.2 ≫= Attributes;
              ho_Resources := entry.2 ≫= Resources |}
  end.

(** [MesosOffersToHostOffers], over the entries of the map in the order
    [range hostoffers] visits them. *)
Definition MesosOffersToHostOffers (visited : list (string * list Offer)) : list HostOffer :=
  omap hostOfferOf visited.

End HostOffers.

Arguments Offer : clear implicits.
Arguments HostOffer : clear implicits.

(** Two hosts, the second with an empty slice of offers. *)
Definition twoHosts : gmap string (list (Offer string string)) :=
  {[ "host1" := [mkOffer (Some "agent1") ["cpus:4"] ["rack:a"];
                 mkOffer (Some "agent1") ["mem:8"] []];
     "host2" := [] ]}.

End Util.

(* ===================================================================== *)
(** * jobmgr/goalstate: the job runtime updater                           *)
(* ===================================================================== *)

Module JobRuntime.

Local Open Scope Z_scope.

(** The task states the file names, and [String] of each as the
    generated code prints it. *)
Inductive TaskState :=
  | TaskState_UNKNOWN | TaskState_INITIALIZED | TaskState_PENDING
  | TaskState_READY | TaskState_PLACING | TaskState_PLACED
  | TaskState_LAUNCHING | TaskState_LAUNCHED | TaskState_STARTING
  | TaskState_RUNNING | TaskState_SUCCEEDED | TaskState_FAILED
  | TaskState_LOST | TaskState_PREEMPTING | TaskState_KILLING
  | TaskState_KILLED.

#[global] Instance TaskState_eq_dec : EqDecision TaskState.
Proof. solve_decision. Defined.

Definition TaskState_String (state : TaskState) : string :=
  match state with
  | TaskState_UNKNOWN => "UNKNOWN"
  | TaskState_INITIALIZED => "INITIALIZED"
  | TaskState_PENDING => "PENDING"
  | TaskState_READY => "READY"
  | TaskState_PLACING => "PLACING"
  | TaskState_PLACED => "PLACED"
  | TaskState_LAUNCHING => "LAUNCHING"
  | TaskState_LAUNCHED => "LAUNCHED"
  | TaskState_STARTING => "STARTING"
  | TaskState_RUNNING => "RUNNING"
  | TaskState_SUCCEEDED => "SUCCEEDED"
  | TaskState_FAILED => "FAILED"
  | TaskState_LOST => "LOST"
  | TaskState_PREEMPTING => "PREEMPTING"
  | TaskState_KILLING => "KILLING"
  | TaskState_KILLED => "KILLED"
  end.

Definition taskStatesScheduled : list TaskState :=
  [TaskState_RUNNING; TaskState_PENDING; TaskState_LAUNCHED;
   TaskState_READY; TaskState_PLACING; TaskState_PLACED;
   TaskState_LAUNCHING; TaskState_STARTING; TaskState_PREEMPTING;
   TaskState_KILLING].

(** The job states the file names. *)
Inductive JobState :=
  | JobState_UNKNOWN | JobState_INITIALIZED | JobState_PENDING
  | JobState_RUNNING | JobState_SUCCEEDED | JobState_FAILED
  | JobState_KILLED | JobState_KILLING.

#[global] Instance JobState_eq_dec : EqDecision JobState.
Proof. solve_decision. Defined.

(** The job types the file tells apart; [JobType_other] is any type that
    is neither. *)
Inductive JobType := JobType_BATCH | JobType_SERVICE | JobType_other.

#[global] Instance JobType_eq_dec : EqDecision JobType.
Proof. solve_decision. Defined.

(** [uint32] arithmetic wraps around. *)
Definition uint32 (n : Z) : Z := n mod 2 ^ 32.

(** [stateCounts[state]]: 0 for a state that is not a key. *)
Definition count (stateCounts : gmap string Z) (state : string) : Z :=
  default 0 (stateCounts !! state).

(** The values of a [map[string]uint32] are in the range of [uint32]. *)
Definition uint32_counts (stateCounts : gmap string Z) : Prop :=
  map_Forall (λ _ n, 0 ≤ n < 2 ^ 32) stateCounts.

(** The sum of the counts of [states] as a number, without wrap-around. *)
Definition sumCounts (stateCounts : gmap string Z) (states : list string) : Z :=
  foldr (λ state total, count stateCounts state + total) 0 states.

(** What the functions read of [job.RuntimeInfo]; [HasUpdate] is the
    answer of [updateutil.HasUpdate(jobRuntime)]. *)
Record job_RuntimeInfo := mkJobRuntime {
  State     : JobState;
  GoalState : JobState;
  TaskStats : gmap string Z;
  HasUpdate : bool
}.

Record jobMetrics := mkJobMetrics {
  JobRuntimeUpdateFailed           : Z;
  JobMaxRunningInstancesExcceeding : Z;
  JobRecalculateStateCount         : Z;
  JobSucceeded                     : Z;
  JobFailed                        : Z;
  JobKilled                        : Z
}.

Definition inc_JobRuntimeUpdateFailed (mtx : jobMetrics) : jobMetrics :=
  mkJobMetrics (JobRuntimeUpdateFailed mtx + 1) (JobMaxRunningInstancesExcceeding mtx)
    (JobRecalculateStateCount mtx) (JobSucceeded mtx) (JobFailed mtx) (JobKilled mtx).
Definition inc_JobMaxRunningInstancesExcceeding (n : Z) (mtx : jobMetrics) : jobMetrics :=
  mkJobMetrics (JobRuntimeUpdateFailed mtx) (JobMaxRunningInstancesExcceeding mtx + n)
    (JobRecalculateStateCount mtx) (JobSucceeded mtx) (JobFailed mtx) (JobKilled mtx).
Definition inc_JobRecalculateStateCount (mtx : jobMetrics) : jobMetrics :=
  mkJobMetrics (JobRuntimeUpdateFailed mtx) (JobMaxRunningInstancesExcceeding mtx)
    (JobRecalculateStateCount mtx + 1) (JobSucceeded mtx) (JobFailed mtx) (JobKilled mtx).
Definition inc_JobSucceeded (mtx : jobMetrics) : jobMetrics :=
  mkJobMetrics (JobRuntimeUpdateFailed mtx) (JobMaxRunningInstancesExcceeding mtx)
    (JobRecalculateStateCount mtx) (JobSucceeded mtx + 1) (JobFailed mtx) (JobKilled mtx).
Definition inc_JobFailed (mtx : jobMetrics) : jobMetrics :=
  mkJobMetrics (JobRuntimeUpdateFailed mtx) (JobMaxRunningInstancesExcceeding mtx)
    (JobRecalculateStateCount mtx) (JobSucceeded mtx) (JobFailed mtx + 1) (JobKilled mtx).
Definition inc_JobKilled (mtx : jobMetrics) : jobMetrics :=
  mkJobMetrics (JobRuntimeUpdateFailed mtx) (JobMaxRunningInstancesExcceeding mtx)
    (JobRecalculateStateCount mtx) (JobSucceeded mtx) (JobFailed mtx) (JobKilled mtx + 1).

(** ** The maximum running instances SLA *)

Section SLA.
Context {error task_RuntimeInfo TaskConfig : Type}.

(** [taskRuntime.GetState()]. *)
Variable task_GetState : task_RuntimeInfo → TaskState.

(** A [task.TaskInfo] of the job; [JobId] is the job's in all of them. *)
Record TaskInfo := mkTaskInfo {
  InstanceId : Z;
  Runtime    : task_RuntimeInfo;
  Config     : TaskConfig
}.

(** What the stores, the cached job and the goal-state driver answer
    during one call: the maximum running instances of the cached
    configuration, the stored job configuration as the merged task
    configuration of each instance, the job runtime, the ids of the
    tasks stored as INITIALIZED, the stored runtime of each task, and
    whether a task is scheduled in the goal-state engine.  A left value
    is the error of the call. *)
Record stores := mkStores {
  GetConfig                : error + Z;
  GetJobConfig             : error + (Z → TaskConfig);
  GetRuntime               : error + job_RuntimeInfo;
  GetTaskIDsForJobAndState : error + list Z;
  GetTaskRuntime           : Z → error + task_RuntimeInfo;
  IsScheduledTask          : Z → bool
}.

(** How the function ends: it returns, or it ends in the call
    [sendTasksToResMgr(ctx, jobID, tasks, jobConfig, goalStateDriver)]
    and returns what that returns. *)
Inductive outcome :=
  | Return (err : option error)
  | sendTasksToResMgr (tasks : list TaskInfo).

Definition currentScheduledInstances (stateCounts : gmap string Z) : Z :=
  foldl (λ current state, uint32 (current + count stateCounts (TaskState_String state)))
        0 taskStatesScheduled.

(** The loop over [initializedTasks]: the tasks of the cached job are a
    map from instance id to runtime, to which [ReplaceTasks] adds. *)
Fixpoint selectTasks (s : stores) (jobConfig : Z → TaskConfig)
    (initializedTasks : list Z) (tasksToStart : Z) (tasks : list TaskInfo)
    (cachedTasks : gmap Z task_RuntimeInfo)
  : list TaskInfo * gmap Z task_RuntimeInfo :=
  match initializedTasks with
  | [] => (tasks, cachedTasks)
  | instID :: rest =>
      if decide (tasksToStart ≤ 0) then (tasks, cachedTasks)
      else
        match GetTaskRuntime s instID with
        | inl _ => selectTasks s jobConfig rest tasksToStart tasks cachedTasks
        | inr taskRuntime =>
            if decide (task_GetState taskRuntime ≠ TaskState_INITIALIZED) then
              selectTasks s jobConfig rest (uint32 (tasksToStart - 1)) tasks cachedTasks
            else
              let cachedTasks :=
                match cachedTasks !! instID with
                | None => <[instID := taskRuntime]> cachedTasks
                | Some _ => cachedTasks
                end in
              if IsScheduledTask s instID then
                selectTasks s jobConfig rest tasksToStart tasks cachedTasks
              else
                let taskinfo :=
                  {| InstanceId := instID; Runtime := taskRuntime;
                     Config := jobConfig instID |} in
                selectTasks s jobConfig rest (uint32 (tasksToStart - 1))
                            (tasks ++ [taskinfo]) cachedTasks
        end
  end.

Definition JobEvaluateMaxRunningInstancesSLA (s : stores)
    (cachedTasks : gmap Z task_RuntimeInfo) (mtx : jobMetrics)
  : outcome * gmap Z task_RuntimeInfo * jobMetrics :=
  match GetConfig s with
  | inl err => (Return (Some err), cachedTasks, mtx)
  | inr maxRunningInstances =>
  if decide (maxRunningInstances = 0) then (Return None, cachedTasks, mtx) else
  match GetJobConfig s with
  | inl err => (Return (Some err), cachedTasks, mtx)
  | inr jobConfig =>
  match GetRuntime s with
  | inl err => (Return (Some err), cachedTasks, inc_JobRuntimeUpdateFailed mtx)
  | inr runtime =>
  if decide (GoalState runtime = JobState_KILLED) then (Return None, cachedTasks, mtx) else
  let stateCounts := TaskStats runtime in
  let current := currentScheduledInstances stateCounts in
  if decide (maxRunningInstances ≤ current) then
    (Return None, cachedTasks,
     if decide (maxRunningInstances < current)
     then inc_JobMaxRunningInstancesExcceeding (uint32 (current - maxRunningInstances)) mtx
     else mtx)
  else
  let tasksToStart := uint32 (maxRunningInstances - current) in
  match GetTaskIDsForJobAndState s with
  | inl err => (Return (Some err), cachedTasks, mtx)
  | inr initializedTasks =>
      let '(tasks, cachedTasks) :=
        selectTasks s jobConfig initializedTasks tasksToStart [] cachedTasks in
      (sendTasksToResMgr tasks, cachedTasks, mtx)
  end end end end.

(** What holds of a task that the loop selects: the stored runtime it
    was built from, in state INITIALIZED, not scheduled, configured as
    its instance, and in the cache of the job. *)
Definition selected (s : stores) (jobConfig : Z → TaskConfig)
    (cachedTasks : gmap Z task_RuntimeInfo) (t : TaskInfo) : Prop :=
  GetTaskRuntime s (InstanceId t) = inr (Runtime t) ∧
  task_GetState (Runtime t) = TaskState_INITIALIZED ∧
  IsScheduledTask s (InstanceId t) = false ∧
  Config t = jobConfig (InstanceId t) ∧
  is_Some (cachedTasks !! InstanceId t).

End SLA.

Arguments TaskInfo : clear implicits.
Arguments stores : clear implicits.
Arguments outcome : clear implicits.

(** ** The state of a job from the states of its tasks *)

Section Determiners.
Context {error : Type}.

(** The names of [task.TaskState_name], in the order [range] visits
    them. *)
Variable TaskState_name : list string.

(** [util.IsPelotonJobStateTerminal]. *)
Variable IsPelotonJobStateTerminal : JobState → bool.

Definition getTotalInstanceCount (stateCounts : gmap string Z) : Z :=
  foldl (λ totalInstanceCount state, uint32 (totalInstanceCount + count stateCounts state))
        0 TaskState_name.

(** What the functions read of the job configuration and of the cached
    job: the configured instance count and type, the answers of
    [cachedJob.IsPartiallyCreated(config)] and
    [cached.HasControllerTask(config)], the state of the runtime of task
    0 (or the error of [GetRunTime]), the names of the current states of
    the cached tasks in the order [range tasks] visits them, and the
    answer of [isJobStateStale], which reads the clock. *)
Record cachedJob := mkCachedJob {
  InstanceCount       : Z;
  GetType             : JobType;
  IsPartiallyCreated  : bool;
  HasControllerTask   : bool;
  controllerTaskState : error + TaskState;
  GetAllTasks         : list string;
  isJobStateStale     : bool
}.

Inductive jobStateDeterminer :=
  | partiallyCreatedJobStateDeterminer
  | controllerTaskJobStateDeterminer (stateCounts : gmap string Z)
  | serviceJobStateDeterminer (stateCounts : gmap string Z)
  | batchJobStateDeterminer (stateCounts : gmap string Z).

Definition jobStateDeterminerFactory (jobRuntime : job_RuntimeInfo)
    (stateCounts : gmap string Z) (job : cachedJob) : jobStateDeterminer :=
  let totalInstanceCount := getTotalInstanceCount stateCounts in
  if bool_decide (totalInstanceCount < InstanceCount job)
     && IsPartiallyCreated job && negb (HasUpdate jobRuntime)
  then partiallyCreatedJobStateDeterminer
  else if HasControllerTask job then controllerTaskJobStateDeterminer stateCounts
  else if decide (GetType job = JobType_SERVICE) then serviceJobStateDeterminer stateCounts
  else batchJobStateDeterminer stateCounts.

Definition batch_getState (stateCounts : gmap string Z) (jobRuntime : job_RuntimeInfo)
  : JobState :=
  let totalInstanceCount := getTotalInstanceCount stateCounts in
  let SUCCEEDED := count stateCounts (TaskState_String TaskState_SUCCEEDED) in
  let FAILED := count stateCounts (TaskState_String TaskState_FAILED) in
  let KILLED := count stateCounts (TaskState_String TaskState_KILLED) in
  let RUNNING := count stateCounts (TaskState_String TaskState_RUNNING) in
  if decide (SUCCEEDED = totalInstanceCount) then JobState_SUCCEEDED
  else if decide (uint32 (SUCCEEDED + FAILED) = totalInstanceCount) then JobState_FAILED
  else if bool_decide (0 < KILLED)
          && bool_decide (uint32 (uint32 (SUCCEEDED + FAILED) + KILLED) = totalInstanceCount)
       then JobState_KILLED
  else if decide (State jobRuntime = JobState_KILLING) then JobState_KILLING
  else if decide (0 < RUNNING) then JobState_RUNNING
  else JobState_PENDING.

Definition service_getState (stateCounts : gmap string Z) (jobRuntime : job_RuntimeInfo)
  : JobState :=
  let totalInstanceCount := getTotalInstanceCount stateCounts in
  let KILLED := count stateCounts (TaskState_String TaskState_KILLED) in
  let RUNNING := count stateCounts (TaskState_String TaskState_RUNNING) in
  if decide (KILLED = totalInstanceCount) then JobState_KILLED
  else if decide (State jobRuntime = JobState_KILLING) then JobState_KILLING
  else if decide (0 < RUNNING) then JobState_RUNNING
  else JobState_PENDING.

(** [getState] of each determiner; the batch and the service determiner
    and the one of a partially created job return no error. *)
Definition getState (d : jobStateDeterminer) (job : cachedJob)
    (jobRuntime : job_RuntimeInfo) : JobState * option error :=
  match d with
  | partiallyCreatedJobStateDeterminer => (JobState_INITIALIZED, None)
  | batchJobStateDeterminer stateCounts => (batch_getState stateCounts jobRuntime, None)
  | serviceJobStateDeterminer stateCounts => (service_getState stateCounts jobRuntime, None)
  | controllerTaskJobStateDeterminer stateCounts =>
      let jobState := batch_getState stateCounts jobRuntime in
      if negb (IsPelotonJobStateTerminal jobState) then (jobState, None)
      else
        match controllerTaskState job with
        | inl err => (JobState_UNKNOWN, Some err)
        | inr TaskState_SUCCEEDED => (JobState_SUCCEEDED, None)
        | inr TaskState_FAILED => (JobState_FAILED, None)
        | inr _ => (JobState_KILLED, None)
        end
  end.

Definition shouldRecalculateJobState (job : cachedJob) (jobType : JobType)
    (jobState : JobState) : bool :=
  bool_decide (jobType = JobType_BATCH)
  && negb (IsPelotonJobStateTerminal jobState)
  && isJobStateStale job.

(** One turn of the loop that counts the cached tasks by state. *)
Definition countState (stateCountsFromCache : gmap string Z) (state : string)
  : gmap string Z :=
  match stateCountsFromCache !! state with
  | Some n => <[state := uint32 (n + 1)]> stateCountsFromCache
  | None => <[state := 1]> stateCountsFromCache
  end.

Definition stateCountsFromCache (tasks : list string) : gmap string Z :=
  foldl countState ∅ tasks.

Definition recalculateJobStateFromCache (jobRuntime : job_RuntimeInfo)
    (job : cachedJob) (jobState : JobState) : JobState * option error :=
  let counts := stateCountsFromCache (GetAllTasks job) in
  match counts !! TaskState_String TaskState_UNKNOWN with
  | Some _ => (jobState, None)
  | None => getState (jobStateDeterminerFactory jobRuntime counts job) job jobRuntime
  end.

(** [determineJobRuntimeState]; the duration metric of the
    recalculation is left out. *)
Definition determineJobRuntimeState (jobRuntime : job_RuntimeInfo)
    (stateCounts : gmap string Z) (job : cachedJob) (mtx : jobMetrics)
  : (JobState * option error) * jobMetrics :=
  match getState (jobStateDeterminerFactory jobRuntime stateCounts job) job jobRuntime with
  | (_, Some err) => ((JobState_UNKNOWN, Some err), mtx)
  | (jobState, None) =>
      let '(jobState, mtx) :=
        if shouldRecalculateJobState job (GetType job) jobState
           || bool_decide (InstanceCount job < getTotalInstanceCount stateCounts)
        then ((recalculateJobStateFromCache jobRuntime job jobState).1,
              inc_JobRecalculateStateCount mtx)
        else (jobState, mtx) in
      let mtx :=
        match jobState with
        | JobState_SUCCEEDED => inc_JobSucceeded mtx
        | JobState_FAILED => inc_JobFailed mtx
        | JobState_KILLED => inc_JobKilled mtx
        | _ => mtx
        end in
      ((jobState, None), mtx)
  end.

End Determiners.

Arguments cachedJob : clear implicits.

(** The names of the task states above, as a [TaskState_name]. *)
Definition namedStates : list string :=
  TaskState_String <$>
    [TaskState_UNKNOWN; TaskState_INITIALIZED; TaskState_PENDING;
     TaskState_READY; TaskState_PLACING; TaskState_PLACED;
     TaskState_LAUNCHING; TaskState_LAUNCHED; TaskState_STARTING;
     TaskState_RUNNING; TaskState_SUCCEEDED; TaskState_FAILED;
     TaskState_LOST; TaskState_PREEMPTING; TaskState_KILLING;
     TaskState_KILLED].

(** ** A job to evaluate the functions on *)

Definition noMetrics : jobMetrics := mkJobMetrics 0 0 0 0 0 0.

(** Two tasks succeeded and one failed. *)
Definition failedCounts : gmap string Z := {[ "SUCCEEDED" := 2; "FAILED" := 1 ]}.

(** Three tasks, all killed. *)
Definition killedCounts : gmap string Z := {[ "KILLED" := 3 ]}.

(** One task running, of a job that is running and has no update. *)
Definition runningJob : job_RuntimeInfo :=
  mkJobRuntime JobState_RUNNING JobState_RUNNING {[ "RUNNING" := 1 ]} false.

(** A service job of three instances without a controller task, with
    three cached tasks. *)
Definition serviceJob : cachedJob string :=
  mkCachedJob 3 JobType_SERVICE false false (inr TaskState_RUNNING)
              ["RUNNING"; "SUCCEEDED"; "RUNNING"] false.

(** At most two running instances, one running: of the tasks 0 to 3
    listed as INITIALIZED, task 0 is scheduled already and the runtime
    of task 1 cannot be read.  A task runtime is its state here, and a
    task configuration the instance id. *)
Definition slaStores : stores string TaskState Z :=
  mkStores (inr 2) (inr (λ instID, instID)) (inr runningJob) (inr [0; 1; 2; 3])
           (λ instID, if decide (instID = 1) then inl "timeout"
                      else inr TaskState_INITIALIZED)
           (λ instID, bool_decide (instID = 0)).

End JobRuntime.

(* ===================================================================== *)
(** * Properties of the priority queue                                    *)
(* ===================================================================== *)

Module QueueProofs.
Import Queue.
Local Open Scope Z_scope.

(** ** The multi-level list *)

Lemma maxLevel_spec (m : MultiLevelList) :
  match maxLevel m with
  | None => m = ∅
  | Some k => is_Some (m !! k) ∧ ∀ j, is_Some (m !! j) → j ≤ k
  end.
Proof.
  unfold maxLevel.
  apply (map_fold_weak_ind (λ r (m : MultiLevelList),
           match r with
           | None => m = ∅
           | Some k => is_Some (m !! k) ∧ ∀ j, is_Some (m !! j) → j ≤ k
           end)); [done|].
  intros i x m0 r Hi IH. destruct r as [k|]; simpl.
  - destruct IH as [Hk Hmax]. split.
    + destruct (Z.max_spec i k) as [[_ ->]|[_ ->]].
      * rewrite lookup_insert_ne; [done|]. intros ->. rewrite Hi in Hk. by destruct Hk.
      * rewrite lookup_insert_eq. eauto.
    + intros j Hj. destruct (decide (i = j)) as [->|Hne]; [lia|].
      rewrite lookup_insert_ne in Hj by done. specialize (Hmax j Hj). lia.
  - subst m0. split; [rewrite lookup_insert_eq; eauto|].
    intros j Hj. destruct (decide (i = j)) as [->|Hne]; [lia|].
    rewrite lookup_insert_ne, lookup_empty in Hj by done. by destruct Hj.
Qed.

Lemma GetHighestLevel_empty : GetHighestLevel ∅ = emptySentinel.
Proof. reflexivity. Qed.

Lemma GetHighestLevel_registered (m : MultiLevelList) :
  m ≠ ∅ → is_Some (m !! GetHighestLevel m).
Proof.
  intros Hne. unfold GetHighestLevel.
  pose proof (maxLevel_spec m) as H. destruct (maxLevel m); simpl; [tauto|done].
Qed.

Lemma GetHighestLevel_max (m : MultiLevelList) j :
  is_Some (m !! j) → j ≤ GetHighestLevel m.
Proof.
  intros Hj. unfold GetHighestLevel.
  pose proof (maxLevel_spec m) as H. destruct (maxLevel m); simpl.
  - by apply H.
  - subst m. rewrite lookup_empty in Hj. by destruct Hj.
Qed.

Lemma sumLen_empty : sumLen ∅ = 0%nat.
Proof. reflexivity. Qed.

Lemma sumLen_insert_fresh (m : MultiLevelList) p l :
  m !! p = None → sumLen (<[p := l]> m) = (length l + sumLen m)%nat.
Proof.
  intros Hp. unfold sumLen.
  rewrite (map_fold_insert_L (λ _ (l : list TaskItem) n, (length l + n)%nat)); [done| |done].
  intros; lia.
Qed.

Lemma sumLen_delete (m : MultiLevelList) p l :
  m !! p = Some l → sumLen m = (length l + sumLen (delete p m))%nat.
Proof.
  intros Hp. unfold sumLen.
  rewrite (map_fold_delete_L (λ _ (l : list TaskItem) n, (length l + n)%nat) _ p l m);
    [done| |done].
  intros; lia.
Qed.

Lemma sumLen_insert (m : MultiLevelList) p l :
  (sumLen (<[p := l]> m) + Len p m = length l + sumLen m)%nat.
Proof.
  unfold Len. destruct (m !! p) as [l0|] eqn:Hp; simpl.
  - rewrite (sumLen_delete m p l0 Hp), <- (insert_delete_eq m).
    rewrite sumLen_insert_fresh by apply lookup_delete_eq. lia.
  - rewrite sumLen_insert_fresh by done. lia.
Qed.

Lemma sumLen_Push p x (m : MultiLevelList) : sumLen (Push p x m) = S (sumLen m).
Proof.
  unfold Push. pose proof (sumLen_insert m p (default [] (m !! p) ++ [x])) as H.
  unfold Len in H. rewrite length_app in H. simpl in H. lia.
Qed.

Lemma sumLen_Pop p (m m' : MultiLevelList) x :
  Pop p m = Some (x, m') → sumLen m = S (sumLen m').
Proof.
  unfold Pop. destruct (m !! p) as [[|y rest]|] eqn:Hp; try done.
  intros [= -> <-]. destruct rest as [|z rest].
  - rewrite (sumLen_delete m p [x] Hp). reflexivity.
  - pose proof (sumLen_insert m p (z :: rest)) as H.
    unfold Len in H. rewrite Hp in H. simpl in H. lia.
Qed.

Lemma Len_Push p x (m : MultiLevelList) q :
  Len q (Push p x m) = if decide (p = q) then S (Len q m) else Len q m.
Proof.
  unfold Len, Push. case_decide as Hpq.
  - subst q. rewrite lookup_insert_eq. simpl. rewrite length_app. simpl. lia.
  - by rewrite lookup_insert_ne.
Qed.

Lemma mll_wf_empty : mll_wf ∅.
Proof. intros p l Hp. by rewrite lookup_empty in Hp. Qed.

Lemma mll_wf_Push p x (m : MultiLevelList) : mll_wf m → mll_wf (Push p x m).
Proof.
  intros Hwf q l. unfold Push. destruct (decide (p = q)) as [->|Hne].
  - rewrite lookup_insert_eq. intros [= <-]. by destruct (default [] (m !! q)).
  - rewrite lookup_insert_ne by done. apply Hwf.
Qed.

Lemma mll_wf_Pop p (m m' : MultiLevelList) x :
  mll_wf m → Pop p m = Some (x, m') → mll_wf m'.
Proof.
  intros Hwf. unfold Pop. destruct (m !! p) as [[|y rest]|] eqn:Hp; try done.
  intros [= -> <-] q l. destruct rest as [|z rest].
  - destruct (decide (p = q)) as [->|Hne].
    + by rewrite lookup_delete_eq.
    + rewrite lookup_delete_ne by done. apply Hwf.
  - destruct (decide (p = q)) as [->|Hne].
    + rewrite lookup_insert_eq. by intros [= <-].
    + rewrite lookup_insert_ne by done. apply Hwf.
Qed.

Lemma Pop_highest (m : MultiLevelList) :
  mll_wf m → m ≠ ∅ → is_Some (Pop (GetHighestLevel m) m).
Proof.
  intros Hwf Hne. destruct (GetHighestLevel_registered m Hne) as [l Hl].
  unfold Pop. rewrite Hl. destruct l as [|x rest]; [by apply Hwf in Hl|eauto].
Qed.

Lemma Pop_empty p : Pop p ∅ = None.
Proof. unfold Pop. by rewrite lookup_empty. Qed.

Lemma sumLen_pos_nonempty (m : MultiLevelList) : (0 < sumLen m)%nat → m ≠ ∅.
Proof. intros H ->. rewrite sumLen_empty in H. lia. Qed.

(** ** [Dequeue] run alone *)

Lemma int64_id z : - 2 ^ 63 ≤ z ≤ maxInt64 → int64 z = z.
Proof.
  unfold int64, maxInt64. intros Hz.
  rewrite Z.mod_small; lia.
Qed.

Lemma Dequeue_popped (f : PriorityQueue) x m' :
  Pop (GetHighestLevel (pq_list f)) (pq_list f) = Some (x, m') →
  dq_run 4 DqPeek f
  = Some (x, None, {| pq_list := m'; pq_limit := pq_limit f;
                      pq_count := int64 (pq_count f - 1) |}).
Proof. intros H. simpl. rewrite H. reflexivity. Qed.

Lemma Dequeue_failed (f : PriorityQueue) :
  Pop (GetHighestLevel (pq_list f)) (pq_list f) = None →
  dq_run 4 DqPeek f = Some (emptyTaskItem, Some EmptyLevel, f).
Proof.
  intros H. simpl. rewrite H. simpl.
  rewrite bool_decide_eq_false_2; [reflexivity|]. intros Hne. by apply Hne.
Qed.

(** Without interference the four program points Peek, Pop and then
    either Count or the loop test always reach the return. *)
Lemma Dequeue_alone (f : PriorityQueue) : dq_run 4 DqPeek f = Some (Dequeue f).
Proof.
  unfold Dequeue.
  destruct (Pop (GetHighestLevel (pq_list f)) (pq_list f)) as [[x m']|] eqn:H.
  - by rewrite (Dequeue_popped f x m' H).
  - by rewrite (Dequeue_failed f H).
Qed.

Lemma Dequeue_Some (f : PriorityQueue) x m' :
  Pop (GetHighestLevel (pq_list f)) (pq_list f) = Some (x, m') →
  Dequeue f = (x, None, {| pq_list := m'; pq_limit := pq_limit f;
                           pq_count := int64 (pq_count f - 1) |}).
Proof. intros H. unfold Dequeue. by rewrite (Dequeue_popped f x m' H). Qed.

Lemma Dequeue_None (f : PriorityQueue) :
  Pop (GetHighestLevel (pq_list f)) (pq_list f) = None →
  Dequeue f = (emptyTaskItem, Some EmptyLevel, f).
Proof. intros H. unfold Dequeue. by rewrite (Dequeue_failed f H). Qed.

(** Case analysis on the pop [Dequeue] performs when it runs alone. *)
Ltac case_Dequeue f :=
  let x := fresh "x" in
  let m' := fresh "m'" in
  let H := fresh "Hpop" in
  destruct (Pop (GetHighestLevel (pq_list f)) (pq_list f)) as [[x m']|] eqn:H;
  [rewrite (Dequeue_Some f x m' H)|rewrite (Dequeue_None f H)].

(** On an empty queue [Dequeue] returns the empty item and the Empty
    error, and changes nothing. *)
Lemma Dequeue_empty (f : PriorityQueue) :
  pq_list f = ∅ → Dequeue f = (emptyTaskItem, Some EmptyLevel, f).
Proof. intros H. apply Dequeue_None. rewrite H. apply Pop_empty. Qed.

(** The retry loop of [Dequeue]: a pop that succeeds there ends the call
    with the empty item and no error, the popped item being dropped and
    [count] left as it was. *)
Lemma retry_pop_dropped (f : PriorityQueue) hp x m' :
  Pop hp (pq_list f) = Some (x, m') →
  dq_step (DqRePop hp) f = (DqRet emptyTaskItem None, with_list f m').
Proof. intros H. simpl. by rewrite H. Qed.

(** ** The invariant of the queue *)

Lemma pq_inv_New limit : limit ≤ maxInt64 → pq_inv (NewPriorityQueue limit).
Proof.
  intros Hl. split; [apply mll_wf_empty|]. split; [reflexivity|].
  split; [|done]. unfold maxInt64. simpl. lia.
Qed.

Lemma pq_inv_Enqueue ti f : pq_inv f → pq_inv (Enqueue ti f).1.
Proof.
  intros (Hwf & Hc & Hcm & Hlm). unfold Enqueue. case_bool_decide as Hfull; [done|].
  assert (Hid : int64 (pq_count f + 1) = pq_count f + 1).
  { apply int64_id. unfold maxInt64 in *. lia. }
  repeat split; simpl.
  - by apply mll_wf_Push.
  - rewrite Hid, sumLen_Push. lia.
  - rewrite Hid. lia.
  - done.
Qed.

Lemma pq_inv_Dequeue f : pq_inv f → pq_inv (Dequeue f).2.
Proof.
  intros (Hwf & Hc & Hcm & Hlm). case_Dequeue f; [|done].
  pose proof (sumLen_Pop _ _ _ _ Hpop) as Hs.
  assert (Hid : int64 (pq_count f - 1) = pq_count f - 1).
  { apply int64_id. unfold maxInt64 in *. lia. }
  repeat split; simpl.
  - by eapply mll_wf_Pop.
  - rewrite Hid. lia.
  - rewrite Hid. lia.
  - done.
Qed.

Lemma limit_Enqueue ti f : pq_limit (Enqueue ti f).1 = pq_limit f.
Proof. unfold Enqueue. by case_bool_decide. Qed.

Lemma limit_Dequeue f : pq_limit (Dequeue f).2 = pq_limit f.
Proof. by case_Dequeue f. Qed.

Lemma count_Enqueue_le ti f :
  pq_inv f → pq_count f ≤ pq_limit f → pq_count (Enqueue ti f).1 ≤ pq_limit f.
Proof.
  intros (Hwf & Hc & Hcm & Hlm) Hle. unfold Enqueue. case_bool_decide; simpl; [done|].
  rewrite int64_id; unfold maxInt64 in *; lia.
Qed.

Lemma count_Dequeue_le f : pq_inv f → pq_count (Dequeue f).2 ≤ pq_count f.
Proof.
  intros (Hwf & Hc & Hcm & Hlm). case_Dequeue f; [|done]. simpl.
  pose proof (sumLen_Pop _ _ _ _ Hpop) as Hs.
  rewrite int64_id; unfold maxInt64 in *; lia.
Qed.

Lemma run_ops_snoc ops o f : run_ops (ops ++ [o]) f = apply_op (run_ops ops f) o.
Proof. unfold run_ops. by rewrite foldl_app. Qed.

Lemma run_ops_inv ops limit :
  limit ≤ maxInt64 →
  let f := run_ops ops (NewPriorityQueue limit) in
  pq_inv f ∧ pq_limit f = limit ∧ (0 ≤ limit → pq_count f ≤ limit).
Proof.
  intros Hmax. induction ops as [|o ops IH] using rev_ind; simpl.
  - split; [by apply pq_inv_New|]. split; [done|]. simpl. lia.
  - rewrite run_ops_snoc. simpl in IH. destruct IH as (Hinv & Hlim & Hle).
    destruct o as [ti|]; simpl.
    + split; [by apply pq_inv_Enqueue|]. rewrite limit_Enqueue. split; [done|].
      intros H0. specialize (Hle H0).
      pose proof (count_Enqueue_le ti (run_ops ops (NewPriorityQueue limit)) Hinv) as H.
      rewrite Hlim in H. by apply H.
    + split; [by apply pq_inv_Dequeue|]. rewrite limit_Dequeue. split; [done|].
      intros H0.
      pose proof (count_Dequeue_le (run_ops ops (NewPriorityQueue limit)) Hinv).
      specialize (Hle H0). lia.
Qed.

Lemma sumLen_totalLen (m : MultiLevelList) : sumLen m = totalLen m.
Proof.
  unfold sumLen, totalLen, levels. rewrite map_fold_foldr.
  assert (Hin : ∀ kv, kv ∈ map_to_list m → length kv.2 = Len kv.1 m).
  { intros [k l] Hkl. apply elem_of_map_to_list in Hkl. unfold Len. simpl. by rewrite Hkl. }
  induction (map_to_list m) as [|[k l] kvs IH]; [done|].
  simpl. rewrite IH.
  - f_equal. apply (Hin (k, l)). by left.
  - intros kv Hkv. apply Hin. by right.
Qed.

(** ** Evaluations *)

Example peek_q2 : GetHighestLevel (pq_list q2) = 2.
Proof. vm_compute. reflexivity. Qed.

Example Dequeue_q2 : (Dequeue q2).1 = (a2, None).
Proof. vm_compute. reflexivity. Qed.

Example Dequeue_twice_q2 : (Dequeue (Dequeue q2).2).1 = (b1, None).
Proof. vm_compute. reflexivity. Qed.

(** ** The claims *)

(** C6, as stated, fails: a queue of limit 0 is at [count == limit], its
    [Dequeue] reports Empty and the [Enqueue] after it still reports
    QueueLimitReached. *)
Lemma Dequeue_Enqueue_limit_zero :
  ¬ (∀ (f : PriorityQueue) (ti : TaskItem),
       (pq_count f >= pq_limit f → Enqueue ti f = (f, Some QueueLimitReached)) ∧
       (pq_count f = pq_limit f →
        (Dequeue f).1.2 = None ∧ (Enqueue ti (Dequeue f).2).2 = None)).
Proof.
  intros H. destruct (H (NewPriorityQueue 0) a2) as [_ H2].
  destruct (H2 eq_refl) as [Hd _]. vm_compute in Hd. discriminate.
Qed.

(** C6 (amended): for every priority queue whose count is at least its
    limit, [Enqueue] returns QueueLimitReached and leaves the queue as it
    was; and when a queue that satisfies the invariant of the queue (its
    count is the sum of its level lengths) is at [count == limit] with a
    positive limit, [Dequeue] returns an item with no error and the
    [Enqueue] that follows succeeds, bringing the count back to the
    limit. *)
Theorem Enqueue_at_limit (f : PriorityQueue) (ti : TaskItem) :
  (pq_count f >= pq_limit f → Enqueue ti f = (f, Some QueueLimitReached)) ∧
  (pq_inv f → 0 < pq_limit f → pq_count f = pq_limit f →
   ∃ x f' f'', Dequeue f = (x, None, f') ∧ Enqueue ti f' = (f'', None)
               ∧ pq_count f'' = pq_limit f'' ∧ pq_limit f'' = pq_limit f).
Proof.
  split.
  - intros Hfull. unfold Enqueue. by rewrite bool_decide_eq_true_2.
  - intros (Hwf & Hc & Hcm & Hlm) Hpos Heq.
    assert (Hne : pq_list f ≠ ∅) by (apply sumLen_pos_nonempty; lia).
    destruct (Pop_highest _ Hwf Hne) as [[x m'] Hpop].
    assert (Hid : int64 (pq_count f - 1) = pq_count f - 1).
    { apply int64_id. unfold maxInt64 in *. lia. }
    eexists x, _, _. split; [by apply Dequeue_Some|].
    unfold Enqueue. simpl. rewrite Hid. rewrite bool_decide_eq_false_2 by lia.
    split; [reflexivity|]. simpl.
    split; [|done]. rewrite int64_id; unfold maxInt64 in *; lia.
Qed.

Lemma Enqueue_at_limit_witness :
  Enqueue b1 qfull = (qfull, Some QueueLimitReached) ∧
  ∃ x f' f'', Dequeue qfull = (x, None, f') ∧ Enqueue b1 f' = (f'', None)
              ∧ pq_count f'' = pq_limit f'' ∧ pq_limit f'' = pq_limit qfull.
Proof.
  destruct (Enqueue_at_limit qfull b1) as [H1 H2]. split.
  - apply H1. vm_compute. discriminate.
  - apply H2.
    + apply (run_ops_inv [OpEnqueue a2] 1). vm_compute. discriminate.
    + reflexivity.
    + reflexivity.
Defined.

(** C7: where the code leaves the claim.  Two consumers call [Dequeue] on
    a queue holding [a] at priority 2 and [b] at priority 1.  The first
    peeks level 2, the second peeks and pops [a], so the first one's pop
    fails; its retry re-peeks level 1 and pops [b] with no error, and then
    returns the empty item with a nil error: [b] is gone from the list,
    no caller received it, and the count stays at 1 over an empty list. *)
Theorem Dequeue_retry_drops_item :
  let s := run_sched [0; 1; 1; 0; 0; 0; 0; 1]%nat (mkSys q2 [DqPeek; DqPeek]) in
  threads s = [DqRet emptyTaskItem None; DqRet a2 None]
  ∧ pq_list (shared s) = ∅ ∧ pq_count (shared s) = 1.
Proof. vm_compute. split; [reflexivity|split; reflexivity]. Qed.

(** C8, as stated, fails: [NewPriorityQueue] accepts a negative limit, and
    then [count = 0] exceeds it from the start. *)
Lemma count_above_negative_limit :
  ¬ (∀ (limit : Z) (ops : list op),
       - 2 ^ 63 ≤ limit ≤ maxInt64 →
       let f := run_ops ops (NewPriorityQueue limit) in
       0 ≤ pq_count f ≤ pq_limit f ∧ pq_count f = Z.of_nat (totalLen (pq_list f))).
Proof.
  intros H. destruct (H (-1) []) as [[_ Hle] _].
  - unfold maxInt64. lia.
  - vm_compute in Hle. by apply Hle.
Qed.

(** C8 (amended): for every priority queue built with a limit (an
    int64) that is not negative, after every sequence of [Enqueue] and
    [Dequeue] operations run one at a time, [0 <= count <= limit] and
    [count] is the sum of [Len p] over all priorities [p]. *)
Theorem count_invariant (limit : Z) (ops : list op) :
  0 ≤ limit ≤ maxInt64 →
  let f := run_ops ops (NewPriorityQueue limit) in
  0 ≤ pq_count f ≤ pq_limit f ∧ pq_count f = Z.of_nat (totalLen (pq_list f)).
Proof.
  intros [Hlim Hmax] f. destruct (run_ops_inv ops limit Hmax) as ((_ & Hc & _) & Hl & Hle).
  fold f in Hc, Hl, Hle. rewrite <- sumLen_totalLen. split; [|done].
  rewrite Hl. split; [lia|by apply Hle].
Qed.

Lemma count_invariant_witness :
  let f := run_ops [OpEnqueue a2; OpEnqueue b1; OpDequeue; OpEnqueue a2; OpEnqueue b1]
                   (NewPriorityQueue 2) in
  0 ≤ pq_count f ≤ pq_limit f ∧ pq_count f = Z.of_nat (totalLen (pq_list f)).
Proof. apply (count_invariant 2). split; [lia|]. vm_compute. discriminate. Defined.

End QueueProofs.

(* ===================================================================== *)
(** * Properties of the worker pool                                       *)
(* ===================================================================== *)

Module AsyncProofs.
Import Async.
Local Open Scope Z_scope.

Lemma count_live_cons w ws : count_live (w :: ws) = (b2n (is_live w) + count_live ws)%nat.
Proof. unfold count_live. rewrite filter_cons. by destruct w. Qed.

Lemma count_live_app ws1 ws2 : count_live (ws1 ++ ws2) = (count_live ws1 + count_live ws2)%nat.
Proof. unfold count_live. by rewrite filter_app, length_app. Qed.

Lemma count_live_replicate n : count_live (replicate n WLoop) = n.
Proof. induction n as [|n IH]; [done|]. simpl. rewrite count_live_cons, IH. done. Qed.

Lemma count_live_insert ws i w w' :
  ws !! i = Some w →
  (count_live (<[i := w']> ws) + b2n (is_live w) = count_live ws + b2n (is_live w'))%nat.
Proof.
  revert i. induction ws as [|v ws IH]; intros [|i] Hi; simplify_eq/=.
  - rewrite !count_live_cons. lia.
  - rewrite !count_live_cons. specialize (IH i Hi). lia.
Qed.

Lemma live_spawn n ws : Z.of_nat (count_live (spawn n ws)) = Z.of_nat (count_live ws) + Z.max 0 n.
Proof. unfold spawn. rewrite count_live_app, count_live_replicate. lia. Qed.

Lemma to_spawn_all_app cs1 cs2 :
  to_spawn_all (cs1 ++ cs2) = to_spawn_all cs1 + to_spawn_all cs2.
Proof. induction cs1 as [|c cs1 IH]; simpl; [done|]. rewrite IH. lia. Qed.

Lemma to_spawn_all_insert cs c st st' :
  cs !! c = Some st →
  to_spawn_all (<[c := st']> cs) = to_spawn_all cs - to_spawn st + to_spawn st'.
Proof.
  revert c. induction cs as [|x cs IH]; intros [|c] Hc; simplify_eq/=; [lia|].
  rewrite (IH c Hc). lia.
Qed.

(** What the steps of a caller leave alone. *)
Lemma caller_step_frame c p :
  MaxWorkers (caller_step c p) = MaxWorkers p ∧
  numWorkers (caller_step c p) = numWorkers p ∧
  jobs (caller_step c p) = jobs p ∧ ran (caller_step c p) = ran p ∧
  live (caller_step c p) = (live p + Z.to_nat (spawning p - spawning (caller_step c p)))%nat ∧
  spawning (caller_step c p) ≤ spawning p.
Proof.
  unfold caller_step, live, spawning.
  destruct (callers p !! c) as [[i num|job|]|] eqn:Hc; simpl;
    try (split_and!; try done; lia).
  - case_bool_decide as Hlt; simpl.
    + rewrite (to_spawn_all_insert _ _ _ _ Hc). simpl.
      rewrite count_live_app. change (count_live [WLoop]) with 1%nat.
      split_and!; try done; lia.
    + rewrite (to_spawn_all_insert _ _ _ _ Hc). simpl. split_and!; try done; lia.
  - rewrite (to_spawn_all_insert _ _ _ _ Hc). simpl. split_and!; try done; lia.
Qed.

Lemma iter_caller_step_frame n c p :
  MaxWorkers (Nat.iter n (caller_step c) p) = MaxWorkers p ∧
  numWorkers (Nat.iter n (caller_step c) p) = numWorkers p ∧
  Z.of_nat (live (Nat.iter n (caller_step c) p)) + spawning (Nat.iter n (caller_step c) p)
  = Z.of_nat (live p) + spawning p ∧
  spawning (Nat.iter n (caller_step c) p) ≤ spawning p.
Proof.
  induction n as [|n (HM & Hn & Hl & Hs)]; simpl; [split_and!; (done || lia)|].
  destruct (caller_step_frame c (Nat.iter n (caller_step c) p))
    as (HM' & Hn' & _ & _ & Hl' & Hs').
  rewrite HM', Hn', Hl'. split_and!; try done; lia.
Qed.

Lemma Enqueue_frame job p :
  MaxWorkers (Enqueue job p) = MaxWorkers p ∧ numWorkers (Enqueue job p) = numWorkers p ∧
  workers (Enqueue job p) = workers p ∧ queue (Enqueue job p) = queue p ++ [job] ∧
  jobs (Enqueue job p) = jobs p + 1 ∧ ran (Enqueue job p) = ran p ∧
  callers (Enqueue job p) = callers p ++ [CReturned].
Proof.
  unfold Enqueue, caller_step, Enqueue_Add. cbn [callers].
  rewrite list_lookup_middle by done. simpl.
  split_and!; try done.
  by rewrite insert_app_r_alt, Nat.sub_diag by lia.
Qed.

(** A whole call is its first part followed by the steps of its caller:
    [ASetMaxWorkers] and [AEnqueue] are schedules of the other actions. *)
Lemma run_caller_steps n c p :
  run (replicate n (ACaller c)) p = Nat.iter n (caller_step c) p.
Proof.
  revert p. induction n as [|n IH]; intros p; [done|].
  rewrite Nat.iter_succ_r. simpl. apply IH.
Qed.

Lemma whole_calls p :
  (∀ num, step p (ASetMaxWorkers num)
          = run (ACallSetMaxWorkers num
                 :: replicate (S (Z.to_nat (numWorkers (SetMaxWorkers_locked num p)
                                            - numWorkers p)))
                              (ACaller (length (callers p)))) p) ∧
  (∀ job, step p (AEnqueue job)
          = run [ACallEnqueue job; ACaller (length (callers p))] p).
Proof.
  split; [|done]. intros num. unfold run. cbn [foldl step].
  fold (run (replicate (S (Z.to_nat (numWorkers (SetMaxWorkers_locked num p)
                                     - numWorkers p)))
                       (ACaller (length (callers p))))
            (SetMaxWorkers_locked num p)).
  by rewrite run_caller_steps.
Qed.

(** [options.MaxWorkers] is assigned by [NewPool] alone. *)
Lemma MaxWorkers_step p a : MaxWorkers (step p a) = MaxWorkers p.
Proof.
  destruct a as [num|job|i|num|job|c]; simpl; try done.
  - unfold SetMaxWorkers. by destruct (iter_caller_step_frame
      (S (Z.to_nat (numWorkers (SetMaxWorkers_locked num p) - numWorkers p)))
      (length (callers p)) (SetMaxWorkers_locked num p)) as (-> & _).
  - apply Enqueue_frame.
  - unfold worker_step, shouldWorkerStop.
    destruct (workers p !! i) as [[| |job|]|]; try done.
    + case_bool_decide; done.
    + destruct (queue p); done.
  - apply caller_step_frame.
Qed.

Lemma MaxWorkers_run acts p : MaxWorkers (run acts p) = MaxWorkers p.
Proof.
  revert p. induction acts as [|a acts IH]; intros p; [done|].
  simpl. fold (run acts (step p a)). by rewrite IH, MaxWorkers_step.
Qed.

(** A worker leaves only while [numWorkers] exceeds [options.MaxWorkers]. *)
Lemma worker_step_no_exit i p :
  numWorkers p ≤ MaxWorkers p →
  live (worker_step i p) = live p ∧ numWorkers (worker_step i p) = numWorkers p.
Proof.
  intros Hle. unfold worker_step, shouldWorkerStop, live.
  destruct (workers p !! i) as [[| |job|]|] eqn:Hi; try done.
  - rewrite bool_decide_eq_false_2 by lia. simpl.
    pose proof (count_live_insert _ _ _ WRecv Hi) as H. simpl in H. split; [lia|done].
  - destruct (queue p) as [|job rest]; [done|]. simpl.
    pose proof (count_live_insert _ _ _ (WRun job) Hi) as H. simpl in H. split; [lia|done].
  - simpl. pose proof (count_live_insert _ _ _ WLoop Hi) as H. simpl in H. split; [lia|done].
Qed.

(** After a shrink, however the workers and producers are scheduled, no
    worker ever returns. *)
Lemma shrink_never_stops (sch : list (nat + Job)) p :
  numWorkers p ≤ MaxWorkers p →
  live (run (sum_rect _ AWorker AEnqueue <$> sch) p) = live p.
Proof.
  revert p. induction sch as [|[i|job] sch IH]; intros p Hle; [done| |].
  - simpl. fold (run (sum_rect _ AWorker AEnqueue <$> sch) (worker_step i p)).
    destruct (worker_step_no_exit i p Hle) as [Hl Hn].
    rewrite IH; [done|]. rewrite Hn.
    change (MaxWorkers (worker_step i p)) with (MaxWorkers (step p (AWorker i))).
    by rewrite MaxWorkers_step.
  - simpl. fold (run (sum_rect _ AWorker AEnqueue <$> sch) (Enqueue job p)).
    destruct (Enqueue_frame job p) as (HM & Hn & Hw & _).
    rewrite IH; [by unfold live; rewrite Hw|]. by rewrite HM, Hn.
Qed.

(** The live workers and the workers that calls of [SetMaxWorkers] have
    still to start never fall below [options.MaxWorkers], nor below
    [numWorkers]. *)
Lemma pool_inv_New o : pool_inv (NewPool o).
Proof.
  unfold pool_inv, NewPool, live, spawning. simpl. rewrite live_spawn.
  unfold DefaultMaxWorkers, count_live. simpl. case_bool_decide; lia.
Qed.

Lemma pool_inv_locked num p : pool_inv p → pool_inv (SetMaxWorkers_locked num p).
Proof.
  unfold pool_inv, SetMaxWorkers_locked, live, spawning. simpl. intros [HM Hn].
  rewrite to_spawn_all_app. simpl. lia.
Qed.

Lemma pool_inv_Add job p : pool_inv p → pool_inv (Enqueue_Add job p).
Proof.
  unfold pool_inv, Enqueue_Add, live, spawning. simpl. intros [HM Hn].
  rewrite to_spawn_all_app. simpl. lia.
Qed.

Lemma pool_inv_caller_step c p : pool_inv p → pool_inv (caller_step c p).
Proof.
  unfold pool_inv. intros [HM Hn].
  destruct (caller_step_frame c p) as (-> & -> & _ & _ & -> & Hs). lia.
Qed.

Lemma pool_inv_step p a : pool_inv p → pool_inv (step p a).
Proof.
  intros Hinv. destruct a as [num|job|i|num|job|c]; simpl.
  - unfold SetMaxWorkers.
    induction (S (Z.to_nat (numWorkers (SetMaxWorkers_locked num p) - numWorkers p)))
      as [|n IH]; simpl; [by apply pool_inv_locked|by apply pool_inv_caller_step].
  - unfold Enqueue. by apply pool_inv_caller_step, pool_inv_Add.
  - destruct Hinv as [HM Hn]. unfold pool_inv, worker_step, shouldWorkerStop, live, spawning in *.
    destruct (workers p !! i) as [[| |job|]|] eqn:Hi; try done.
    + case_bool_decide as Hgt; simpl.
      * pose proof (count_live_insert _ _ _ WExit Hi) as H. simpl in H. lia.
      * pose proof (count_live_insert _ _ _ WRecv Hi) as H. simpl in H. lia.
    + destruct (queue p) as [|job rest]; [done|]. simpl.
      pose proof (count_live_insert _ _ _ (WRun job) Hi) as H. simpl in H. lia.
    + simpl. pose proof (count_live_insert _ _ _ WLoop Hi) as H. simpl in H. lia.
  - by apply pool_inv_locked.
  - by apply pool_inv_Add.
  - by apply pool_inv_caller_step.
Qed.

Lemma pool_inv_run acts o : pool_inv (run acts (NewPool o)).
Proof.
  induction acts as [|a acts IH] using rev_ind; [apply pool_inv_New|].
  unfold run. rewrite foldl_app. simpl. by apply pool_inv_step.
Qed.

Example grow_live : live (SetMaxWorkers 6 (NewPool 4)) = 6%nat.
Proof. vm_compute. reflexivity. Qed.

(** The workers a growing [SetMaxWorkers] starts are taken back: the
    next two workers to reach the top of their loop return. *)
Example grow_then_loop :
  workers (run (AWorker <$> [0; 1; 2; 3; 4; 5]%nat) (SetMaxWorkers 6 (NewPool 4)))
  = [WExit; WExit; WRecv; WRecv; WRecv; WRecv].
Proof. vm_compute. reflexivity. Qed.

(** When two workers reach the top of their loop between the unlock of
    a growing [SetMaxWorkers] and its loop, they return first: for a
    while two workers are alive, below [options.MaxWorkers]. *)
Example grow_dip :
  let p := run [ACallSetMaxWorkers 6; AWorker 0%nat; AWorker 1%nat] (NewPool 4) in
  live p = 2%nat ∧ MaxWorkers p = 4 ∧ numWorkers p = 4 ∧ spawning p = 2 ∧
  live (run (replicate 3 (ACaller 0%nat)) p) = 4%nat.
Proof. vm_compute. repeat split; reflexivity. Qed.

(** C3: where the code leaves the claim.  A pool built with four workers
    is told [SetMaxWorkers(2)].  [numWorkers] becomes 2 while
    [options.MaxWorkers] stays 4, so [shouldWorkerStop] answers false and
    changes nothing; after every worker has passed the top of its loop
    all four are still alive, waiting for a job, and after they have run
    the two queued jobs they wait again: no worker above the new maximum
    has returned. *)
Theorem SetMaxWorkers_shrink_no_exit :
  let p := SetMaxWorkers 2 (NewPool 4) in
  numWorkers p = 2 ∧ MaxWorkers p = 4 ∧ shouldWorkerStop p = (false, p) ∧
  workers (run (AWorker <$> [0; 1; 2; 3]%nat) p) = [WRecv; WRecv; WRecv; WRecv] ∧
  let p' := run ([AEnqueue 7%nat; AEnqueue 8%nat]
                 ++ (AWorker <$> [0; 1; 2; 3; 3; 2; 3; 2; 3; 2; 1; 0]%nat)) p in
  ran p' = [7; 8]%nat ∧ workers p' = [WRecv; WRecv; WRecv; WRecv] ∧ live p' = 4%nat.
Proof. vm_compute. repeat split; reflexivity. Qed.

End AsyncProofs.

(* ===================================================================== *)
(** * Properties of the goal-state engine                                 *)
(* ===================================================================== *)

Module GoalstateProofs.
Import Goalstate.
Local Open Scope Z_scope.

Section EngineProofs.
Context {W V E : Type} `{Entity W V E}.
Implicit Types (e : engine E) (ent : E) (id : string).

Lemma queue_Enqueue ent t e :
  queue (Enqueue ent t e) !! GetID ent
  = Some (match queue e !! GetID ent with Some d => Z.min d t | None => t end).
Proof.
  unfold Enqueue. simpl. destruct (queue e !! GetID ent) as [d|] eqn:Hq.
  - case_bool_decide.
    + rewrite Hq. f_equal. lia.
    + unfold Schedule. rewrite lookup_insert_eq. f_equal. lia.
  - unfold Schedule. by rewrite lookup_insert_eq.
Qed.

Lemma queue_Enqueue_other ent t e id :
  id ≠ GetID ent → queue (Enqueue ent t e) !! id = queue e !! id.
Proof.
  intros Hne. unfold Enqueue, Schedule. simpl.
  destruct (queue e !! GetID ent) as [d|]; [case_bool_decide|]; try done;
    by rewrite lookup_insert_ne.
Qed.

Lemma registered_Enqueue ent t e : is_Some (entityMap (Enqueue ent t e) !! GetID ent).
Proof.
  unfold Enqueue. simpl. destruct (entityMap e !! GetID ent) eqn:Hm.
  - rewrite Hm. eauto.
  - rewrite lookup_insert_eq. eauto.
Qed.

Lemma Enqueue_scheduled ent t e : IsScheduled ent (Enqueue ent t e) = true.
Proof. unfold IsScheduled. apply bool_decide_eq_true_2. rewrite queue_Enqueue. eauto. Qed.

Lemma Enqueue_kept ent t e d :
  is_Some (entityMap e !! GetID ent) → queue e !! GetID ent = Some d → d ≤ t →
  Enqueue ent t e = e.
Proof.
  intros [it Hit] Hq Hle. unfold Enqueue. simpl. rewrite Hit, Hq.
  rewrite bool_decide_eq_true_2 by done. by destruct e.
Qed.

Lemma execute_nil ent w : execute (W:=W) [] ent w = (w, false).
Proof. reflexivity. Qed.

Lemma setDelay_lookup id d e it :
  entityMap e !! id = Some it →
  entityMap (setDelay id d e) !! id = Some (mkItem (entity it) d).
Proof. intros Hit. unfold setDelay. simpl. by rewrite lookup_alter_eq, Hit. Qed.

Lemma setDelay_queue id d e : queue (setDelay id d e) = queue e.
Proof. reflexivity. Qed.

(** The delay after a failure stays between the floor and the ceiling
    whenever the floor does not exceed the ceiling. *)
Lemma backoff_bounds e d :
  failureRetryDelay e ≤ maxRetryDelay e →
  failureRetryDelay e ≤ backoff e d ≤ maxRetryDelay e.
Proof. unfold backoff. lia. Qed.

(** After [n + 1] failures in a row, starting from no delay, the delay
    is the floor doubled [n] times, capped at the ceiling. *)
Lemma backoff_after_failures e (n : nat) :
  0 < failureRetryDelay e ≤ maxRetryDelay e →
  Nat.iter (S n) (backoff e) 0
  = Z.min (failureRetryDelay e * 2 ^ Z.of_nat n) (maxRetryDelay e).
Proof.
  intros Hcfg. induction n as [|n IH].
  - simpl. unfold backoff. lia.
  - rewrite Nat.iter_succ, IH. unfold backoff.
    replace (2 ^ Z.of_nat (S n)) with (2 * 2 ^ Z.of_nat n)
      by (rewrite Nat2Z.inj_succ, Z.pow_succ_r; lia).
    assert (0 < 2 ^ Z.of_nat n) by (apply Z.pow_pos_nonneg; lia).
    destruct (Z.min_spec (failureRetryDelay e * 2 ^ Z.of_nat n) (maxRetryDelay e))
      as [[Hlt ->]|[Hge ->]]; nia.
Qed.

(** C1: for every registered entity whose action list run fails, the
    engine sets the entity's delay to
    [min (max (delay * 2) failureRetryDelay) maxRetryDelay] and
    reschedules it at [now + delay]; when every action of the run
    returns no error the delay is reset to 0.  The world is the one the
    executed actions left. *)
Theorem runActions_backoff e id item now w :
  entityMap e !! id = Some item →
  let ent := entity item in
  let r := execute (GetActionList ent (GetState ent) (GetGoalState ent)) ent w in
  let e' := (runActions id now e w).1 in
  (runActions id now e w).2 = r.1 ∧
  (r.2 = true →
   let d := Z.min (Z.max (delay item * 2) (failureRetryDelay e)) (maxRetryDelay e) in
   entityMap e' !! id = Some (mkItem ent d) ∧ queue e' !! id = Some (now + d)) ∧
  (r.2 = false → entityMap e' !! id = Some (mkItem ent 0) ∧ queue e' = queue e).
Proof.
  intros Hit ent r e'. subst r e'. unfold runActions. rewrite Hit. fold ent.
  destruct (GetActionList ent (GetState ent) (GetGoalState ent)) as [|a acts] eqn:Hacts.
  - simpl. split; [done|]. split; [done|]. intros _.
    split; [by apply setDelay_lookup|done].
  - destruct (execute (a :: acts) ent w) as [w' failed] eqn:Hex. simpl.
    destruct failed; simpl.
    + split; [done|]. split; [|done]. intros _. split.
      * by apply setDelay_lookup.
      * unfold Schedule. by rewrite lookup_insert_eq.
    + split; [done|]. split; [done|]. intros _.
      split; [by apply setDelay_lookup|done].
Qed.

(** C2: for every entity and instants [t1], [t2], [Enqueue(e, t1)]
    followed by [Enqueue(e, t2)] leaves the entity registered and
    scheduled no later than [min t1 t2]; an earlier deadline already in
    the queue is kept, a later one is tightened to the new one, an
    unscheduled entity is scheduled at the new one; and [Enqueue] is
    idempotent. *)
Theorem Enqueue_twice e ent t1 t2 :
  let id := GetID ent in
  let e2 := Enqueue ent t2 (Enqueue ent t1 e) in
  (is_Some (entityMap e2 !! id) ∧ ∃ d, queue e2 !! id = Some d ∧ d ≤ Z.min t1 t2) ∧
  (∀ d, queue e !! id = Some d → d ≤ t1 → queue (Enqueue ent t1 e) !! id = Some d) ∧
  (∀ d, queue e !! id = Some d → t1 < d → queue (Enqueue ent t1 e) !! id = Some t1) ∧
  (queue e !! id = None → queue (Enqueue ent t1 e) !! id = Some t1) ∧
  Enqueue ent t1 (Enqueue ent t1 e) = Enqueue ent t1 e.
Proof.
  intros id e2. subst id e2. repeat split.
  - apply registered_Enqueue.
  - rewrite !queue_Enqueue. eexists; split; [done|].
    destruct (queue e !! GetID ent); lia.
  - intros d Hq Hle. rewrite queue_Enqueue, Hq. f_equal. lia.
  - intros d Hq Hlt. rewrite queue_Enqueue, Hq. f_equal. lia.
  - intros Hq. by rewrite queue_Enqueue, Hq.
  - eapply Enqueue_kept; [apply registered_Enqueue|apply queue_Enqueue|].
    destruct (queue e !! GetID ent); lia.
Qed.

End EngineProofs.

(** The failing entity of the tests, registered with a delay of 100ms:
    its next failure doubles the delay up to the ceiling of 200ms. *)
Lemma runActions_backoff_witness :
  let e := (processItem 0 (Enqueue failing0 0 testEngine) (mkWorld [] 0)).1 in
  let e' := (runActions "0" 1000 e (mkWorld ["0"] 1)).1 in
  entityMap e' !! "0" = Some (mkItem failing0 200) ∧ queue e' !! "0" = Some 1200.
Proof.
  pose proof (runActions_backoff
                (processItem 0 (Enqueue failing0 0 testEngine) (mkWorld [] 0)).1
                "0" (mkItem failing0 100) 1000 (mkWorld ["0"] 1) eq_refl) as H.
  destruct H as (_ & Hfail & _). apply Hfail. reflexivity.
Defined.

Lemma Enqueue_twice_witness :
  let e1 := Enqueue failing0 30 testEngine in
  queue (Enqueue failing0 60 e1) !! "0" = Some 30 ∧
  queue (Enqueue failing0 0 e1) !! "0" = Some 0.
Proof.
  split.
  - destruct (Enqueue_twice (Enqueue failing0 30 testEngine) failing0 60 0)
      as (_ & Hkeep & _).
    apply Hkeep; [reflexivity|lia].
  - destruct (Enqueue_twice (Enqueue failing0 30 testEngine) failing0 0 0)
      as (_ & _ & Htight & _).
    apply (Htight 30); [reflexivity|lia].
Defined.

(** [TestMultiRequeue]: enqueued at 30s, again at 60s and again at 0,
    the entity sits once in the queue, at 0, and one turn runs its one
    action. *)
Example multi_requeue :
  let ent := newTestEntity "7" stateValue goalStateValue in
  let e1 := Enqueue (E:=testEntity) ent 60000 (Enqueue ent 30000 testEngine) in
  let e := Enqueue ent 0 e1 in
  queue e1 !! "7" = Some 30000 ∧ queue e = {[ "7" := 0 ]} ∧
  let r := processItems [0; 30000; 60000] e (mkWorld [] 0) in
  idList r.2 = ["7"] ∧ queue r.1 = ∅ ∧ delay <$> entityMap r.1 !! "7" = Some 0.
Proof. vm_compute. repeat split; reflexivity. Qed.

Example failing_run :
  let e0 := Enqueue failing0 0 testEngine in
  let r1 := processItem 0 e0 (mkWorld [] 0) in
  let r2 := processItem 1000 r1.1 r1.2 in
  let r3 := processItem 2000 r2.1 r2.2 in
  let r4 := processItem 3000 r3.1 r3.2 in
  (delay <$> entityMap r1.1 !! "0", queue r1.1 !! "0") = (Some 100, Some 100) ∧
  (delay <$> entityMap r2.1 !! "0", queue r2.1 !! "0") = (Some 200, Some 1200) ∧
  (delay <$> entityMap r3.1 !! "0", queue r3.1 !! "0") = (Some 200, Some 2200) ∧
  (delay <$> entityMap r4.1 !! "0", queue r4.1 !! "0") = (Some 0, None) ∧
  idList r4.2 = ["0"; "0"; "0"; "0"].
Proof. vm_compute. repeat split; reflexivity. Qed.

End GoalstateProofs.

(* ===================================================================== *)
(** * Properties of the Mesos plugin                                      *)
(* ===================================================================== *)

Module MesosProofs.
Import Mesos.
Local Open Scope Z_scope.

(** ** Status updates *)

Section UpdateProofs.
Context {TaskConfig MState Reason Timestamp : Type}.
Variable k : codecs MState Reason Timestamp.

(** C10: for every UPDATE event, the pod event [Update] publishes down
    stream is the one built from the status; its Hostname field is the
    value of the status's agent id (the same as its AgentId field), and
    its Healthy field is HEALTH_STATE_HEALTHY exactly when the status's
    healthy flag is true and HEALTH_STATE_UNHEALTHY otherwise. *)
Theorem Update_hostname_healthy (evt : Event_Update MState Reason Timestamp)
    (m : MesosManager TaskConfig) :
  let pe := buildPodEventFromMesosTaskStatus k evt in
  podEventCh (Update k evt m) = podEventCh m ++ [pe] ∧
  pe_Hostname (Event pe) = GetAgentId evt ∧
  pe_Hostname (Event pe) = pe_AgentId (Event pe) ∧
  (GetHealthy evt = true → pe_Healthy (Event pe) = "HEALTH_STATE_HEALTHY") ∧
  (GetHealthy evt = false → pe_Healthy (Event pe) = "HEALTH_STATE_UNHEALTHY") ∧
  (pe_Healthy (Event pe) = "HEALTH_STATE_HEALTHY" ↔ GetHealthy evt = true).
Proof.
  simpl. repeat split; try done.
  - by intros ->.
  - by intros ->.
  - by destruct (GetHealthy evt).
  - by intros ->.
Qed.

End UpdateProofs.

(** An update of a healthy task on agent [agent1]. *)
Lemma Update_hostname_healthy_witness :
  let evt := mkEventUpdate
               (Some (mkTaskStatus (Some "pod-1") (Some "TASK_RUNNING") None None
                                   (Some "agent1") (Some 0) "uuid-1" (Some true))) in
  let pe := Event (buildPodEventFromMesosTaskStatus plainCodecs evt) in
  pe_Hostname pe = "agent1" ∧ pe_Healthy pe = "HEALTH_STATE_HEALTHY".
Proof.
  pose proof (Update_hostname_healthy (TaskConfig:=string) plainCodecs
                (mkEventUpdate
                   (Some (mkTaskStatus (Some "pod-1") (Some "TASK_RUNNING") None None
                                       (Some "agent1") (Some 0) "uuid-1" (Some true))))
                (NewMesosManager 60)) as (_ & Hhost & _ & Hok & _).
  split; [exact Hhost|by apply Hok].
Defined.

(** ** Acknowledgements *)

Section AckProofs.
Context {TaskConfig : Type}.
Variable driverFrameworkID : string.
Implicit Types (m : MesosManager TaskConfig) (pe : PodEvent).

Abbreviation run := (run (TaskConfig:=TaskConfig) driverFrameworkID).
Abbreviation step := (step (TaskConfig:=TaskConfig) driverFrameworkID).
Abbreviation ack_step := (ack_step (TaskConfig:=TaskConfig) driverFrameworkID).

(** [Start] starts as many workers as [updateAckConcurrency] says. *)
Lemma Start_spawns m :
  ackWorkers (Start m)
  = ackWorkers m ++ replicate (Z.to_nat (updateAckConcurrency m)) AwRecv.
Proof. reflexivity. Qed.




Lemma run_snoc acts a m : run (acts ++ [a]) m = step (run acts m) a.
Proof. unfold Mesos.run. by rewrite foldl_app. Qed.

Lemma pushed_snoc acts a :
  pushed (acts ++ [a])
  = pushed acts ++ match a with AAckPodEvent event => [event] | _ => [] end.
Proof. unfold pushed. rewrite omap_app. by destruct a. Qed.

(** With no worker the channel only fills. *)
Lemma no_worker_inv (offerHoldTime : Z) (acts : list action) :
  let m := run acts (Start (NewMesosManager (TaskConfig:=TaskConfig) offerHoldTime)) in
  updateAckConcurrency m = 0 ∧ ackWorkers m = [] ∧ sent m = [] ∧
  ackChannel m = take mesosTaskUpdateAckChanSize (pushed acts).
Proof.
  induction acts as [|a acts IH] using rev_ind; [done|].
  rewrite run_snoc, pushed_snoc. cbv zeta in IH. destruct IH as (Hc & Hw & Hs & Hch).
  set (m := run acts (Start (NewMesosManager offerHoldTime))) in *.
  destruct a as [|event|i]; cbv zeta; unfold Mesos.step.
  - unfold Start, startAsyncProcessTaskUpdates, with_ackWorkers.
    cbn [updateAckConcurrency ackWorkers sent ackChannel].
    rewrite Hw, Hc, Hs, Hch. repeat split. by rewrite app_nil_r.
  - unfold AckPodEvent.
    case_bool_decide as Hlen;
      cbn [default with_ackChannel updateAckConcurrency ackWorkers sent ackChannel].
    + rewrite Hch, length_take in Hlen. rewrite Hch.
      split; [done|]. split; [done|]. split; [done|].
      rewrite !firstn_all2; [done| |lia].
      rewrite length_app. simpl. lia.
    + rewrite Hch, length_take in Hlen.
      split; [done|]. split; [done|]. split; [done|]. rewrite Hch.
      rewrite take_app_le by lia. done.
  - unfold worker_step. rewrite Hw. cbn [lookup list_lookup].
    repeat split; try done. by rewrite app_nil_r.
Qed.
(** C9: a manager built by [NewMesosManager] has [updateAckConcurrency]
    0, so [Start] starts exactly that many ack workers, none; and then,
    whatever sequence of [Start], [AckPodEvent] and worker turns follows,
    there is no ack worker, no call is sent, and the ack channel holds
    the first [mesosTaskUpdateAckChanSize] = 1000 events pushed, of which
    none is ever consumed. *)
Theorem NewMesosManager_no_ack_worker (offerHoldTime : Z) (acts : list action) :
  let m0 := NewMesosManager (TaskConfig:=TaskConfig) offerHoldTime in
  let m := run acts (Start m0) in
  updateAckConcurrency m0 = 0 ∧
  length (ackWorkers (Start m0)) = Z.to_nat (updateAckConcurrency m0) ∧
  ackWorkers m = [] ∧ sent m = [] ∧
  ackChannel m = take mesosTaskUpdateAckChanSize (pushed acts) ∧
  mesosTaskUpdateAckChanSize = 1000%nat.
Proof.
  intros m0 m. destruct (no_worker_inv offerHoldTime acts) as (_ & Hw & Hs & Hch).
  split; [reflexivity|]. split; [reflexivity|]. split; [exact Hw|].
  split; [exact Hs|]. split; [exact Hch|reflexivity].
Qed.

End AckProofs.





(** Every manager built by [NewMesosManager] is one with
    [updateAckConcurrency] 0 and has no ack worker, however it is run. *)
Lemma built_manager_no_worker {T} fid (holdTime : Z) (acts : list action) :
  NewMesosManager (TaskConfig:=T) holdTime = managerWithAckWorkers 0 holdTime ∧
  (length (ackWorkers (run fid acts (NewMesosManager (TaskConfig:=T) holdTime))) ≤ 1)%nat.
Proof.
  split; [reflexivity|].
  change (NewMesosManager holdTime) with (Start (NewMesosManager (TaskConfig:=T) holdTime)).
  destruct (no_worker_inv (TaskConfig:=T) fid holdTime acts) as (_ & Hw & _).
  rewrite Hw. simpl. lia.
Qed.

(** With two ack workers, which no manager built by [NewMesosManager]
    has, the operations of the map interleave: the same status update
    (event id [uuid-1]) is pushed twice, both workers receive their copy
    and [Load] the id before either has [Store]d it, so neither finds
    it: both store it, both send an ACKNOWLEDGE, and the two calls for
    [uuid-1] are in flight at the same time, with no duplicate counted.
    This is why the guarantee below is stated for at most one worker. *)
Example two_ack_workers_same_id :
  let m0 := run "driver" [AStart; AAckPodEvent updateEvent; AAckPodEvent updateEvent]
                managerWithTwoAckWorkers in
  let m := run "driver" (AWorker <$> [0; 1; 0; 1; 0; 1; 0; 1]%nat) m0 in
  inFlight "uuid-1" m = [AwInFlight updateEvent; AwInFlight updateEvent] ∧
  sent m = [Call_ACKNOWLEDGE "driver" "agent1" "pod-1" "uuid-1";
            Call_ACKNOWLEDGE "driver" "agent1" "pod-1" "uuid-1"] ∧
  TaskUpdateAckDeDupe (metrics_ m) = 0.
Proof. vm_compute. repeat split; reflexivity. Qed.



(** The same two events taken by one worker after the other are
    acknowledged one at a time. *)
Example ack_one_after_the_other :
  let m0 := run "driver" [AStart; AAckPodEvent updateEvent; AAckPodEvent updateEvent]
                managerWithTwoAckWorkers in
  let m := run "driver" (AWorker <$> [0; 0; 0; 0; 1; 1]%nat) m0 in
  inFlight "uuid-1" m = [AwInFlight updateEvent] ∧
  ackWorkers m = [AwInFlight updateEvent; AwRecv] ∧
  TaskUpdateAckDeDupe (metrics_ m) = 1.
Proof. vm_compute. repeat split; reflexivity. Qed.

(** ** Launching pods *)

Section LaunchProofs.
Context {PodSpec TaskConfig Builder : Type}.
Variable c : collaborators PodSpec TaskConfig Builder.
Implicit Types (m : MesosManager TaskConfig) (pods : list (LaunchablePod PodSpec)).

Lemma buildTasks_agent builder agentID pods mesosTasks :
  buildTasks c builder agentID pods = inr mesosTasks →
  Forall (λ t, ti_AgentId t = agentID) mesosTasks ∧ length mesosTasks = length pods.
Proof.
  revert builder mesosTasks. induction pods as [|pod pods IH]; intros builder mesosTasks.
  - intros [= <-]. by split.
  - simpl. destruct (convertPodSpecToLaunchableTask c (PodId pod) (Spec pod)) as [err|lt];
      [done|].
    destruct (Build c builder lt) as [[err|t] builder']; [done|].
    destruct (buildTasks c builder' agentID pods) as [err|ts] eqn:Hrest; [done|].
    intros [= <-]. destruct (IH _ _ Hrest) as [Hall Hlen].
    split; [by constructor|simpl; by rewrite Hlen].
Qed.

Lemma visited_all (offers : gmap string Offer) :
  (rangeOffers c offers).*2 ≡ₚ (map_to_list offers).*2.
Proof. by rewrite (rangeOffers_perm c offers). Qed.

Lemma rangeOffers_empty : rangeOffers c ∅ = [].
Proof.
  apply Permutation_nil_r. rewrite (rangeOffers_perm c ∅). by rewrite map_to_list_empty.
Qed.

Lemma rangeOffers_nonempty (offers : gmap string Offer) :
  offers ≠ ∅ → rangeOffers c offers ≠ [].
Proof.
  intros Hne Hnil. apply Hne, map_to_list_empty_iff, Permutation_nil_r.
  by rewrite <- (rangeOffers_perm c offers), Hnil.
Qed.

Lemma rangeOffers_elem (offers : gmap string Offer) key o :
  (key, o) ∈ rangeOffers c offers → offers !! key = Some o.
Proof. rewrite (rangeOffers_perm c offers). apply elem_of_map_to_list. Qed.

Lemma GetOffers_Remove hostname om : GetOffers hostname (RemoveOfferForHost hostname om) = ∅.
Proof. unfold GetOffers, RemoveOfferForHost. simpl. by rewrite lookup_delete_eq. Qed.

(** C4 (amended): for every host and pod list, [LaunchPods] fails with
    the NoOffer error when the offer manager holds no offer for the
    host, with no call and the manager, offers included, unchanged.
    Otherwise it visits all offers of the host; if the conversion or the
    build of some pod fails it returns that error, again with no call
    and nothing changed; if every pod is built, all tasks carry the
    agent id of the first offer visited (the one agent id when the
    offers of the host share it), exactly one call is issued, an ACCEPT
    with the ids of all offers of the host and one LAUNCH operation
    holding the tasks, and when that call succeeds the pods are returned
    and the whole bucket of the host is removed, while on its failure
    the offers stay. *)
Theorem LaunchPods_spec pods hostname m :
  let offers := GetOffers hostname (offers_ m) in
  let visited := (rangeOffers c offers).*2 in
  let r := LaunchPods c pods hostname m in
  visited ≡ₚ (map_to_list offers).*2 ∧
  (offers = ∅ → r = (inl (NoOfferFound hostname), m)) ∧
  (offers ≠ ∅ →
   ∃ first, head visited = Some first ∧
     let agentID := offers !! Id first ≫= AgentId in
     (∀ A, (∀ key o, offers !! key = Some o → Id o = key ∧ AgentId o = A) → agentID = A) ∧
     match buildTasks c (NewBuilder c (visited ≫= Resources)) agentID pods with
     | inl err => r = (inl err, m)
     | inr mesosTasks =>
         Forall (λ t, ti_AgentId t = agentID) mesosTasks ∧
         length mesosTasks = length pods ∧
         let msg := Call_ACCEPT (GetFrameworkID c) (Id <$> visited) [mesosTasks] in
         sent r.2 = sent m ++ [msg] ∧
         match schedulerCall c msg with
         | None => r.1 = inr pods ∧
                   offers_ r.2 = RemoveOfferForHost hostname (offers_ m) ∧
                   GetOffers hostname (offers_ r.2) = ∅
         | Some err => r.1 = inl err ∧ offers_ r.2 = offers_ m
         end
     end).
Proof.
  intros offers visited r. split; [apply visited_all|]. split.
  - intros Hemp. subst r. unfold LaunchPods. fold offers. rewrite Hemp.
    by rewrite rangeOffers_empty.
  - intros Hne. pose proof (rangeOffers_nonempty offers Hne) as Hvis.
    subst r visited. unfold LaunchPods. fold offers.
    destruct (rangeOffers c offers) as [|[key first] rest] eqn:Hrange; [done|].
    exists first. split; [done|]. cbn [fmap list_fmap snd head].
    split.
    + intros A HA.
      assert (Hin : offers !! key = Some first).
      { apply rangeOffers_elem. rewrite Hrange. by left. }
      destruct (HA key first Hin) as [-> HAg]. by rewrite Hin.
    + cbv zeta.
      destruct (buildTasks c _ _ pods) as [err|mesosTasks] eqn:Hbuild; [done|].
      destruct (buildTasks_agent _ _ _ _ Hbuild) as [Hall Hlen].
      split; [done|]. split; [done|].
      destruct (schedulerCall c _) as [err|] eqn:Hcall; simpl.
      * done.
      * split; [done|]. split; [done|]. split; [done|]. apply GetOffers_Remove.
Qed.

End LaunchProofs.

Lemma managerWithOffers_host1 : GetOffers "host1" (offers_ managerWithOffers) ≠ ∅.
Proof.
  intros Hemp.
  assert (H : GetOffers "host1" (offers_ managerWithOffers) !! "o1" = Some offer1)
    by (vm_compute; reflexivity).
  rewrite Hemp in H. by rewrite lookup_empty in H.
Qed.

(** C4, as stated, fails: the host has offers, but the second pod does
    not convert, and [LaunchPods] returns the error without any call. *)
Lemma LaunchPods_unbuilt_pod_no_call :
  ¬ (∀ (c : collaborators string string (list Resource))
       (pods : list (LaunchablePod string)) (hostname : string) (m : MesosManager string),
       GetOffers hostname (offers_ m) ≠ ∅ →
       ∃ offerIds mesosTasks,
         sent (LaunchPods c pods hostname m).2
         = sent m ++ [Call_ACCEPT (GetFrameworkID c) offerIds [mesosTasks]]).
Proof.
  intros H.
  destruct (H plainCollaborators [mkPod "pod-1" "web"; mkPod "pod-2" "bad"]
              "host1" managerWithOffers managerWithOffers_host1)
    as (offerIds & mesosTasks & Hsent).
  vm_compute in Hsent. discriminate.
Qed.

Lemma LaunchPods_spec_witness :
  LaunchPods plainCollaborators [mkPod "pod-1" "web"] "host9" managerWithOffers
  = (inl (NoOfferFound "host9"), managerWithOffers) ∧
  ∃ first,
    head (rangeOffers plainCollaborators (GetOffers "host1" (offers_ managerWithOffers))).*2
    = Some first.
Proof.
  split.
  - destruct (LaunchPods_spec plainCollaborators [mkPod "pod-1" "web"] "host9"
                managerWithOffers) as (_ & Hnone & _).
    apply Hnone. reflexivity.
  - destruct (LaunchPods_spec plainCollaborators [mkPod "pod-1" "web"] "host1"
                managerWithOffers) as (_ & _ & Hsome).
    destruct (Hsome managerWithOffers_host1) as (first & Hhead & _).
    exists first. exact Hhead.
Defined.

Example launch_ok :
  let r := LaunchPods plainCollaborators [mkPod "pod-1" "web"; mkPod "pod-2" "db"]
                      "host1" managerWithOffers in
  r.1 = inr [mkPod "pod-1" "web"; mkPod "pod-2" "db"] ∧
  sent r.2 = [Call_ACCEPT "framework" ["o1"; "o2"]
                [[mkTaskInfo "pod-1" (Some "agent1") "web";
                  mkTaskInfo "pod-2" (Some "agent1") "db"]]] ∧
  GetOffers "host1" (offers_ r.2) = ∅.
Proof. vm_compute. repeat split; reflexivity. Qed.

Example launch_bad :
  LaunchPods plainCollaborators [mkPod "pod-1" "web"; mkPod "pod-2" "bad"]
             "host1" managerWithOffers
  = (inl (Failure "invalid pod spec"), managerWithOffers).
Proof. vm_compute. reflexivity. Qed.

End MesosProofs.

(* ===================================================================== *)
(** * Laws of the priority queue                                          *)
(* ===================================================================== *)

Module QueueLaws.
Import Queue QueueProofs.
Local Open Scope Z_scope.

Lemma GetHighestLevel_unique (m : MultiLevelList) p :
  is_Some (m !! p) → (∀ j, is_Some (m !! j) → j ≤ p) → GetHighestLevel m = p.
Proof.
  intros Hp Hmax.
  assert (Hne : m ≠ ∅).
  { intros ->. rewrite lookup_empty in Hp. by destruct Hp. }
  pose proof (GetHighestLevel_registered m Hne) as Hreg.
  pose proof (GetHighestLevel_max m p Hp). specialize (Hmax _ Hreg). lia.
Qed.

Lemma filed_empty : filed ∅.
Proof. intros p l Hp. by rewrite lookup_empty in Hp. Qed.

Lemma filed_Push x (m : MultiLevelList) : filed m → filed (Push (Priority x) x m).
Proof.
  intros Hf q l. unfold Push. destruct (decide (Priority x = q)) as [<-|Hne].
  - rewrite lookup_insert_eq. intros [= <-]. apply Forall_app. split; [|by constructor].
    destruct (m !! Priority x) as [l0|] eqn:Hl0; simpl; [by apply (Hf _ _ Hl0)|constructor].
  - rewrite lookup_insert_ne by done. apply Hf.
Qed.

Lemma Pop_Some p (m m' : MultiLevelList) x :
  Pop p m = Some (x, m') →
  ∃ rest, m !! p = Some (x :: rest) ∧
          m' !! p = (if decide (rest = []) then None else Some rest) ∧
          ∀ q, q ≠ p → m' !! q = m !! q.
Proof.
  unfold Pop. destruct (m !! p) as [[|y rest]|] eqn:Hp; try done.
  intros [= -> <-]. exists rest. split; [done|]. destruct rest as [|z rest]; simpl.
  - split; [apply lookup_delete_eq|]. intros q Hq. by apply lookup_delete_ne.
  - split; [apply lookup_insert_eq|]. intros q Hq. by apply lookup_insert_ne.
Qed.

Lemma filed_Pop p (m m' : MultiLevelList) x :
  filed m → Pop p m = Some (x, m') → filed m' ∧ Priority x = p.
Proof.
  intros Hf Hpop. destruct (Pop_Some _ _ _ _ Hpop) as (rest & Hp & Hp' & Hother).
  pose proof (Hf _ _ Hp) as Hall. apply Forall_cons in Hall as [Hx Hrest].
  split; [|done]. intros q l Hq. destruct (decide (q = p)) as [->|Hne].
  - rewrite Hp' in Hq. case_decide; [done|]. by injection Hq as <-.
  - rewrite (Hother q Hne) in Hq. by apply (Hf _ _ Hq).
Qed.

Lemma sumLen_zero_empty (m : MultiLevelList) : mll_wf m → sumLen m = 0%nat → m = ∅.
Proof.
  intros Hwf Hz. apply map_empty. intros p. destruct (m !! p) as [l|] eqn:Hp; [|done].
  pose proof (sumLen_delete m p l Hp). destruct l; [by apply Hwf in Hp|simpl in *; lia].
Qed.

(** X1: An item enqueued above every level of the queue is the next one
    dequeued, and the queue is then what it was: list, limit and count. *)
Theorem Enqueue_Dequeue_roundtrip (f : PriorityQueue) (ti : TaskItem) :
  pq_inv f → pq_count f < pq_limit f →
  (∀ p, is_Some (pq_list f !! p) → p < Priority ti) →
  (Enqueue ti f).2 = None ∧ Dequeue (Enqueue ti f).1 = (ti, None, f).
Proof.
  intros (Hwf & Hc & Hcm & Hlm) Hroom Hbelow.
  assert (Hfresh : pq_list f !! Priority ti = None).
  { destruct (pq_list f !! Priority ti) eqn:Hp; [|done].
    assert (Priority ti < Priority ti) by (apply Hbelow; rewrite Hp; eauto). lia. }
  unfold Enqueue. rewrite bool_decide_eq_false_2 by lia. simpl. split; [done|].
  assert (Hpush : Push (Priority ti) ti (pq_list f) = <[Priority ti := [ti]]> (pq_list f)).
  { unfold Push. by rewrite Hfresh. }
  rewrite Hpush.
  assert (Hhigh : GetHighestLevel (<[Priority ti := [ti]]> (pq_list f)) = Priority ti).
  { apply GetHighestLevel_unique; [rewrite lookup_insert_eq; eauto|].
    intros j Hj. destruct (decide (Priority ti = j)) as [->|Hne]; [lia|].
    rewrite lookup_insert_ne in Hj by done. specialize (Hbelow j Hj). lia. }
  rewrite (Dequeue_Some _ ti (pq_list f)); simpl.
  - assert (Hsum : 0 ≤ Z.of_nat (sumLen (pq_list f))) by lia.
    rewrite (int64_id (pq_count f + 1)) by (unfold maxInt64 in *; lia).
    rewrite int64_id by (unfold maxInt64 in *; lia).
    replace (pq_count f + 1 - 1) with (pq_count f) by lia. by destruct f.
  - rewrite Hhigh. unfold Pop. rewrite lookup_insert_eq.
    by rewrite delete_insert_eq, delete_id.
Qed.

Lemma Enqueue_Dequeue_roundtrip_witness :
  Dequeue (Enqueue (mkTaskItem 5 "c") q2).1 = (mkTaskItem 5 "c", None, q2).
Proof.
  apply (Enqueue_Dequeue_roundtrip q2 (mkTaskItem 5 "c")).
  - apply (run_ops_inv [OpEnqueue a2; OpEnqueue b1] 10). vm_compute. discriminate.
  - reflexivity.
  - intros p [l Hp]. simpl.
    destruct (decide (p = 2)) as [->|H2]; [lia|].
    destruct (decide (p = 1)) as [->|H1]; [lia|].
    assert (E : pq_list q2 = <[1 := [b1]]> (<[2 := [a2]]> ∅)) by reflexivity.
    rewrite E in Hp. rewrite !lookup_insert_ne in Hp by done.
    by rewrite lookup_empty in Hp.
Defined.

(** ** The order of dequeuing *)

Lemma drain_order (n : nat) (f : PriorityQueue) :
  pq_inv f → filed (pq_list f) → sumLen (pq_list f) = n →
  let ys := (drain n f).1 in
  length ys = n ∧ StronglySorted higher_first ys ∧
  (∀ p, filter (λ x, Priority x = p) ys = default [] (pq_list f !! p)) ∧
  pq_list (drain n f).2 = ∅ ∧ pq_count (drain n f).2 = 0.
Proof.
  revert f. induction n as [|n IH]; intros f Hinv Hfiled Hn.
  - destruct Hinv as (Hwf & Hc & _). simpl.
    pose proof (sumLen_zero_empty _ Hwf Hn) as Hemp.
    split; [done|]. split; [constructor|]. split; [|split; [done|lia]].
    intros p. by rewrite Hemp, lookup_empty.
  - pose proof Hinv as (Hwf & Hc & Hcm & Hlm).
    assert (Hne : pq_list f ≠ ∅) by (apply sumLen_pos_nonempty; lia).
    destruct (Pop_highest _ Hwf Hne) as [[x m'] Hpop].
    pose proof (pq_inv_Dequeue f Hinv) as Hinv'.
    simpl. rewrite (Dequeue_Some f x m' Hpop) in *. simpl in Hinv'.
    set (f' := {| pq_list := m'; pq_limit := pq_limit f;
                  pq_count := int64 (pq_count f - 1) |}) in *.
    destruct (filed_Pop _ _ _ _ Hfiled Hpop) as [Hfiled' Hx].
    pose proof (sumLen_Pop _ _ _ _ Hpop) as Hs.
    destruct (IH f' Hinv' Hfiled' ltac:(simpl; lia)) as (Hlen & Hsort & Hfil & Hend).
    destruct (drain n f') as [ys f''] eqn:Hdrain. simpl in *.
    destruct (Pop_Some _ _ _ _ Hpop) as (rest & Hp & Hp' & Hother).
    split; [by rewrite Hlen|]. split; [|split; [|done]].
    + constructor; [done|]. apply Forall_forall. intros y Hy.
      assert (Hyin : y ∈ filter (λ z, Priority z = Priority y) ys)
        by (apply list_elem_of_filter; done).
      rewrite Hfil in Hyin.
      destruct (m' !! Priority y) as [l|] eqn:Hl; simpl in Hyin; [|by apply elem_of_nil in Hyin].
      unfold higher_first. rewrite Hx. apply GetHighestLevel_max.
      destruct (decide (Priority y = GetHighestLevel (pq_list f))) as [->|Hney];
        [rewrite Hp; eauto|].
      rewrite <- (Hother _ Hney), Hl. eauto.
    + intros p. rewrite filter_cons. destruct (decide (p = GetHighestLevel (pq_list f)))
        as [->|Hnep].
      * rewrite decide_True by done. rewrite Hfil, Hp', Hp. by case_decide; subst.
      * rewrite decide_False by congruence. by rewrite Hfil, (Hother _ Hnep).
Qed.

Lemma level_Push x (m : MultiLevelList) q :
  default [] (Push (Priority x) x m !! q)
  = default [] (m !! q) ++ filter (λ y, Priority y = q) [x].
Proof.
  unfold Push. rewrite filter_cons, filter_nil.
  destruct (decide (Priority x = q)) as [<-|Hne].
  - by rewrite lookup_insert_eq.
  - rewrite lookup_insert_ne by done. by rewrite app_nil_r.
Qed.

Lemma enqueue_all (xs : list TaskItem) (f : PriorityQueue) :
  pq_inv f → filed (pq_list f) → pq_count f + Z.of_nat (length xs) ≤ pq_limit f →
  let g := run_ops (OpEnqueue <$> xs) f in
  pq_inv g ∧ filed (pq_list g) ∧
  sumLen (pq_list g) = (sumLen (pq_list f) + length xs)%nat ∧
  ∀ p, default [] (pq_list g !! p)
       = default [] (pq_list f !! p) ++ filter (λ y, Priority y = p) xs.
Proof.
  revert f. induction xs as [|x xs IH]; intros f Hinv Hfiled Hroom.
  - simpl. split; [done|]. split; [done|]. split; [lia|]. intros p. by rewrite app_nil_r.
  - cbv zeta.
    change (run_ops (OpEnqueue <$> x :: xs) f)
      with (run_ops (OpEnqueue <$> xs) (Enqueue x f).1).
    rewrite length_cons in *. pose proof Hinv as (Hwf & Hc & Hcm & Hlm).
    pose proof (pq_inv_Enqueue x f Hinv) as Hinv1.
    assert (Hen : (Enqueue x f).1
                  = {| pq_list := Push (Priority x) x (pq_list f); pq_limit := pq_limit f;
                       pq_count := pq_count f + 1 |}).
    { unfold Enqueue. rewrite bool_decide_eq_false_2 by lia. simpl.
      rewrite int64_id; [done|]. unfold maxInt64 in *. lia. }
    destruct (IH (Enqueue x f).1) as (Hinv2 & Hfiled2 & Hsum & Hlev).
    + done.
    + rewrite Hen. simpl. by apply filed_Push.
    + rewrite Hen. simpl. lia.
    + split; [done|]. split; [done|]. split.
      * rewrite Hsum, Hen. simpl. rewrite sumLen_Push. lia.
      * intros p. rewrite Hlev, Hen. simpl.
        rewrite level_Push, <- app_assoc. f_equal.
        change (x :: xs) with ([x] ++ xs). by rewrite filter_app.
Qed.

(** X2: Items enqueued into a new queue with room for all of them leave it
    in descending order of priority, and in the order they came in
    within each priority; after the last one the queue is empty again. *)
Theorem Dequeue_priority_then_fifo (xs : list TaskItem) (limit : Z) :
  Z.of_nat (length xs) ≤ limit ≤ maxInt64 →
  let f := run_ops (OpEnqueue <$> xs) (NewPriorityQueue limit) in
  let ys := (drain (length xs) f).1 in
  length ys = length xs ∧ StronglySorted higher_first ys ∧
  (∀ p, filter (λ x, Priority x = p) ys = filter (λ x, Priority x = p) xs) ∧
  pq_list (drain (length xs) f).2 = ∅ ∧ pq_count (drain (length xs) f).2 = 0.
Proof.
  intros [Hlen Hmax] f ys. subst f ys.
  destruct (enqueue_all xs (NewPriorityQueue limit)) as (Hinv & Hfiled & Hsum & Hlev).
  - by apply pq_inv_New.
  - apply filed_empty.
  - simpl. lia.
  - change (sumLen (pq_list (NewPriorityQueue limit))) with 0%nat in Hsum.
    simpl in Hsum.
    destruct (drain_order (length xs) _ Hinv Hfiled Hsum) as (Hl & Hs & Hf & Hend).
    split; [done|]. split; [done|]. split; [|done].
    intros p. rewrite Hf, Hlev. simpl. unfold NewMultiLevelList. by rewrite lookup_empty.
Qed.

Lemma Dequeue_priority_then_fifo_witness :
  let xs := [b1; a2; mkTaskItem 1 "c"; mkTaskItem 2 "d"] in
  let ys := (drain 4 (run_ops (OpEnqueue <$> xs) (NewPriorityQueue 4))).1 in
  length ys = 4%nat ∧ StronglySorted higher_first ys ∧
  filter (λ x, Priority x = 2) ys = [a2; mkTaskItem 2 "d"] ∧
  filter (λ x, Priority x = 1) ys = [b1; mkTaskItem 1 "c"].
Proof.
  destruct (Dequeue_priority_then_fifo
              [b1; a2; mkTaskItem 1 "c"; mkTaskItem 2 "d"] 4) as (Hl & Hs & Hf & _).
  - split; [simpl; lia|]. vm_compute. discriminate.
  - split; [exact Hl|]. split; [exact Hs|]. split; [exact (Hf 2)|exact (Hf 1)].
Defined.

End QueueLaws.

(* ===================================================================== *)
(** * The priority queue under concurrent calls                           *)
(* ===================================================================== *)

Module QueueConcurrency.
Import Queue QueueProofs.
Local Open Scope Z_scope.

Lemma sum_list_with_insert {A} (w : A → nat) (l : list A) i x y :
  l !! i = Some x →
  (sum_list_with w (<[i := y]> l) + w x = sum_list_with w l + w y)%nat.
Proof.
  revert i. induction l as [|z l IH]; intros [|i] Hi; simplify_eq/=; [lia|].
  specialize (IH i Hi). lia.
Qed.

Lemma locked_false (cs : list call) : locked cs = false ↔ sum_list_with at_hold cs = 0%nat.
Proof.
  unfold locked. induction cs as [|c cs IH]; simpl; [done|].
  destruct c as [[]|[]]; simpl; try (split; [done|lia]); rewrite IH; lia.
Qed.

Lemma at_push_inc_hold (cs : list call) :
  (sum_list_with at_push cs + sum_list_with at_inc cs ≤ sum_list_with at_hold cs)%nat.
Proof.
  induction cs as [|c cs IH]; simpl; [lia|].
  assert (at_push c + at_inc c ≤ at_hold c)%nat; [|lia].
  destruct c as [[]|[]]; simpl; lia.
Qed.

(** An [Enqueue] call that no other call interrupts does what the
    atomic [Enqueue] does. *)
Lemma Enqueue_call_alone (cs : list call) (f : PriorityQueue) ti :
  locked cs = false →
  let '(c1, f1) := call_step cs (CallEnqueue (EqLock ti)) f in
  let '(c2, f2) := call_step cs c1 f1 in
  let '(c3, f3) := call_step cs c2 f2 in
  let '(c4, f4) := call_step cs c3 f3 in
  (c4, f4) = (CallEnqueue (EqRet (Enqueue ti f).2), (Enqueue ti f).1).
Proof.
  intros Hfree. unfold Enqueue. simpl. rewrite Hfree. simpl.
  case_bool_decide; simpl; [done|]. by destruct f.
Qed.

Lemma conc_inv_init limit : 0 ≤ limit → conc_inv limit (mkConcurrent (NewPriorityQueue limit) []).
Proof.
  intros Hl. unfold conc_inv. simpl. unfold NewMultiLevelList. rewrite sumLen_empty.
  repeat split; lia.
Qed.

Lemma conc_inv_spawn limit s c :
  at_hold c = 0%nat → at_push c = 0%nat → at_inc c = 0%nat → at_count c = 0%nat →
  conc_inv limit s → conc_inv limit (mkConcurrent (conc_queue s) (conc_calls s ++ [c])).
Proof.
  intros H1 H2 H3 H4. unfold conc_inv. simpl. rewrite !sum_list_with_app. simpl.
  rewrite H1, H2, H3, H4. intros (Hlim & Hhold & Hcover & Hroom & Hcount).
  repeat split; lia.
Qed.

Ltac step_counts Hi c' :=
  pose proof (sum_list_with_insert at_hold _ _ _ c' Hi);
  pose proof (sum_list_with_insert at_push _ _ _ c' Hi);
  pose proof (sum_list_with_insert at_inc _ _ _ c' Hi);
  pose proof (sum_list_with_insert at_count _ _ _ c' Hi);
  simpl in *.

Lemma conc_inv_step limit s e :
  limit ≤ maxInt64 → conc_inv limit s → conc_inv limit (conc_step s e).
Proof.
  intros Hmax Hinv. destruct e as [ti| |i]; simpl.
  - by apply conc_inv_spawn.
  - by apply conc_inv_spawn.
  - destruct (conc_calls s !! i) as [c|] eqn:Hi; [|done].
    destruct s as [f cs]. simpl in *.
    pose proof (at_push_inc_hold cs) as Hph.
    destruct Hinv as (Hlim & Hhold & Hcover & Hroom & Hcount). simpl in *.
    destruct c as [[ti|ti|ti| |err]|[ |hp|hp err|err|hp|x|x err]]; simpl.
    + (* f.Lock() *)
      destruct (locked cs) eqn:Hl.
      * rewrite list_insert_id by done. unfold conc_inv. simpl. repeat split; lia.
      * apply locked_false in Hl. step_counts Hi (CallEnqueue (EqCheck ti)).
        unfold conc_inv. simpl. repeat split; lia.
    + (* the test of the limit *)
      case_bool_decide as Hfull.
      * step_counts Hi (CallEnqueue (EqRet (Some QueueLimitReached))).
        unfold conc_inv. simpl. repeat split; lia.
      * step_counts Hi (CallEnqueue (EqPush ti)).
        unfold conc_inv. simpl. repeat split; lia.
    + (* Push *)
      step_counts Hi (CallEnqueue EqInc).
      unfold conc_inv. simpl. rewrite sumLen_Push. repeat split; lia.
    + (* count++ *)
      step_counts Hi (CallEnqueue (EqRet None)).
      assert (Hlt : pq_count f < limit) by (apply Hroom; lia).
      unfold conc_inv. simpl.
      rewrite int64_id by (unfold maxInt64 in *; lia). repeat split; lia.
    + rewrite list_insert_id by done. unfold conc_inv. simpl. repeat split; lia.
    + (* Peek *)
      step_counts Hi (CallDequeue (DqPop (GetHighestLevel (pq_list f)))).
      unfold conc_inv. simpl. repeat split; lia.
    + (* Pop *)
      destruct (Pop hp (pq_list f)) as [[x m']|] eqn:Hpop.
      * pose proof (sumLen_Pop _ _ _ _ Hpop).
        step_counts Hi (CallDequeue (DqCount x)).
        unfold conc_inv. simpl. repeat split; lia.
      * step_counts Hi (CallDequeue (DqLoopCond hp EmptyLevel)).
        unfold conc_inv. simpl. repeat split; lia.
    + (* the test of the retry loop *)
      case_bool_decide.
      * step_counts Hi (CallDequeue (DqRePeek err)).
        unfold conc_inv. simpl. repeat split; lia.
      * step_counts Hi (CallDequeue (DqRet emptyTaskItem (Some err))).
        unfold conc_inv. simpl. repeat split; lia.
    + step_counts Hi (CallDequeue (DqRePop (GetHighestLevel (pq_list f)))).
      unfold conc_inv. simpl. repeat split; lia.
    + (* the Pop of the retry loop *)
      destruct (Pop hp (pq_list f)) as [[x m']|] eqn:Hpop.
      * pose proof (sumLen_Pop _ _ _ _ Hpop).
        step_counts Hi (CallDequeue (DqRet emptyTaskItem None)).
        unfold conc_inv. simpl. repeat split; lia.
      * step_counts Hi (CallDequeue (DqLoopCond hp EmptyLevel)).
        unfold conc_inv. simpl. repeat split; lia.
    + (* f.Lock(); count-- *)
      destruct (locked cs) eqn:Hl.
      * rewrite list_insert_id by done. unfold conc_inv. simpl. repeat split; lia.
      * apply locked_false in Hl. step_counts Hi (CallDequeue (DqRet x None)).
        unfold conc_inv. simpl.
        rewrite int64_id by (unfold maxInt64 in *; lia). repeat split; lia.
    + rewrite list_insert_id by done. unfold conc_inv. simpl. repeat split; lia.
Qed.

(** X3: Whatever goroutines call [Enqueue] and [Dequeue] on a queue built
    with a limit that is not negative, and however their steps
    interleave, the list never holds more than [limit] items, [count]
    stays between 0 and [limit] and never falls below the number of
    items once no [Enqueue] is between its push and its [count++]. *)
Theorem never_above_limit (limit : Z) (evs : list event) :
  0 ≤ limit ≤ maxInt64 →
  let s := conc_run evs limit in
  Z.of_nat (totalLen (pq_list (conc_queue s))) ≤ limit ∧
  0 ≤ pq_count (conc_queue s) ≤ limit ∧
  (locked (conc_calls s) = false →
   Z.of_nat (totalLen (pq_list (conc_queue s))) ≤ pq_count (conc_queue s)).
Proof.
  intros [Hlim Hmax] s.
  assert (Hinv : conc_inv limit s).
  { subst s. induction evs as [|e evs IH] using rev_ind; [by apply conc_inv_init|].
    unfold conc_run. rewrite foldl_app. simpl. by apply conc_inv_step. }
  destruct Hinv as (_ & Hhold & Hcover & Hroom & Hcount).
  pose proof (at_push_inc_hold (conc_calls s)) as Hph.
  rewrite <- sumLen_totalLen. split; [|split; [done|]].
  - destruct (sum_list_with at_inc (conc_calls s)) as [|n] eqn:Hinc; [lia|].
    assert (pq_count (conc_queue s) < limit) by (apply Hroom; lia). lia.
  - intros Hfree. apply locked_false in Hfree. lia.
Qed.

Lemma never_above_limit_witness :
  let s := conc_run [EvEnqueue a2; EvEnqueue b1; EvDequeue; EvStep 0; EvStep 0; EvStep 2;
                     EvStep 0; EvStep 2; EvStep 0; EvStep 1; EvStep 2]%nat 1 in
  Z.of_nat (totalLen (pq_list (conc_queue s))) ≤ 1 ∧ 0 ≤ pq_count (conc_queue s) ≤ 1.
Proof.
  destruct (never_above_limit 1
              [EvEnqueue a2; EvEnqueue b1; EvDequeue; EvStep 0; EvStep 0; EvStep 2;
               EvStep 0; EvStep 2; EvStep 0; EvStep 1; EvStep 2]%nat) as (H1 & H2 & _).
  - split; [lia|]. vm_compute. discriminate.
  - split; [exact H1|exact H2].
Defined.

End QueueConcurrency.

(* ===================================================================== *)
(** * Jobs and workers of the pool                                        *)
(* ===================================================================== *)

Module AsyncLaws.
Import Async AsyncProofs.
Local Open Scope Z_scope.

Lemma omap_insert_perm {A B} (g : A → option B) (l : list A) i x y :
  l !! i = Some x →
  omap g (<[i := y]> l) ++ option_list (g x) ≡ₚ omap g l ++ option_list (g y).
Proof.
  revert i. induction l as [|z l IH]; intros [|i] Hi; simplify_eq/=.
  - destruct (g x), (g y); simpl; rewrite <- ?Permutation_cons_append, ?app_nil_r;
      try done. apply perm_swap.
  - specialize (IH i Hi). destruct (g z); simpl; [by f_equiv|done].
Qed.

Lemma running_spawn n ws : omap running_job (spawn n ws) = omap running_job ws.
Proof.
  unfold spawn. rewrite omap_app.
  assert (Hrep : omap running_job (replicate (Z.to_nat n) WLoop) = []).
  { induction (Z.to_nat n) as [|k IH]; [done|]. simpl. exact IH. }
  by rewrite Hrep, app_nil_r.
Qed.

(** The jobs in the pool: running, queued or being added. *)
Lemma jobs_inv_alt called p :
  jobs_inv called p ↔
  jobs p = Z.of_nat (length (running p ++ queue p ++ adding p)) ∧
  called ≡ₚ ran p ++ running p ++ queue p ++ adding p.
Proof. unfold jobs_inv. rewrite !length_app. split; intros [Hj Hp]; (split; [lia|done]). Qed.

Lemma jobs_inv_locked called num p :
  jobs_inv called p → jobs_inv called (SetMaxWorkers_locked num p).
Proof.
  unfold jobs_inv, SetMaxWorkers_locked, running, adding. simpl.
  rewrite omap_app. simpl. by rewrite app_nil_r.
Qed.

Lemma jobs_inv_Add called job p :
  jobs_inv called p → jobs_inv (called ++ [job]) (Enqueue_Add job p).
Proof.
  rewrite !jobs_inv_alt. unfold Enqueue_Add, running, adding. simpl.
  rewrite omap_app. simpl. intros [Hj Hp]. split.
  - rewrite !app_assoc, length_app. rewrite !app_assoc in Hj. simpl. lia.
  - rewrite Hp, <- !app_assoc. done.
Qed.

Lemma jobs_inv_caller_step called c p :
  jobs_inv called p → jobs_inv called (caller_step c p).
Proof.
  rewrite !jobs_inv_alt. unfold caller_step, running, adding. intros [Hj Hp].
  destruct (callers p !! c) as [[i num|job|]|] eqn:Hc; try done.
  - pose proof (omap_insert_perm adding_job _ _ _ (CSpawn (i + 1) num) Hc) as H1.
    pose proof (omap_insert_perm adding_job _ _ _ CReturned Hc) as H2.
    simpl in H1, H2. rewrite !app_nil_r in H1, H2.
    case_bool_decide; simpl.
    + rewrite omap_app. simpl. rewrite app_nil_r, H1. done.
    + rewrite H2. done.
  - pose proof (omap_insert_perm adding_job _ _ _ CReturned Hc) as H1.
    simpl in H1. rewrite app_nil_r in H1. simpl.
    assert (omap running_job (workers p) ++ (queue p ++ [job])
              ++ omap adding_job (<[c:=CReturned]> (callers p))
            ≡ₚ omap running_job (workers p) ++ queue p ++ omap adding_job (callers p)) as Hq.
    { rewrite <- H1. rewrite <- !app_assoc. do 2 f_equiv. apply Permutation_app_comm. }
    rewrite Hq. done.
Qed.

Lemma jobs_inv_worker_step called i p :
  jobs_inv called p → jobs_inv called (worker_step i p).
Proof.
  rewrite !jobs_inv_alt. unfold worker_step, shouldWorkerStop, running, adding.
  intros [Hj Hp].
  destruct (workers p !! i) as [[| |job|]|] eqn:Hi; try done.
  - pose proof (omap_insert_perm running_job _ _ _ WRecv Hi) as Hr.
    pose proof (omap_insert_perm running_job _ _ _ WExit Hi) as Hx.
    simpl in Hr, Hx. rewrite !app_nil_r in Hr, Hx.
    case_bool_decide; simpl; [by rewrite Hx|by rewrite Hr].
  - destruct (queue p) as [|job rest] eqn:Hq; simpl; [by rewrite Hq|].
    pose proof (omap_insert_perm running_job _ _ _ (WRun job) Hi) as Hr.
    simpl in Hr. rewrite app_nil_r in Hr.
    assert (omap running_job (<[i:=WRun job]> (workers p)) ++ rest
              ++ omap adding_job (callers p)
            ≡ₚ omap running_job (workers p) ++ (job :: rest)
              ++ omap adding_job (callers p)) as Hm.
    { rewrite Hr, <- app_assoc. done. }
    rewrite Hm. done.
  - pose proof (omap_insert_perm running_job _ _ _ WLoop Hi) as Hr.
    simpl in Hr. rewrite app_nil_r in Hr. simpl. split.
    + pose proof (Permutation_length Hr) as Hlen.
      rewrite length_app in Hlen. simpl in Hlen.
      rewrite !length_app in Hj |- *. lia.
    + rewrite Hp, <- Hr. rewrite <- !app_assoc. f_equiv.
      rewrite !app_assoc. do 2 f_equiv. apply Permutation_app_comm.
Qed.

Lemma jobs_inv_step acts p a :
  jobs_inv (enqueued acts) p → jobs_inv (enqueued (acts ++ [a])) (step p a).
Proof.
  intros Hinv. unfold enqueued. rewrite omap_app. fold (enqueued acts).
  destruct a as [num|job|i|num|job|c]; simpl; rewrite ?app_nil_r.
  - unfold SetMaxWorkers.
    induction (S (Z.to_nat (numWorkers (SetMaxWorkers_locked num p) - numWorkers p)))
      as [|n IH]; simpl; [by apply jobs_inv_locked|by apply jobs_inv_caller_step].
  - unfold Enqueue. by apply jobs_inv_caller_step, jobs_inv_Add.
  - by apply jobs_inv_worker_step.
  - by apply jobs_inv_locked.
  - by apply jobs_inv_Add.
  - by apply jobs_inv_caller_step.
Qed.

Lemma jobs_inv_run acts o : jobs_inv (enqueued acts) (run acts (NewPool o)).
Proof.
  induction acts as [|a acts IH] using rev_ind.
  - unfold jobs_inv, running, adding, NewPool. simpl. rewrite running_spawn. done.
  - unfold run. rewrite foldl_app. simpl. by apply jobs_inv_step.
Qed.

(** X4: Whatever goroutines call [Enqueue] and [SetMaxWorkers] on a pool
    and however their steps and those of the workers interleave, the
    WaitGroup counts exactly the jobs that are between [p.jobs.Add(1)]
    and [p.queue.Enqueue], queued, or being run, so [WaitUntilProcessed]
    returns exactly when there is no such job; and every job [Enqueue]
    was called with is in one place, as often as it was given: done,
    being run, queued, or about to be queued. *)
Theorem jobs_accounted (o : Z) (acts : list action) :
  let p := run acts (NewPool o) in
  jobs p = Z.of_nat (length (adding p) + length (queue p) + length (running p)) ∧
  (WaitUntilProcessed_returns p = true
   ↔ adding p = [] ∧ queue p = [] ∧ running p = []) ∧
  enqueued acts ≡ₚ ran p ++ running p ++ queue p ++ adding p.
Proof.
  intros p. destruct (jobs_inv_run acts o) as (Hjobs & Hall). fold p in Hjobs, Hall.
  split; [done|]. split; [|done].
  unfold WaitUntilProcessed_returns. rewrite bool_decide_eq_true, Hjobs.
  split.
  - intros Hz. destruct (adding p), (queue p), (running p); simpl in Hz; try lia. done.
  - by intros (-> & -> & ->).
Qed.

Lemma workers_inv_caller_step o c p : workers_inv o p → workers_inv o (caller_step c p).
Proof.
  intros [HM Hn]. destruct (caller_step_frame c p) as (HM' & Hn' & _).
  split; [by rewrite HM'|by rewrite Hn'].
Qed.

Lemma workers_inv_locked o num p : workers_inv o p → workers_inv o (SetMaxWorkers_locked num p).
Proof.
  intros [HM Hn]. split; [done|]. unfold SetMaxWorkers_locked, DefaultMaxWorkers. simpl.
  destruct (bool_decide (num <= 0)) eqn:Hnum; [lia|].
  apply bool_decide_eq_false in Hnum. lia.
Qed.

Lemma workers_inv_step o p a : workers_inv o p → workers_inv o (step p a).
Proof.
  intros Hinv. destruct a as [num|job|i|num|job|c]; simpl.
  - unfold SetMaxWorkers.
    induction (S (Z.to_nat (numWorkers (SetMaxWorkers_locked num p) - numWorkers p)))
      as [|n IH]; simpl; [by apply workers_inv_locked|by apply workers_inv_caller_step].
  - unfold Enqueue. by apply workers_inv_caller_step.
  - destruct Hinv as [HM Hn].
    split; [by change (worker_step i p) with (step p (AWorker i)); rewrite MaxWorkers_step|].
    unfold worker_step, shouldWorkerStop.
    destruct (workers p !! i) as [[| |job|]|]; try done.
    + destruct (bool_decide (numWorkers p > MaxWorkers p)) eqn:Hgt; simpl; [|done].
      apply bool_decide_eq_true in Hgt. rewrite HM in Hgt. unfold DefaultMaxWorkers in Hgt.
      destruct (bool_decide (o <= 0)) eqn:Ho; [lia|].
      apply bool_decide_eq_false in Ho. lia.
    + by destruct (queue p).
  - by apply workers_inv_locked.
  - exact Hinv.
  - by apply workers_inv_caller_step.
Qed.

(** X5: The numbers of a pool, whatever goroutines call [SetMaxWorkers]
    and [Enqueue] and however their steps and those of the workers
    interleave: [options.MaxWorkers] is the positive number [NewPool]
    settled on and never changes; [numWorkers] stays positive; and the
    workers alive, together with those that calls of [SetMaxWorkers]
    past their unlock have still to start, are never fewer than either,
    so that the workers alive are never fewer than either once no such
    call is under way. *)
Theorem live_workers_bound (o : Z) (acts : list action) :
  let p := run acts (NewPool o) in
  MaxWorkers p = (if bool_decide (o <= 0) then DefaultMaxWorkers else o) ∧
  1 ≤ MaxWorkers p ∧ 1 ≤ numWorkers p ∧
  MaxWorkers p ≤ Z.of_nat (live p) + spawning p ∧
  numWorkers p ≤ Z.of_nat (live p) + spawning p ∧
  (spawning p = 0 →
   MaxWorkers p ≤ Z.of_nat (live p) ∧ numWorkers p ≤ Z.of_nat (live p)).
Proof.
  intros p.
  assert (Hw : workers_inv o p).
  { subst p. induction acts as [|a acts IH] using rev_ind.
    - split; [done|]. unfold NewPool, DefaultMaxWorkers. simpl. case_bool_decide; lia.
    - unfold run. rewrite foldl_app. simpl. by apply workers_inv_step. }
  destruct Hw as [HM Hn]. destruct (pool_inv_run acts o) as [HlM Hln]. fold p in HlM, Hln.
  split; [done|]. split; [|split_and!; try done; lia].
  rewrite HM. unfold DefaultMaxWorkers. case_bool_decide; lia.
Qed.

End AsyncLaws.

(* ===================================================================== *)
(** * Laws of the Mesos plugin                                            *)
(* ===================================================================== *)

Module MesosLaws.
Import Mesos MesosProofs.
Local Open Scope Z_scope.

Lemma count_calls_snoc {T} (which : Call T → bool) msgs msg :
  count_calls which (msgs ++ [msg]) = count_calls which msgs + (if which msg then 1 else 0).
Proof.
  unfold count_calls. rewrite filter_app, length_app, filter_cons, filter_nil.
  destruct (decide (which msg = true)) as [->|Hn]; simpl; [lia|].
  destruct (which msg); [done|lia].
Qed.

Section PluginLaws.
Context {PodSpec TaskConfig Builder MState Reason Timestamp : Type}.
Variable c : collaborators PodSpec TaskConfig Builder.
Variable k : codecs MState Reason Timestamp.
Variable driverFrameworkID : string.
Implicit Types (m : MesosManager TaskConfig).

Lemma unaccounted_serve m (r : request PodSpec MState Reason Timestamp) :
  unaccounted (serve c k driverFrameworkID m r) = unaccounted m.
Proof.
  destruct r as [pods hostname|podID|evt|event| | |i]; simpl.
  - unfold LaunchPods.
    destruct ((rangeOffers c (GetOffers hostname (offers_ m))).*2) as [|first rest]; [done|].
    simpl. destruct (buildTasks c _ _ pods) as [err|mesosTasks]; [done|].
    destruct (schedulerCall c _) as [err|]; unfold unaccounted; simpl;
      rewrite !count_calls_snoc; simpl; repeat (apply pair_equal_spec; split); lia.
  - unfold KillPod_. destruct (schedulerCall c _) as [err|]; unfold unaccounted; simpl;
      rewrite !count_calls_snoc; simpl; repeat (apply pair_equal_spec; split); lia.
  - unfold unaccounted, Update. simpl. rewrite length_app. simpl. repeat (apply pair_equal_spec; split); lia.
  - unfold AckPodEvent. by case_bool_decide.
  - done.
  - done.
  - unfold worker_step. destruct (ackWorkers m !! i) as [w|]; [|done].
    destruct w as [|pe|pe|pe|pe|pe]; simpl; try done.
    + destruct (ackChannel m) as [|pe rest]; [done|]. by case_bool_decide.
    + by case_bool_decide.
    + unfold unaccounted. simpl. rewrite !count_calls_snoc. simpl. repeat (apply pair_equal_spec; split); lia.
Qed.

(** X6: The counters of the metrics follow the calls: whatever requests the
    plugin serves and however its ack workers are scheduled, every
    ACCEPT call sent is counted once as a launch or a failed launch,
    every KILL call once as a kill or a failed kill, every ACKNOWLEDGE
    once as an ack, and every pod event sent up stream once as an
    update. *)
Theorem calls_match_metrics m (rs : list (request PodSpec MState Reason Timestamp)) :
  unaccounted (serve_all c k driverFrameworkID rs m) = unaccounted m.
Proof.
  revert m. induction rs as [|r rs IH]; intros m; [done|].
  simpl. fold (serve_all c k driverFrameworkID rs (serve c k driverFrameworkID m r)).
  by rewrite IH, unaccounted_serve.
Qed.

Lemma GetOffers_Remove_ne hostname h om :
  h ≠ hostname → GetOffers h (RemoveOfferForHost hostname om) = GetOffers h om.
Proof. intros Hne. unfold GetOffers, RemoveOfferForHost. simpl. by rewrite lookup_delete_ne. Qed.

Lemma LaunchPods_no_offer pods hostname m :
  GetOffers hostname (offers_ m) = ∅ →
  LaunchPods c pods hostname m = (inl (NoOfferFound hostname), m).
Proof. intros Hemp. unfold LaunchPods. by rewrite Hemp, rangeOffers_empty. Qed.

(** X7: A launch that succeeds returns the pods it was given and uses up the
    offers of the host: the next launch on that host, whatever its pods,
    fails with the NoOffer error and sends nothing, while the offers of
    every other host, the ack channel, the ack workers and the pod
    events are as before. *)
Theorem LaunchPods_consumes_offers pods pods' hostname m ps :
  (LaunchPods c pods hostname m).1 = inr ps →
  let m1 := (LaunchPods c pods hostname m).2 in
  ps = pods ∧
  GetOffers hostname (offers_ m1) = ∅ ∧
  LaunchPods c pods' hostname m1 = (inl (NoOfferFound hostname), m1) ∧
  (∀ h, h ≠ hostname → GetOffers h (offers_ m1) = GetOffers h (offers_ m)) ∧
  ackChannel m1 = ackChannel m ∧ ackWorkers m1 = ackWorkers m ∧
  ackStatusMap m1 = ackStatusMap m ∧ podEventCh m1 = podEventCh m.
Proof.
  unfold LaunchPods at 1 2.
  destruct ((rangeOffers c (GetOffers hostname (offers_ m))).*2) as [|first rest]; [done|].
  simpl. destruct (buildTasks c _ _ pods) as [err|mesosTasks]; [done|].
  destruct (schedulerCall c _) as [err|]; [done|]. simpl.
  intros [= <-]. split; [done|]. split; [apply GetOffers_Remove|].
  split; [apply LaunchPods_no_offer; apply GetOffers_Remove|].
  split; [|done]. intros h Hne. by apply GetOffers_Remove_ne.
Qed.

(** X8: A launch that fails, for whatever reason, leaves every offer where
    it was, so that it can be tried again; it counts no launch and
    touches neither the ack channel nor the ack workers nor the pod
    events; and it has sent a call only if that call is what failed. *)
Theorem LaunchPods_error_keeps_offers pods hostname m err :
  (LaunchPods c pods hostname m).1 = inl err →
  let m1 := (LaunchPods c pods hostname m).2 in
  offers_ m1 = offers_ m ∧
  LaunchPod (metrics_ m1) = LaunchPod (metrics_ m) ∧
  ackChannel m1 = ackChannel m ∧ ackWorkers m1 = ackWorkers m ∧
  ackStatusMap m1 = ackStatusMap m ∧ podEventCh m1 = podEventCh m ∧
  (sent m1 = sent m ∨
   ∃ msg, sent m1 = sent m ++ [msg] ∧ is_ACCEPT msg = true ∧ schedulerCall c msg = Some err).
Proof.
  unfold LaunchPods.
  destruct ((rangeOffers c (GetOffers hostname (offers_ m))).*2) as [|first rest].
  { intros _. simpl. repeat split; try done. by left. }
  simpl. destruct (buildTasks c _ _ pods) as [err'|mesosTasks].
  { intros _. simpl. repeat split; try done. by left. }
  destruct (schedulerCall c _) as [err'|] eqn:Hcall; [|done]. simpl.
  intros [= <-]. repeat split; try done. right. eexists. split; [done|]. by split.
Qed.

End PluginLaws.

Lemma LaunchPods_consumes_offers_witness :
  let m1 := (LaunchPods plainCollaborators [mkPod "pod-1" "web"] "host1" managerWithOffers).2 in
  LaunchPods plainCollaborators [mkPod "pod-2" "db"] "host1" m1
  = (inl (NoOfferFound "host1"), m1).
Proof.
  destruct (LaunchPods_consumes_offers plainCollaborators
              [mkPod "pod-1" "web"] [mkPod "pod-2" "db"] "host1" managerWithOffers
              [mkPod "pod-1" "web"]) as (_ & _ & Hnext & _).
  - vm_compute. reflexivity.
  - exact Hnext.
Defined.

Lemma LaunchPods_error_keeps_offers_witness :
  offers_ (LaunchPods plainCollaborators [mkPod "pod-2" "bad"] "host1" managerWithOffers).2
  = offers_ managerWithOffers.
Proof.
  destruct (LaunchPods_error_keeps_offers plainCollaborators
              [mkPod "pod-2" "bad"] "host1" managerWithOffers
              (Failure "invalid pod spec")) as (Hoffers & _).
  - vm_compute. reflexivity.
  - exact Hoffers.
Defined.

(** ** The ack workers *)

Section AckLaws.
Context {TaskConfig : Type}.
Variable driverFrameworkID : string.
Implicit Types (m : MesosManager TaskConfig) (pe : PodEvent).

Abbreviation ack := (acknowledgeCall (TaskConfig:=TaskConfig) driverFrameworkID).
Abbreviation run_acks := (run (TaskConfig:=TaskConfig) driverFrameworkID).

Lemma held_insert m i w w' :
  ackWorkers m !! i = Some w →
  omap before_call (<[i := w']> (ackWorkers m)) ++ option_list (before_call w)
  ≡ₚ held m ++ option_list (before_call w').
Proof. apply AsyncLaws.omap_insert_perm. Qed.

Lemma with_id_snoc events pe :
  with_id (events ++ [pe])
  = with_id events ++ (if decide (EventID pe ≠ EmptyString) then [pe] else []).
Proof. unfold with_id. rewrite filter_app, filter_cons, filter_nil. by case_decide. Qed.

Lemma ack_inv_init n holdTime :
  ack_inv driverFrameworkID [] (managerWithAckWorkers (T:=TaskConfig) n holdTime).
Proof. split; [constructor|done]. Qed.

Lemma ack_inv_worker acts m i :
  ack_inv driverFrameworkID acts m →
  ack_inv driverFrameworkID acts (worker_step driverFrameworkID i m).
Proof.
  intros [Hid Hcov]. unfold worker_step.
  destruct (ackWorkers m !! i) as [w|] eqn:Hi; [|done].
  unfold ack_inv, held in *.
  destruct w as [|pe|pe|pe|pe|pe]; simpl.
  - (* receive *)
    destruct (ackChannel m) as [|pe rest] eqn:Hch; simpl.
    { rewrite list_insert_id by done. by rewrite Hch. }
    unfold with_id in Hcov. rewrite filter_cons in Hcov.
    case_bool_decide as Hemp; simpl.
    + rewrite list_insert_id by done. rewrite decide_False in Hcov by tauto. done.
    + rewrite decide_True in Hcov by done.
      pose proof (held_insert m i _ (AwLoad pe) Hi) as Hh. simpl in Hh.
      rewrite app_nil_r in Hh. split.
      * rewrite Hh. apply Forall_app. split; [done|by constructor].
      * rewrite Hh. rewrite <- app_assoc. done.
  - (* Load *)
    pose proof (held_insert m i _ AwRecv Hi) as Hr.
    pose proof (held_insert m i _ (AwStore pe) Hi) as Hs. simpl in Hr, Hs.
    rewrite app_nil_r in Hr. apply Permutation_app_inv_r in Hs.
    case_bool_decide; simpl.
    + split.
      * rewrite <- Hr in Hid. by apply Forall_app in Hid as [? _].
      * etransitivity; [|exact Hcov]. rewrite <- Hr.
        apply submseteq_app; [done|]. apply fmap_submseteq.
        apply submseteq_app; [|done]. by apply submseteq_inserts_r.
    + by rewrite Hs.
  - (* Store *)
    pose proof (held_insert m i _ (AwCall pe) Hi) as Hs. simpl in Hs.
    apply Permutation_app_inv_r in Hs. by rewrite Hs.
  - (* the call *)
    pose proof (held_insert m i _ (AwInFlight pe) Hi) as Hs. simpl in Hs.
    rewrite app_nil_r in Hs. split.
    + rewrite <- Hs in Hid. by apply Forall_app in Hid as [? _].
    + etransitivity; [|exact Hcov]. rewrite <- Hs.
      rewrite <- (app_assoc (sent m)). apply submseteq_app; [done|].
      apply Permutation_submseteq. rewrite !fmap_app. simpl.
      rewrite (Permutation_app_comm _ [ack pe]). done.
  - pose proof (held_insert m i _ (AwDelete pe) Hi) as Hs. simpl in Hs.
    rewrite !app_nil_r in Hs. by rewrite Hs.
  - pose proof (held_insert m i _ AwRecv Hi) as Hs. simpl in Hs.
    rewrite !app_nil_r in Hs. by rewrite Hs.
Qed.

Lemma held_replicate_AwRecv (n : nat) : omap before_call (replicate n AwRecv) = [].
Proof. induction n as [|n IH]; [done|]. exact IH. Qed.

Lemma ack_inv_step acts m a :
  ack_inv driverFrameworkID acts m →
  ack_inv driverFrameworkID (acts ++ [a]) (step driverFrameworkID m a).
Proof.
  intros Hinv. destruct a as [|event|i]; simpl.
  - destruct Hinv as [Hid Hcov]. unfold ack_inv, held, pushed in *. simpl.
    rewrite omap_app, held_replicate_AwRecv, !app_nil_r. simpl.
    rewrite omap_app. simpl. by rewrite app_nil_r.
  - destruct Hinv as [Hid Hcov]. unfold ack_inv, held, AckPodEvent in *.
    rewrite pushed_snoc, with_id_snoc.
    case_bool_decide; simpl.
    + split; [done|]. rewrite with_id_snoc.
      rewrite (app_assoc (omap before_call (ackWorkers m))).
      rewrite (fmap_app _ (omap before_call (ackWorkers m) ++ with_id (ackChannel m))).
      rewrite (fmap_app _ (with_id (pushed acts))).
      rewrite (app_assoc (sent m)). apply submseteq_app; [exact Hcov|done].
    + split; [done|]. rewrite (fmap_app _ (with_id (pushed acts))).
      by apply submseteq_inserts_r.
  - apply (ack_inv_worker _ _ i) in Hinv. destruct Hinv as [Hid Hcov].
    split; [exact Hid|]. rewrite pushed_snoc. simpl. by rewrite app_nil_r.
Qed.

(** X9: However the ack workers are scheduled, every call they send is the
    acknowledgement of an event that was pushed with [AckPodEvent] and
    has an event id, and no more acknowledgements of an event are sent
    than the times it was pushed: no id-less event is ever
    acknowledged and none is made up. *)
Theorem acks_only_for_pushed_events (n holdTime : Z) (acts : list action) :
  let m := run_acks acts (managerWithAckWorkers n holdTime) in
  sent m ⊆+ ack <$> with_id (pushed acts).
Proof.
  intros m.
  assert (Hinv : ack_inv driverFrameworkID acts m).
  { subst m. induction acts as [|a acts IH] using rev_ind; [apply ack_inv_init|].
    unfold Mesos.run. rewrite foldl_app. simpl. by apply ack_inv_step. }
  destruct Hinv as [_ Hcov]. etransitivity; [|exact Hcov].
  by apply submseteq_inserts_r.
Qed.

End AckLaws.

Section UpdateAckLaws.
Context {TaskConfig MState Reason Timestamp : Type}.
Variable k : codecs MState Reason Timestamp.
Variable driverFrameworkID : string.
Implicit Types (m : MesosManager TaskConfig).

Lemma worker_step_at m i w :
  ackWorkers m !! i = Some w →
  worker_step driverFrameworkID i m
  = with_ackWorkers (<[i := (ack_step driverFrameworkID w m).1]>
                       (ackWorkers (ack_step driverFrameworkID w m).2))
                    (ack_step driverFrameworkID w m).2.
Proof. intros Hi. unfold worker_step. rewrite Hi. by destruct (ack_step _ w m). Qed.

Lemma ack_one m i pe rest :
  ackWorkers m !! i = Some AwRecv → ackChannel m = pe :: rest →
  EventID pe ≠ EmptyString → EventID pe ∉ ackStatusMap m →
  let m' := run driverFrameworkID (replicate 6 (AWorker i)) m in
  sent m' = sent m ++ [acknowledgeCall driverFrameworkID pe] ∧
  ackStatusMap m' = ackStatusMap m ∧ ackWorkers m' = ackWorkers m ∧
  ackChannel m' = rest.
Proof.
  intros Hi Hch Hid Hnew.
  assert (Hlt : (i < length (ackWorkers m))%nat) by (by eapply lookup_lt_Some).
  pose proof (worker_step_at m i AwRecv Hi) as E1. simpl in E1. rewrite Hch in E1.
  rewrite bool_decide_eq_false_2 in E1 by done. simpl in E1.
  pose proof (worker_step_at _ i (AwLoad pe)
                (list_lookup_insert_eq (ackWorkers m) i (AwLoad pe) Hlt : ackWorkers
                   (with_ackWorkers (<[i:=AwLoad pe]> (ackWorkers m))
                      (with_ackChannel rest m)) !! i = Some (AwLoad pe))) as E2.
  simpl in E2. rewrite bool_decide_eq_false_2 in E2 by done. simpl in E2.
  rewrite list_insert_insert_eq in E2.
  match type of E2 with _ = ?S =>
    assert (E3 : worker_step driverFrameworkID i S = _)
      by (apply (worker_step_at S i (AwStore pe)); simpl; by apply list_lookup_insert_eq)
  end.
  simpl in E3. rewrite list_insert_insert_eq in E3.
  match type of E3 with _ = ?S =>
    assert (E4 : worker_step driverFrameworkID i S = _)
      by (apply (worker_step_at S i (AwCall pe)); simpl; by apply list_lookup_insert_eq)
  end.
  simpl in E4. rewrite list_insert_insert_eq in E4.
  match type of E4 with _ = ?S =>
    assert (E5 : worker_step driverFrameworkID i S = _)
      by (apply (worker_step_at S i (AwInFlight pe)); simpl; by apply list_lookup_insert_eq)
  end.
  simpl in E5. rewrite list_insert_insert_eq in E5.
  match type of E5 with _ = ?S =>
    assert (E6 : worker_step driverFrameworkID i S = _)
      by (apply (worker_step_at S i (AwDelete pe)); simpl; by apply list_lookup_insert_eq)
  end.
  simpl in E6. rewrite list_insert_insert_eq, (list_insert_id _ _ _ Hi) in E6.
  unfold run. cbn [foldl replicate step]. rewrite E1, E2, E3, E4, E5, E6. simpl.
  split; [done|]. split; [|done].
  apply set_eq. intros x. rewrite elem_of_difference, elem_of_union, elem_of_singleton.
  split; [intros [[?|?] ?]; done|]. intros Hx. split; [by right|]. by intros ->.
Qed.

(** X10: From the status update to its acknowledgement: the pod event that
    [Update] sends up stream, pushed back with [AckPodEvent] and taken
    by an idle ack worker, makes that worker send one ACKNOWLEDGE that
    carries the agent id, the task id and the uuid of the status, after
    which the worker is idle again and the map of outstanding
    acknowledgements is what it was. *)
Theorem Update_then_ack m evt i :
  ackChannel m = [] → ackWorkers m !! i = Some AwRecv →
  GetUuid evt ≠ EmptyString → GetUuid evt ∉ ackStatusMap m →
  let m1 := Update k evt m in
  let event := buildPodEventFromMesosTaskStatus k evt in
  let m2 := run driverFrameworkID (AAckPodEvent event :: replicate 6 (AWorker i)) m1 in
  podEventCh m1 = podEventCh m ++ [event] ∧
  sent m2 = sent m ++ [Call_ACKNOWLEDGE driverFrameworkID
                         (GetAgentId evt) (GetTaskId evt) (GetUuid evt)] ∧
  ackStatusMap m2 = ackStatusMap m ∧ ackWorkers m2 = ackWorkers m ∧ ackChannel m2 = [].
Proof.
  intros Hch Hi Hid Hnew m1 event m2. split; [done|].
  assert (Hpush : AckPodEvent event m1 = Some (with_ackChannel [event] m1)).
  { unfold AckPodEvent. change (ackChannel m1) with (ackChannel m). rewrite Hch.
    rewrite bool_decide_eq_true_2; [done|]. unfold mesosTaskUpdateAckChanSize. simpl. lia. }
  subst m2. unfold run. cbn [foldl step]. rewrite Hpush. cbn [default].
  apply (ack_one (with_ackChannel [event] m1) i event []); done.
Qed.

End UpdateAckLaws.

Lemma Update_then_ack_witness :
  let evt := mkEventUpdate
               (Some (mkTaskStatus (Some "pod-1") (Some "TASK_RUNNING") None None
                                   (Some "agent1") (Some 0) "uuid-1" (Some true))) in
  let m := Start (managerWithAckWorkers (T:=string) 1 60) in
  sent (run "driver"
          (AAckPodEvent (buildPodEventFromMesosTaskStatus plainCodecs evt)
           :: replicate 6 (AWorker 0))
          (Update plainCodecs evt m))
  = [Call_ACKNOWLEDGE "driver" "agent1" "pod-1" "uuid-1"].
Proof.
  destruct (Update_then_ack (TaskConfig:=string) plainCodecs "driver"
              (Start (managerWithAckWorkers 1 60))
              (mkEventUpdate
                 (Some (mkTaskStatus (Some "pod-1") (Some "TASK_RUNNING") None None
                                     (Some "agent1") (Some 0) "uuid-1" (Some true))))
              0%nat) as (_ & Hsent & _).
  - reflexivity.
  - reflexivity.
  - discriminate.
  - apply not_elem_of_empty.
  - exact Hsent.
Defined.

End MesosLaws.

(* ===================================================================== *)
(** * Laws of the helpers of the host manager                             *)
(* ===================================================================== *)

Module UtilLaws.
Import Util.

(** ** Strings *)

Lemma lower_upper_byte c : lower_byte (upper_byte c) = lower_byte c.
Proof. destruct c as [[] [] [] [] [] [] [] []]; reflexivity. Qed.

Lemma lower_lower_byte c : lower_byte (lower_byte c) = lower_byte c.
Proof. destruct c as [[] [] [] [] [] [] [] []]; reflexivity. Qed.

Lemma upper_byte_dot c : bool_decide (upper_byte c = dot) = bool_decide (c = dot).
Proof. destruct c as [[] [] [] [] [] [] [] []]; reflexivity. Qed.

Lemma ToLower_ToUpper s : ToLower (ToUpper s) = ToLower s.
Proof. induction s as [|c s IH]; [done|]. simpl. by rewrite lower_upper_byte, IH. Qed.

Lemma ToLower_ToLower s : ToLower (ToLower s) = ToLower s.
Proof. induction s as [|c s IH]; [done|]. simpl. by rewrite lower_lower_byte, IH. Qed.

Lemma length_ToUpper s : String.length (ToUpper s) = String.length s.
Proof. induction s as [|c s IH]; [done|]. simpl. by rewrite IH. Qed.

Lemma length_ReplaceFirst old new s :
  String.length (ReplaceFirst old new s) = String.length s.
Proof. induction s as [|c s IH]; [done|]. simpl. case_decide; simpl; by rewrite ?IH. Qed.

Lemma has_dot_ToUpper s : has_byte dot (ToUpper s) = has_byte dot s.
Proof. induction s as [|c s IH]; [done|]. simpl. by rewrite upper_byte_dot, IH. Qed.

Lemma ReplaceFirst_absent old new s : has_byte old s = false → ReplaceFirst old new s = s.
Proof.
  induction s as [|c s IH]; [done|]. simpl. intros [Hc Hs]%orb_false_elim.
  apply bool_decide_eq_false in Hc. rewrite decide_False by done. by rewrite IH.
Qed.

Lemma ReplaceFirst_at old new pre post :
  has_byte old pre = false →
  ReplaceFirst old new (pre +:+ String old post) = pre +:+ String new post.
Proof.
  induction pre as [|c pre IH]; simpl.
  - intros _. by rewrite decide_True.
  - intros [Hc Hs]%orb_false_elim. apply bool_decide_eq_false in Hc.
    rewrite decide_False by done. by rewrite IH.
Qed.

Lemma ToUpper_app s1 s2 : ToUpper (s1 +:+ s2) = ToUpper s1 +:+ ToUpper s2.
Proof. induction s1 as [|c s1 IH]; [done|]. simpl. by rewrite IH. Qed.

Lemma has_byte_app b s1 s2 : has_byte b (s1 +:+ s2) = has_byte b s1 || has_byte b s2.
Proof. induction s1 as [|c s1 IH]; [done|]. simpl. by rewrite IH, orb_assoc. Qed.

(** X11: [LabelKeyToEnvVarName] keeps the length of an ASCII key and
    upper-cases it; of its dots it turns the first one only into an
    underscore: a key with no dot is just upper-cased, and in a key with
    dots the part after the first dot keeps whatever dots it has. *)
Theorem LabelKeyToEnvVarName_first_dot_only (labelKey : string) :
  isASCII labelKey = true →
  String.length (LabelKeyToEnvVarName labelKey) = String.length labelKey ∧
  (has_byte dot labelKey = false → LabelKeyToEnvVarName labelKey = ToUpper labelKey) ∧
  (∀ pre post,
     labelKey = pre +:+ String dot post → has_byte dot pre = false →
     LabelKeyToEnvVarName labelKey = ToUpper pre +:+ String underscore (ToUpper post) ∧
     has_byte dot (LabelKeyToEnvVarName labelKey) = has_byte dot post).
Proof.
  intros _. unfold LabelKeyToEnvVarName. split; [|split].
  - by rewrite length_ToUpper, length_ReplaceFirst.
  - intros Hno. by rewrite ReplaceFirst_absent.
  - intros pre post -> Hpre. rewrite ReplaceFirst_at by done.
    rewrite ToUpper_app. simpl. split; [done|].
    rewrite has_byte_app, has_dot_ToUpper, Hpre. simpl. apply has_dot_ToUpper.
Qed.

Lemma LabelKeyToEnvVarName_first_dot_only_witness :
  LabelKeyToEnvVarName "peloton.job_id" = "PELOTON_JOB_ID" ∧
  LabelKeyToEnvVarName "peloton.job.id" = "PELOTON_JOB.ID".
Proof.
  split.
  - destruct (LabelKeyToEnvVarName_first_dot_only "peloton.job_id" eq_refl)
      as (_ & _ & Hdot).
    apply (Hdot "peloton" "job_id"); reflexivity.
  - destruct (LabelKeyToEnvVarName_first_dot_only "peloton.job.id" eq_refl)
      as (_ & _ & Hdot).
    apply (Hdot "peloton" "job.id"); reflexivity.
Defined.

Lemma IsSlackResourceType_iff resourceType types :
  IsSlackResourceType resourceType types = true
  ↔ ∃ rType, rType ∈ types ∧ ToLower rType = ToLower resourceType.
Proof.
  induction types as [|t types IH]; simpl.
  - split; [done|]. intros (r & Hr & _). by apply elem_of_nil in Hr.
  - case_decide as Heq.
    + split; [|done]. intros _. exists t. split; [by left|done].
    + rewrite IH. split.
      * intros (r & Hr & He). exists r. split; [by right|done].
      * intros (r & Hr & He). apply elem_of_cons in Hr as [->|Hr]; [done|]. eauto.
Qed.

(** X12: [IsSlackResourceType] holds exactly when some listed type equals the
    given one up to the case of its ASCII letters, so that changing the
    case of the given type, or of the listed ones, changes nothing; no
    type is a slack type for an empty list. *)
Theorem IsSlackResourceType_ignores_case (resourceType : string) (types : list string) :
  isASCII resourceType = true → Forall (λ t, isASCII t = true) types →
  (IsSlackResourceType resourceType types = true
   ↔ ∃ rType, rType ∈ types ∧ ToLower rType = ToLower resourceType) ∧
  IsSlackResourceType (ToUpper resourceType) types = IsSlackResourceType resourceType types ∧
  IsSlackResourceType resourceType (ToUpper <$> types)
  = IsSlackResourceType resourceType types ∧
  IsSlackResourceType resourceType [] = false.
Proof.
  intros _ _. split; [apply IsSlackResourceType_iff|]. split; [|split; [|done]].
  - induction types as [|t types IH]; [done|]. simpl.
    rewrite ToLower_ToUpper, IH. done.
  - induction types as [|t types IH]; [done|]. rewrite fmap_cons.
    cbn [IsSlackResourceType]. rewrite ToLower_ToUpper, IH. done.
Qed.

Lemma IsSlackResourceType_ignores_case_witness :
  IsSlackResourceType "CPUS" ["mem"; "Cpus"] = IsSlackResourceType "cpus" ["mem"; "Cpus"].
Proof.
  destruct (IsSlackResourceType_ignores_case "cpus" ["mem"; "Cpus"] eq_refl) as (_ & Hup & _).
  - repeat constructor.
  - exact Hup.
Defined.

(** ** Offers by host *)

Section HostOffersLaws.
Context {Resource Attribute : Type}.
Implicit Types (hostoffers : gmap string (list (Offer Resource Attribute))).

Lemma hostnames_sublist (visited : list (string * list (Offer Resource Attribute))) :
  ho_Hostname <$> MesosOffersToHostOffers visited `sublist_of` visited.*1.
Proof.
  induction visited as [|[h offers] visited IH]; [done|].
  unfold MesosOffersToHostOffers, hostOfferOf in *. simpl.
  destruct offers as [|first rest]; simpl; [by apply sublist_cons|by apply sublist_skip].
Qed.

(** X13: [MesosOffersToHostOffers] returns one host offer for each host of
    the map that has at least one offer, and none for a host with an
    empty slice: no host name comes twice, and a host offer is in the
    result exactly when its host has offers [first :: rest], its agent id
    is that of [first], and its resources and attributes are those of
    all the offers of the host, in their order. *)
Theorem MesosOffersToHostOffers_hosts hostoffers visited :
  visited ≡ₚ map_to_list hostoffers →
  let hostOffers := MesosOffersToHostOffers visited in
  NoDup (ho_Hostname <$> hostOffers) ∧
  (length hostOffers ≤ size hostoffers)%nat ∧
  ∀ ho, ho ∈ hostOffers ↔
        ∃ first rest,
          hostoffers !! ho_Hostname ho = Some (first :: rest) ∧
          ho_AgentId ho = AgentId first ∧
          ho_Resources ho = (first :: rest) ≫= Resources ∧
          ho_Attributes ho = (first :: rest) ≫= Attributes.
Proof.
  intros Hperm hostOffers. subst hostOffers. split; [|split].
  - eapply sublist_NoDup; [|apply hostnames_sublist].
    rewrite Hperm. apply NoDup_fst_map_to_list.
  - pose proof (sublist_length _ _ (hostnames_sublist visited)) as Hlen.
    rewrite !length_fmap in Hlen.
    rewrite (Permutation_length Hperm), length_map_to_list in Hlen. done.
  - intros ho. unfold MesosOffersToHostOffers. rewrite list_elem_of_omap. split.
    + intros ([h offers] & Hin & Hho). rewrite Hperm in Hin.
      apply elem_of_map_to_list in Hin. unfold hostOfferOf in Hho. simpl in Hho.
      destruct offers as [|first rest]; [done|]. injection Hho as <-. simpl.
      by exists first, rest.
    + intros (first & rest & Hlook & Hagent & Hres & Hattr).
      exists (ho_Hostname ho, first :: rest). split.
      * rewrite Hperm. by apply elem_of_map_to_list.
      * unfold hostOfferOf. simpl. destruct ho as [h a at_ rs]. simpl in *. by subst.
Qed.

End HostOffersLaws.

Lemma MesosOffersToHostOffers_hosts_witness :
  mkHostOffer "host1" (Some "agent1") ["rack:a"] ["cpus:4"; "mem:8"]
    ∈ MesosOffersToHostOffers (map_to_list twoHosts) ∧
  (length (MesosOffersToHostOffers (map_to_list twoHosts)) ≤ size twoHosts)%nat.
Proof.
  destruct (MesosOffersToHostOffers_hosts twoHosts (map_to_list twoHosts)
              (Permutation_refl _)) as (_ & Hlen & Hin).
  split; [|exact Hlen].
  apply Hin. eexists _, _. split; [by vm_compute|done].
Defined.

End UtilLaws.

(* ===================================================================== *)
(** * Laws of the job runtime updater                                     *)
(* ===================================================================== *)

Module JobRuntimeLaws.
Import JobRuntime.

Local Open Scope Z_scope.

Lemma count_range stateCounts state :
  uint32_counts stateCounts → 0 ≤ count stateCounts state < 2 ^ 32.
Proof.
  intros Hwf. unfold count. destruct (stateCounts !! state) as [n|] eqn:E; simpl.
  - exact (Hwf _ _ E).
  - lia.
Qed.

Lemma sumCounts_nonneg stateCounts states :
  uint32_counts stateCounts → 0 ≤ sumCounts stateCounts states.
Proof.
  intros Hwf. induction states as [|s states IH]; simpl; [lia|].
  pose proof (count_range stateCounts s Hwf). lia.
Qed.

Lemma foldl_uint32_sum stateCounts states a :
  uint32_counts stateCounts → 0 ≤ a →
  a + sumCounts stateCounts states < 2 ^ 32 →
  foldl (λ total state, uint32 (total + count stateCounts state)) a states
  = a + sumCounts stateCounts states.
Proof.
  intros Hwf. revert a. induction states as [|s states IH]; intros a Ha Hsum; simpl in *.
  - lia.
  - pose proof (count_range stateCounts s Hwf).
    pose proof (sumCounts_nonneg stateCounts states Hwf).
    unfold uint32 at 2. rewrite Z.mod_small by lia. rewrite IH by lia. lia.
Qed.

Lemma getTotalInstanceCount_sum TaskState_name stateCounts :
  uint32_counts stateCounts →
  sumCounts stateCounts TaskState_name < 2 ^ 32 →
  getTotalInstanceCount TaskState_name stateCounts = sumCounts stateCounts TaskState_name.
Proof.
  intros Hwf Hsum. unfold getTotalInstanceCount.
  rewrite foldl_uint32_sum by (done || lia). lia.
Qed.

Lemma sumCounts_Permutation stateCounts states states' :
  states ≡ₚ states' → sumCounts stateCounts states = sumCounts stateCounts states'.
Proof. induction 1; simpl; lia. Qed.

Lemma sumCounts_filter stateCounts (P : string → Prop) `{∀ x, Decision (P x)} states :
  sumCounts stateCounts states
  = sumCounts stateCounts (filter P states)
    + sumCounts stateCounts (filter (λ x, ¬ P x) states).
Proof.
  induction states as [|s states IH]; [done|].
  rewrite !filter_cons. simpl. destruct (decide (P s)), (decide (¬ P s)); simpl; try lia; done.
Qed.

Lemma sumCounts_zero stateCounts states :
  uint32_counts stateCounts →
  sumCounts stateCounts states = 0 ↔ ∀ state, state ∈ states → count stateCounts state = 0.
Proof.
  intros Hwf. induction states as [|s states IH]; simpl.
  - split; [|done]. intros _ state Hin. by apply elem_of_nil in Hin.
  - pose proof (count_range stateCounts s Hwf).
    pose proof (sumCounts_nonneg stateCounts states Hwf). split.
    + intros Hsum state [->|Hin]%elem_of_cons; [lia|]. apply IH; [lia|done].
    + intros Hall. rewrite (Hall s) by left.
      rewrite (proj2 IH); [done|]. intros state Hin. apply Hall. by right.
Qed.

(** The total splits into the counts of [allowed] and the counts of the
    other names. *)
Lemma sumCounts_split TaskState_name stateCounts (allowed : list string) :
  NoDup TaskState_name → NoDup allowed →
  (∀ name, name ∈ allowed → name ∈ TaskState_name) →
  sumCounts stateCounts TaskState_name
  = sumCounts stateCounts allowed
    + sumCounts stateCounts (filter (λ name, ¬ name ∈ allowed) TaskState_name).
Proof.
  intros Hnames Hallowed Hsub.
  rewrite (sumCounts_filter stateCounts (λ name, name ∈ allowed)).
  f_equal. apply sumCounts_Permutation. apply NoDup_Permutation.
  - by apply NoDup_filter.
  - done.
  - intros name. rewrite list_elem_of_filter.
    split; [by intros [? _]|intros ?; split; [done|by apply Hsub]].
Qed.

Lemma others_zero TaskState_name stateCounts (allowed : list string) :
  uint32_counts stateCounts →
  sumCounts stateCounts (filter (λ name, ¬ name ∈ allowed) TaskState_name) = 0
  ↔ ∀ name, name ∈ TaskState_name → name ∉ allowed → count stateCounts name = 0.
Proof.
  intros Hwf. rewrite sumCounts_zero by done.
  split; intros Hall name.
  - intros Hin Hnot. apply Hall. by apply list_elem_of_filter.
  - intros [Hnot Hin]%list_elem_of_filter. by apply Hall.
Qed.

Section DeterminerLaws.
Variable TaskState_name : list string.
Hypothesis TaskState_name_NoDup : NoDup TaskState_name.
Hypothesis TaskState_name_all : ∀ state, TaskState_String state ∈ TaskState_name.

Lemma total_split stateCounts (states : list TaskState) :
  NoDup (TaskState_String <$> states) →
  sumCounts stateCounts TaskState_name
  = sumCounts stateCounts (TaskState_String <$> states)
    + sumCounts stateCounts
        (filter (λ name, ¬ name ∈ TaskState_String <$> states) TaskState_name).
Proof.
  intros Hnd. apply sumCounts_split; [done..|].
  intros name (state & -> & _)%list_elem_of_fmap. apply TaskState_name_all.
Qed.

(** X14: with the counts of the task states adding up below 2^32, the
    batch determiner reports a terminal job state exactly when every
    task is SUCCEEDED, FAILED or KILLED: SUCCEEDED when no task is in
    another state than SUCCEEDED (also when there is no task at all),
    FAILED when all are SUCCEEDED or FAILED and one is FAILED, KILLED
    when all are SUCCEEDED, FAILED or KILLED and one is KILLED. *)
Theorem batch_getState_terminal stateCounts jobRuntime :
  uint32_counts stateCounts →
  sumCounts stateCounts TaskState_name < 2 ^ 32 →
  let jobState := batch_getState TaskState_name stateCounts jobRuntime in
  let none_but (states : list TaskState) :=
    ∀ name, name ∈ TaskState_name → name ∉ TaskState_String <$> states →
            count stateCounts name = 0 in
  (jobState = JobState_SUCCEEDED ↔ none_but [TaskState_SUCCEEDED]) ∧
  (jobState = JobState_FAILED ↔
     none_but [TaskState_SUCCEEDED; TaskState_FAILED] ∧
     0 < count stateCounts (TaskState_String TaskState_FAILED)) ∧
  (jobState = JobState_KILLED ↔
     none_but [TaskState_SUCCEEDED; TaskState_FAILED; TaskState_KILLED] ∧
     0 < count stateCounts (TaskState_String TaskState_KILLED)).
Proof.
  intros Hwf Hsum jobState none_but. subst jobState none_but. cbv beta.
  rewrite <- !(others_zero TaskState_name stateCounts) by done.
  unfold batch_getState. rewrite getTotalInstanceCount_sum by done.
  pose proof (total_split stateCounts [TaskState_SUCCEEDED]) as H1.
  pose proof (total_split stateCounts [TaskState_SUCCEEDED; TaskState_FAILED]) as H2.
  pose proof (total_split stateCounts
                [TaskState_SUCCEEDED; TaskState_FAILED; TaskState_KILLED]) as H3.
  rewrite H1 in Hsum |- * by compute_done.
  specialize (H2 ltac:(compute_done)).
  specialize (H3 ltac:(compute_done)).
  rewrite H1 in H2, H3 by compute_done.
  match type of H2 with _ = _ + sumCounts _ ?l => set (rest2 := sumCounts stateCounts l) in * end.
  match type of H3 with _ = _ + sumCounts _ ?l => set (rest3 := sumCounts stateCounts l) in * end.
  match type of H3 with _ + sumCounts _ ?l = _ => set (rest1 := sumCounts stateCounts l) in * end.
  assert (0 ≤ rest1) by apply sumCounts_nonneg, Hwf.
  assert (0 ≤ rest2) by apply sumCounts_nonneg, Hwf.
  assert (0 ≤ rest3) by apply sumCounts_nonneg, Hwf.
  pose proof (count_range stateCounts (TaskState_String TaskState_SUCCEEDED) Hwf).
  pose proof (count_range stateCounts (TaskState_String TaskState_FAILED) Hwf).
  pose proof (count_range stateCounts (TaskState_String TaskState_KILLED) Hwf).
  cbn [fmap list_fmap sumCounts foldr TaskState_String] in *.
  unfold uint32. rewrite !Z.mod_small by lia.
  repeat (case_decide || case_bool_decide); simpl;
    split_and!; split; intros; destruct_and?; try split; (done || lia).
Qed.

(** X15: with the counts adding up below 2^32, the service determiner
    reports KILLED exactly when no task is in another state than KILLED
    (also when there is no task at all); it never reports SUCCEEDED or
    FAILED. *)
Theorem service_getState_killed stateCounts jobRuntime :
  uint32_counts stateCounts →
  sumCounts stateCounts TaskState_name < 2 ^ 32 →
  let jobState := service_getState TaskState_name stateCounts jobRuntime in
  (jobState = JobState_KILLED ↔
     ∀ name, name ∈ TaskState_name → name ≠ TaskState_String TaskState_KILLED →
             count stateCounts name = 0) ∧
  jobState ≠ JobState_SUCCEEDED ∧ jobState ≠ JobState_FAILED.
Proof.
  intros Hwf Hsum jobState. subst jobState.
  assert ((∀ name, name ∈ TaskState_name → name ≠ TaskState_String TaskState_KILLED →
                   count stateCounts name = 0)
          ↔ sumCounts stateCounts
              (filter (λ name, ¬ name ∈ TaskState_String <$> [TaskState_KILLED])
                      TaskState_name) = 0) as ->.
  { rewrite others_zero by done. apply forall_proper; intros name.
    simpl. rewrite list_elem_of_singleton. done. }
  unfold service_getState. rewrite getTotalInstanceCount_sum by done.
  pose proof (total_split stateCounts [TaskState_KILLED] ltac:(compute_done)) as H1.
  rewrite H1.
  match type of H1 with _ = _ + sumCounts _ ?l => set (rest := sumCounts stateCounts l) in * end.
  cbn [fmap list_fmap sumCounts foldr TaskState_String] in *.
  repeat case_decide; split_and!; try split; intros; (done || lia).
Qed.

(** *** Counting the cached tasks *)

Lemma count_countState stateCounts state name :
  count (countState stateCounts state) name
  = if decide (name = state) then uint32 (count stateCounts state + 1)
    else count stateCounts name.
Proof.
  unfold countState, count.
  destruct (stateCounts !! state) as [n|] eqn:E; case_decide as Hname; subst; simpl.
  - by rewrite lookup_insert_eq.
  - by rewrite lookup_insert_ne.
  - by rewrite lookup_insert_eq.
  - by rewrite lookup_insert_ne.
Qed.

Lemma stateCountsFromCache_snoc tasks state :
  stateCountsFromCache (tasks ++ [state]) = countState (stateCountsFromCache tasks) state.
Proof. unfold stateCountsFromCache. by rewrite foldl_app. Qed.

Lemma stateCountsFromCache_count tasks name :
  Z.of_nat (length tasks) < 2 ^ 32 →
  count (stateCountsFromCache tasks) name
  = Z.of_nat (length (filter (λ state, state = name) tasks)).
Proof.
  induction tasks as [|state tasks IH] using rev_ind; intros Hlen; [done|].
  rewrite length_app in Hlen. simpl in Hlen.
  rewrite stateCountsFromCache_snoc, count_countState, filter_app, length_app.
  pose proof (length_filter (λ state, state = name) tasks).
  rewrite filter_cons, filter_nil. case_decide as Hname.
  - subst. rewrite decide_True by done. rewrite IH by lia.
    unfold uint32. rewrite Z.mod_small; simpl; lia.
  - rewrite decide_False by done. rewrite IH by lia. simpl. lia.
Qed.

Lemma stateCountsFromCache_uint32 tasks : uint32_counts (stateCountsFromCache tasks).
Proof.
  induction tasks as [|state tasks IH] using rev_ind.
  - apply map_Forall_empty.
  - rewrite stateCountsFromCache_snoc. unfold countState.
    destruct (stateCountsFromCache tasks !! state);
      apply map_Forall_insert_2; try done; try lia.
    unfold uint32. apply Z.mod_pos_bound. lia.
Qed.

Lemma stateCountsFromCache_keys tasks name :
  is_Some (stateCountsFromCache tasks !! name) ↔ name ∈ tasks.
Proof.
  induction tasks as [|state tasks IH] using rev_ind.
  - unfold stateCountsFromCache. simpl. rewrite lookup_empty, elem_of_nil.
    split; [by intros [? ?]|done].
  - rewrite stateCountsFromCache_snoc, elem_of_app, list_elem_of_singleton, <- IH.
    unfold countState. destruct (stateCountsFromCache tasks !! state) eqn:E.
    + destruct (decide (name = state)) as [->|].
      * rewrite lookup_insert_eq. split; [by right|by eexists].
      * rewrite lookup_insert_ne by done. split; [by left|by intros [?|?]].
    + destruct (decide (name = state)) as [->|].
      * rewrite lookup_insert_eq. split; [by right|by eexists].
      * rewrite lookup_insert_ne by done. split; [by left|by intros [?|?]].
Qed.

Lemma sumCounts_bump stateCounts stateCounts' state names :
  (∀ name, count stateCounts' name
           = if decide (name = state) then count stateCounts state + 1
             else count stateCounts name) →
  NoDup names →
  sumCounts stateCounts' names
  = sumCounts stateCounts names + (if decide (state ∈ names) then 1 else 0).
Proof.
  intros Hbump. induction 1 as [|name names Hnotin Hnd IH]; [done|].
  simpl. rewrite IH, Hbump. destruct (decide (name = state)) as [->|Hne].
  - rewrite decide_False by done. rewrite decide_True by left. lia.
  - destruct (decide (state ∈ names)) as [Hin|Hnin].
    + rewrite decide_True by (by right). lia.
    + rewrite decide_False; [lia|]. by intros [?|?]%elem_of_cons.
Qed.

Lemma stateCountsFromCache_sum tasks :
  (∀ state, state ∈ tasks → state ∈ TaskState_name) →
  Z.of_nat (length tasks) < 2 ^ 32 →
  sumCounts (stateCountsFromCache tasks) TaskState_name = Z.of_nat (length tasks).
Proof.
  induction tasks as [|state tasks IH] using rev_ind; intros Hin Hlen.
  - unfold stateCountsFromCache. simpl. clear.
    induction TaskState_name as [|name names IH]; [done|]. simpl. by rewrite IH.
  - rewrite length_app in Hlen |- *. simpl in Hlen |- *.
    rewrite (sumCounts_bump (stateCountsFromCache tasks) _ state).
    + rewrite decide_True by (apply Hin, elem_of_app; right; left).
      rewrite IH; [lia| |lia]. intros ? ?. apply Hin, elem_of_app. by left.
    + intros name. rewrite stateCountsFromCache_snoc, count_countState.
      case_decide; [|done].
      rewrite stateCountsFromCache_count by lia.
      pose proof (length_filter (λ s, s = state) tasks).
      unfold uint32. rewrite Z.mod_small; lia.
    + done.
Qed.

(** X16: the recount of [recalculateJobStateFromCache] over fewer than
    2^32 cached tasks gives each state the number of tasks in it, so
    that its total instance count is the number of cached tasks; and
    with a task whose state is UNKNOWN the function returns the job
    state it was given, with no error. *)
Theorem recount_counts_every_task tasks :
  (∀ state, state ∈ tasks → state ∈ TaskState_name) →
  Z.of_nat (length tasks) < 2 ^ 32 →
  let counts := stateCountsFromCache tasks in
  (∀ name, count counts name
           = Z.of_nat (length (filter (λ state, state = name) tasks))) ∧
  getTotalInstanceCount TaskState_name counts = Z.of_nat (length tasks) ∧
  (TaskState_String TaskState_UNKNOWN ∈ tasks →
   ∀ (error : Type) IsPelotonJobStateTerminal jobRuntime
     (job : cachedJob error) jobState,
     GetAllTasks job = tasks →
     recalculateJobStateFromCache TaskState_name IsPelotonJobStateTerminal
       jobRuntime job jobState = (jobState, None)).
Proof.
  intros Hin Hlen counts. subst counts. split_and!.
  - intros name. by apply stateCountsFromCache_count.
  - rewrite getTotalInstanceCount_sum.
    + by apply stateCountsFromCache_sum.
    + apply stateCountsFromCache_uint32.
    + rewrite stateCountsFromCache_sum by done. done.
  - intros Hunknown error terminal jobRuntime job jobState Htasks.
    unfold recalculateJobStateFromCache. rewrite Htasks.
    apply stateCountsFromCache_keys in Hunknown as [n ->]. done.
Qed.

(** X17: a service job without a controller task is never reported
    SUCCEEDED or FAILED by [determineJobRuntimeState], whatever the
    counts, the cache and the clock: the state is INITIALIZED, PENDING,
    RUNNING, KILLING or KILLED, there is no error, and the metrics of
    succeeded and failed jobs stay as they are. *)
Theorem service_job_never_succeeded_or_failed {error : Type}
    (IsPelotonJobStateTerminal : JobState → bool) jobRuntime stateCounts
    (job : cachedJob error) mtx :
  GetType job = JobType_SERVICE →
  HasControllerTask job = false →
  let r := determineJobRuntimeState TaskState_name IsPelotonJobStateTerminal
             jobRuntime stateCounts job mtx in
  r.1.2 = None ∧
  r.1.1 ∈ [JobState_INITIALIZED; JobState_PENDING; JobState_RUNNING;
           JobState_KILLING; JobState_KILLED] ∧
  JobSucceeded r.2 = JobSucceeded mtx ∧ JobFailed r.2 = JobFailed mtx.
Proof.
  clear TaskState_name_NoDup TaskState_name_all. intros Htype Hctl r. subst r.
  assert (∀ counts, ∃ jobState,
            getState TaskState_name IsPelotonJobStateTerminal
              (jobStateDeterminerFactory TaskState_name jobRuntime counts job)
              job jobRuntime = (jobState, None)
            ∧ jobState ∈ [JobState_INITIALIZED; JobState_PENDING; JobState_RUNNING;
                          JobState_KILLING; JobState_KILLED]) as Hget.
  { intros counts. unfold jobStateDeterminerFactory. rewrite Hctl, Htype.
    destruct (_ && _ && _); simpl.
    - eexists. split; [done|]. set_solver.
    - eexists. split; [done|]. unfold service_getState.
      repeat case_decide; set_solver. }
  unfold determineJobRuntimeState.
  destruct (Hget stateCounts) as (jobState & -> & Hin).
  destruct (_ || _).
  - unfold recalculateJobStateFromCache.
    destruct (stateCountsFromCache (GetAllTasks job) !! _).
    + simpl. split_and!; [done|done|..];
        by repeat (apply elem_of_cons in Hin as [->|Hin]; [done|]); apply elem_of_nil in Hin.
    + destruct (Hget (stateCountsFromCache (GetAllTasks job))) as (jobState' & -> & Hin').
      simpl. split_and!; [done|done|..];
        by repeat (apply elem_of_cons in Hin' as [->|Hin']; [done|]); apply elem_of_nil in Hin'.
  - simpl. split_and!; [done|done|..];
      by repeat (apply elem_of_cons in Hin as [->|Hin]; [done|]); apply elem_of_nil in Hin.
Qed.

End DeterminerLaws.

Lemma namedStates_NoDup : NoDup namedStates.
Proof. compute_done. Qed.

Lemma namedStates_all state : TaskState_String state ∈ namedStates.
Proof. destruct state; compute_done. Qed.

Lemma batch_getState_terminal_witness :
  batch_getState namedStates failedCounts runningJob = JobState_FAILED ∧
  0 < count failedCounts (TaskState_String TaskState_FAILED).
Proof.
  assert (uint32_counts failedCounts) as Hwf by compute_done.
  assert (sumCounts failedCounts namedStates < 2 ^ 32) as Hsum by done.
  destruct (batch_getState_terminal namedStates namedStates_NoDup namedStates_all
              failedCounts runningJob Hwf Hsum) as (_ & Hfailed & _).
  split; [by vm_compute|]. by apply Hfailed.
Defined.

Lemma service_getState_killed_witness :
  service_getState namedStates killedCounts runningJob = JobState_KILLED ∧
  count killedCounts (TaskState_String TaskState_RUNNING) = 0.
Proof.
  assert (uint32_counts killedCounts) as Hwf by compute_done.
  assert (sumCounts killedCounts namedStates < 2 ^ 32) as Hsum by done.
  destruct (service_getState_killed namedStates namedStates_NoDup namedStates_all
              killedCounts runningJob Hwf Hsum) as (Hkilled & _).
  split; [by vm_compute|]. apply Hkilled; [by vm_compute|apply namedStates_all|done].
Defined.

Lemma recount_counts_every_task_witness :
  getTotalInstanceCount namedStates (stateCountsFromCache (GetAllTasks serviceJob)) = 3 ∧
  count (stateCountsFromCache (GetAllTasks serviceJob))
        (TaskState_String TaskState_RUNNING) = 2.
Proof.
  assert (∀ state, state ∈ GetAllTasks serviceJob → state ∈ namedStates) as Hin.
  { intros state Hin. simpl in Hin.
    repeat (apply elem_of_cons in Hin as [->|Hin]; [compute_done|]).
    by apply elem_of_nil in Hin. }
  destruct (recount_counts_every_task namedStates namedStates_NoDup
              (GetAllTasks serviceJob) Hin ltac:(done)) as (Hcount & Htotal & _).
  split; [exact Htotal|]. by rewrite Hcount.
Defined.

Lemma service_job_never_succeeded_or_failed_witness :
  (determineJobRuntimeState namedStates (λ _, false) runningJob killedCounts
     serviceJob noMetrics).1 = (JobState_KILLED, None) ∧
  JobSucceeded (determineJobRuntimeState namedStates (λ _, false) runningJob
                  killedCounts serviceJob noMetrics).2 = 0.
Proof.
  destruct (service_job_never_succeeded_or_failed namedStates (λ _, false)
              runningJob killedCounts serviceJob noMetrics eq_refl eq_refl)
    as (_ & _ & Hsucceeded & _).
  split; [by vm_compute|]. by rewrite Hsucceeded.
Defined.

(** ** The maximum running instances SLA *)

Section SLALaws.
Context {error task_RuntimeInfo TaskConfig : Type}.
Variable task_GetState : task_RuntimeInfo → TaskState.
Implicit Types (s : stores error task_RuntimeInfo TaskConfig)
               (cachedTasks : gmap Z task_RuntimeInfo).

Lemma selectTasks_spec s jobConfig initializedTasks tasksToStart tasks cachedTasks :
  0 ≤ tasksToStart < 2 ^ 32 →
  ∃ new cachedTasks',
    selectTasks task_GetState s jobConfig initializedTasks tasksToStart tasks cachedTasks
    = (tasks ++ new, cachedTasks') ∧
    Z.of_nat (length new) ≤ tasksToStart ∧
    InstanceId <$> new `sublist_of` initializedTasks ∧
    Forall (selected task_GetState s jobConfig cachedTasks') new ∧
    (∀ instID, is_Some (cachedTasks !! instID) → is_Some (cachedTasks' !! instID)).
Proof.
  revert tasksToStart tasks cachedTasks.
  induction initializedTasks as [|instID rest IH]; intros tasksToStart tasks cachedTasks Hrange.
  { exists [], cachedTasks. simpl. rewrite app_nil_r. split_and!; try done. lia. }
  simpl. case_decide as Hstop.
  { exists [], cachedTasks. rewrite app_nil_r. split_and!; try done; [simpl; lia|].
    simpl. apply sublist_nil_l. }
  assert (uint32 (tasksToStart - 1) = tasksToStart - 1) as Hdec
    by (unfold uint32; rewrite Z.mod_small; lia).
  destruct (GetTaskRuntime s instID) as [err|taskRuntime] eqn:Hruntime.
  { destruct (IH tasksToStart tasks cachedTasks Hrange)
      as (new & cachedTasks' & -> & Hlen & Hsub & Hall & Hmono).
    exists new, cachedTasks'. split_and!; try done. by apply sublist_cons. }
  case_decide as Hstate.
  { rewrite Hdec.
    destruct (IH (tasksToStart - 1) tasks cachedTasks ltac:(lia))
      as (new & cachedTasks' & -> & Hlen & Hsub & Hall & Hmono).
    exists new, cachedTasks'. split_and!; try done; [lia|]. by apply sublist_cons. }
  set (cached := match cachedTasks !! instID with
                 | Some _ => cachedTasks
                 | None => <[instID:=taskRuntime]> cachedTasks
                 end).
  assert (is_Some (cached !! instID)) as Hcached.
  { subst cached. destruct (cachedTasks !! instID) eqn:E; [by rewrite E|].
    by rewrite lookup_insert_eq. }
  assert (∀ i, is_Some (cachedTasks !! i) → is_Some (cached !! i)) as Hgrow.
  { subst cached. intros i Hi. destruct (cachedTasks !! instID) eqn:E; [done|].
    destruct (decide (i = instID)) as [->|]; [by rewrite lookup_insert_eq|].
    by rewrite lookup_insert_ne. }
  destruct (IsScheduledTask s instID) eqn:Hsched.
  { destruct (IH tasksToStart tasks cached Hrange)
      as (new & cachedTasks' & -> & Hlen & Hsub & Hall & Hmono).
    exists new, cachedTasks'. split_and!; try done; [by apply sublist_cons|].
    intros i Hi. by apply Hmono, Hgrow. }
  rewrite Hdec.
  destruct (IH (tasksToStart - 1)
               (tasks ++ [{| InstanceId := instID; Runtime := taskRuntime;
                             Config := jobConfig instID |}])
               cached ltac:(lia))
    as (new & cachedTasks' & -> & Hlen & Hsub & Hall & Hmono).
  eexists (_ :: new), cachedTasks'. split_and!.
  - by rewrite <- app_assoc.
  - simpl length. lia.
  - rewrite fmap_cons. simpl. by apply sublist_skip.
  - apply Forall_cons. split; [|done]. unfold selected. simpl.
    split_and!; try done. by apply Hmono.
  - intros i Hi. by apply Hmono, Hgrow.
Qed.

Lemma currentScheduledInstances_nonneg stateCounts :
  0 ≤ currentScheduledInstances stateCounts.
Proof.
  unfold currentScheduledInstances, taskStatesScheduled. cbn [foldl].
  unfold uint32 at 1. apply Z.mod_pos_bound. lia.
Qed.

(** X18: when [JobEvaluateMaxRunningInstancesSLA] sends tasks to the
    resource manager, the tasks it sends and the instances already
    counted as scheduled are together at most the maximum running
    instances; the tasks are among those listed as INITIALIZED, in the
    order of the list, each with the runtime the task store returned,
    in state INITIALIZED, not scheduled in the goal-state engine and
    in the cache of the job afterwards; and no metric changes. *)
Theorem SLA_never_above_maximum s cachedTasks mtx tasks cachedTasks' mtx' :
  JobEvaluateMaxRunningInstancesSLA task_GetState s cachedTasks mtx
  = (sendTasksToResMgr tasks, cachedTasks', mtx') →
  ∃ maxRunningInstances jobConfig runtime initializedTasks,
    GetConfig s = inr maxRunningInstances ∧
    GetJobConfig s = inr jobConfig ∧
    GetRuntime s = inr runtime ∧
    GetTaskIDsForJobAndState s = inr initializedTasks ∧
    GoalState runtime ≠ JobState_KILLED ∧
    currentScheduledInstances (TaskStats runtime) + Z.of_nat (length tasks)
      ≤ maxRunningInstances ∧
    InstanceId <$> tasks `sublist_of` initializedTasks ∧
    Forall (selected task_GetState s jobConfig cachedTasks') tasks ∧
    mtx' = mtx.
Proof.
  unfold JobEvaluateMaxRunningInstancesSLA. intros Hrun.
  destruct (GetConfig s) as [?|maxRunningInstances]; [done|].
  case_decide; [done|].
  destruct (GetJobConfig s) as [?|jobConfig]; [done|].
  destruct (GetRuntime s) as [?|runtime]; [done|].
  case_decide as Hgoal; [done|]. cbv zeta in Hrun.
  case_decide as Hfull; [done|].
  destruct (GetTaskIDsForJobAndState s) as [?|initializedTasks]; [done|].
  pose proof (currentScheduledInstances_nonneg (TaskStats runtime)) as Hcur.
  set (current := currentScheduledInstances (TaskStats runtime)) in *.
  assert (0 ≤ uint32 (maxRunningInstances - current) < 2 ^ 32) as Hrange
    by (unfold uint32; apply Z.mod_pos_bound; lia).
  assert (uint32 (maxRunningInstances - current) ≤ maxRunningInstances - current) as Hle
    by (unfold uint32; apply Z.mod_le; lia).
  destruct (selectTasks_spec s jobConfig initializedTasks _ [] cachedTasks Hrange)
    as (new & cached' & Hsel & Hlen & Hsub & Hall & _).
  rewrite Hsel in Hrun. simpl in Hrun. injection Hrun as <- <- <-.
  exists maxRunningInstances, jobConfig, runtime, initializedTasks.
  split_and!; try done. lia.
Qed.

End SLALaws.

Lemma SLA_never_above_maximum_witness :
  (JobEvaluateMaxRunningInstancesSLA id slaStores ∅ noMetrics).1.1
  = sendTasksToResMgr [mkTaskInfo 2 TaskState_INITIALIZED 2] ∧
  currentScheduledInstances (TaskStats runningJob) + 1 ≤ 2.
Proof.
  split; [by vm_compute|].
  destruct (SLA_never_above_maximum id slaStores ∅ noMetrics
              [mkTaskInfo 2 TaskState_INITIALIZED 2]
              (JobEvaluateMaxRunningInstancesSLA id slaStores ∅ noMetrics).1.2
              noMetrics)
    as (maxRunningInstances & jobConfig & runtime & initializedTasks &
        Hmax & _ & Hruntime & _ & _ & Hbound & _).
  - by vm_compute.
  - injection Hmax as <-. injection Hruntime as <-. exact Hbound.
Defined.

End JobRuntimeLaws.
